(** * cnab-to-oci: registry scope accumulation and the push-with-fallback protocol

    A shallow embedding of two Go files of the repository:

    - the token-scope accumulator ([tokenScopes], package docker), whose maps
      are Go reference values: the embedding keeps an explicit store of map
      objects so that sharing between a scope set, its clone and the tokens
      handed to [add] is visible;
    - the bundle pusher (src/remotes/push.go), written as state passing over
      an abstract registry transport.

    Logging is a side channel without influence on control flow and is left
    out of the embedding. *)

From stdpp Require Import gmap strings list fin_maps sorting.
From Stdlib Require Import ZArith Ascii.

#[local] Set Warnings "-clear-no-such-hyp".
Local Open Scope Z_scope.
Local Open Scope stdpp_scope.

(** ** Go [error] values

    [ErrAlreadyExists] is the sentinel [errdefs.ErrAlreadyExists]; [ErrLeaf]
    stands for any other leaf error; [WithCause] is an error of
    github.com/pkg/errors carrying a [Cause()]; [Errorf] is the value built by
    [fmt.Errorf], kept as its format and arguments. *)
Inductive error :=
| ErrAlreadyExists
| ErrLeaf (msg : string)
| WithCause (msg : string) (cause : error)
| Errorf (format : string) (args : list fmtArg)
with fmtArg :=
| ArgString (s : string)
| ArgError (e : error).

(** [errors.Cause]: unwrap as long as the error has a cause. *)
Fixpoint Cause (e : error) : error :=
  match e with
  | WithCause _ c => Cause c
  | _ => e
  end.

(** The test [errors.Cause(err) == errdefs.ErrAlreadyExists]. *)
Definition causeIsAlreadyExists (e : error) : bool :=
  match Cause e with
  | ErrAlreadyExists => true
  | _ => false
  end.

(** ** The pieces of Go's [strings] and [sort] packages the code calls.
    Separators are one-byte strings everywhere in this code. *)
Module GoStrings.

(** [strings.LastIndex(s, sep)]: index of the last [sep], or -1. *)
Fixpoint LastIndex (s : string) (sep : ascii) : Z :=
  match s with
  | EmptyString => -1
  | String a s' =>
      let r := LastIndex s' sep in
      if 0 <=? r then 1 + r
      else if decide (a = sep) then 0 else -1
  end.

(** [s[:n]] *)
Fixpoint sliceTo (s : string) (n : nat) {struct n} : string :=
  match n, s with
  | S n', String a s' => String a (sliceTo s' n')
  | _, _ => EmptyString
  end.

(** [s[n:]] *)
Fixpoint sliceFrom (s : string) (n : nat) {struct n} : string :=
  match n, s with
  | S n', String _ s' => sliceFrom s' n'
  | _, _ => s
  end.

(** [strings.Split(s, sep)] *)
Fixpoint Split (s : string) (sep : ascii) : list string :=
  match s with
  | EmptyString => [EmptyString]
  | String a s' =>
      if decide (a = sep) then EmptyString :: Split s' sep
      else match Split s' sep with
           | x :: r => String a x :: r
           | [] => [String a EmptyString]
           end
  end.

(** [strings.Join(elems, sep)] *)
Fixpoint Join (elems : list string) (sep : ascii) : string :=
  match elems with
  | [] => EmptyString
  | [x] => x
  | x :: r => x +:+ String sep (Join r sep)
  end.

(** [strings.TrimPrefix(s, "c")] for a one-byte prefix. *)
Definition TrimPrefix (s : string) (c : ascii) : string :=
  match s with
  | String a s' => if decide (a = c) then s' else s
  | EmptyString => s
  end.

(** [sort.Strings]: ascending bytewise order. *)
Definition sortStrings (l : list string) : list string :=
  merge_sort String.le l.

(** Does byte [c] occur in [s]? *)
Fixpoint occurs (c : ascii) (s : string) : bool :=
  match s with
  | EmptyString => false
  | String a s' => bool_decide (a = c) || occurs c s'
  end.

End GoStrings.

(** * Package docker: token scopes *)
Module Scope.
Import GoStrings.

(** ** Data model *)

(** Go maps are references; [loc] names a map object. *)
Abbreviation loc := positive (only parsing).

(** [type tokenScope struct { resource string; actions map[string]interface{} }].
    [actions] is [None] for the nil map. The values stored in [actions] are
    never read, so a map object is the set of its keys. *)
Record tokenScope := TokenScope {
  resource : string;
  actions : option loc
}.

(** [type tokenScopes map[string]tokenScope]; [None] is the nil map. *)
Abbreviation tokenScopes := (option loc) (only parsing).

(** The store of map objects. *)
Record heap := Heap {
  amaps : gmap loc (gset string);
  smaps : gmap loc (gmap string tokenScope)
}.

Definition emptyHeap : heap := Heap ∅ ∅.

(** A run either returns a value and the new store, or panics. *)
Inductive outcome (A : Type) :=
| Ret (a : A) (h : heap)
| Panic (h : heap).
Arguments Ret {A} a h.
Arguments Panic {A} h.

Definition M (A : Type) := heap → outcome A.

Definition ret {A} (a : A) : M A := λ h, Ret a h.
Definition bind {A B} (m : M A) (k : A → M B) : M B := λ h,
  match m h with
  | Ret a h' => k a h'
  | Panic h' => Panic h'
  end.

Notation "'let*' x ':=' m 'in' k" := (bind m (λ x, k))
  (at level 10, x name, m at level 100, k at level 200, only parsing).
Notation "m ;;; k" := (bind m (λ _, k))
  (at level 100, k at level 200, right associativity, only parsing).

Fixpoint forM_ {A} (l : list A) (f : A → M unit) : M unit :=
  match l with
  | [] => ret tt
  | x :: l' => f x ;;; forM_ l' f
  end.

Definition finalHeap {A} (o : outcome A) : heap :=
  match o with
  | Ret _ h => h
  | Panic h => h
  end.

(** Reading a map: the nil map reads as empty. *)
Definition readActions (h : heap) (a : option loc) : gset string :=
  match a with
  | None => ∅
  | Some l => default ∅ (amaps h !! l)
  end.

Definition readScopes (h : heap) (s : tokenScopes) : gmap string tokenScope :=
  match s with
  | None => ∅
  | Some l => default ∅ (smaps h !! l)
  end.

(** [m[k] = v]: assignment to an entry of the nil map panics. *)
Definition storeAction (a : option loc) (k : string) : M unit := λ h,
  match a with
  | None => Panic h
  | Some l => Ret tt (Heap (<[l := {[k]} ∪ readActions h a]> (amaps h)) (smaps h))
  end.

Definition storeScope (s : tokenScopes) (k : string) (v : tokenScope) : M unit := λ h,
  match s with
  | None => Panic h
  | Some l => Ret tt (Heap (amaps h) (<[l := <[k := v]> (readScopes h s)]> (smaps h)))
  end.

(** [map[string]interface{}{}] and [tokenScopes{}]: a new empty map object. *)
Definition makeActions : M loc := λ h,
  let l := fresh (dom (amaps h)) in
  Ret l (Heap (<[l := ∅]> (amaps h)) (smaps h)).

Definition makeScopes : M loc := λ h,
  let l := fresh (dom (smaps h)) in
  Ret l (Heap (amaps h) (<[l := ∅]> (smaps h))).

(** The order in which [for ... range m] visits a map is not specified by
    Go: it is some enumeration of the entries. *)
Class MapRange := {
  rangeA : gset string → list string;
  rangeA_perm : ∀ s, rangeA s ≡ₚ elements s;
  rangeS : gmap string tokenScope → list (string * tokenScope);
  rangeS_perm : ∀ m, rangeS m ≡ₚ map_to_list m
}.

(** One possible order, used to run examples. *)
#[refine] Instance canonicalRange : MapRange := {|
  rangeA := elements;
  rangeS := map_to_list
|}.
Proof. all: done. Defined.

(** Another one: the reverse. *)
#[refine] Instance reverseRange : MapRange := {|
  rangeA := λ s, reverse (elements s);
  rangeS := λ m, reverse (map_to_list m)
|}.
Proof. all: intros; apply reverse_Permutation. Defined.

(** [context.Context], as far as values are concerned. *)
Inductive ctxKey := tokenScopesKey | otherKey (n : nat).
Inductive ctxValue := VtokenScopes (s : tokenScopes) | Vother (n : nat).
Inductive Context :=
| Background
| WithValue (parent : Context) (key : ctxKey) (val : ctxValue).

Global Instance ctxKey_eq_dec : EqDecision ctxKey.
Proof. solve_decision. Defined.

(** [ctx.Value(key)]: the innermost value for [key], nil when absent. *)
Fixpoint Value (ctx : Context) (key : ctxKey) : option ctxValue :=
  match ctx with
  | Background => None
  | WithValue parent k v => if decide (k = key) then Some v else Value parent key
  end.

(** [reference.Spec] *)
Record Spec := { Locator : string; Object : string }.

(** [url.URL], the fields read here. *)
Record URL := { Host : string; Path : string }.

Section operations.
Context {O : MapRange}.
(** [url.Parse] of net/url, an external collaborator. *)
Variable url_Parse : string → error + URL.

(** [func (scopes tokenScopes) add(ts tokenScope)]. The token is stored as it
    is, so the set shares the action map of the caller's token. The loop
    visits the actions [ts] has when it starts; when [ts.actions] and
    [match.actions] are one map, the stores write keys that are there. *)
Definition add (scopes : tokenScopes) (ts : tokenScope) : M unit := λ h,
  match readScopes h scopes !! resource ts with
  | None => storeScope scopes (resource ts) ts h
  | Some match_ =>
      (forM_ (rangeA (readActions h (actions ts)))
             (λ k, storeAction (actions match_) k) ;;;
       storeScope scopes (resource ts) match_) h
  end.

(** [func (scopes tokenScopes) merge(other tokenScopes)]. The loop visits the
    entries [other] has when it starts: an entry that [add] inserts into the
    very map being visited is a token stored under its own resource, and
    visiting it again adds nothing. *)
Definition merge (scopes other : tokenScopes) : M unit := λ h,
  forM_ (rangeS (readScopes h other)) (λ kv, add scopes kv.2) h.

(** [func (scopes tokenScopes) contains(other tokenScopes) bool] *)
Definition contains (h : heap) (scopes other : tokenScopes) : bool :=
  match other with
  | None => true
  | Some _ =>
      match scopes with
      | None => false
      | Some _ =>
          forallb (λ kv : string * tokenScope,
            match readScopes h scopes !! kv.1 with
            | None => false
            | Some existing =>
                forallb (λ action,
                  bool_decide (action ∈ readActions h (actions existing)))
                  (rangeA (readActions h (actions kv.2)))
            end) (rangeS (readScopes h other))
      end
  end.

(** [func (ts tokenScope) String() string] *)
Definition tokenScope_String (h : heap) (ts : tokenScope) : string :=
  let actionSlice := sortStrings (rangeA (readActions h (actions ts))) in
  resource ts +:+ ":" +:+ Join actionSlice ","%char.

(** [func (scopes tokenScopes) flatten() []string] *)
Definition flatten (h : heap) (scopes : tokenScopes) : list string :=
  sortStrings ((λ kv : string * tokenScope, tokenScope_String h kv.2)
                 <$> rangeS (readScopes h scopes)).

(** [func (ts tokenScope) clone() tokenScope] *)
Definition tokenScope_clone (ts : tokenScope) : M tokenScope := λ h,
  match actions ts with
  | None => Ret (TokenScope (resource ts) None) h
  | Some _ =>
      (let* l := makeActions in
       forM_ (rangeA (readActions h (actions ts))) (λ k, storeAction (Some l) k) ;;;
       ret (TokenScope (resource ts) (Some l))) h
  end.

(** [func (scopes tokenScopes) clone() tokenScopes] *)
Definition clone (scopes : tokenScopes) : M tokenScopes := λ h,
  match scopes with
  | None => Ret None h
  | Some _ =>
      (let* l := makeScopes in
       forM_ (rangeS (readScopes h scopes))
             (λ kv, let* v := tokenScope_clone kv.2 in storeScope (Some l) kv.1 v) ;;;
       ret (Some l)) h
  end.

(** [func repositoryScope(refspec reference.Spec, push bool) (tokenScope, error)] *)
Definition repositoryScope (refspec : Spec) (push : bool) : M (error + tokenScope) :=
  match url_Parse ("dummy://" +:+ Locator refspec) with
  | inl err => ret (inl err)
  | inr u =>
      let* l := makeActions in
      storeAction (Some l) "pull" ;;;
      let ts := TokenScope ("repository:" +:+ TrimPrefix (Path u) "/"%char) (Some l) in
      (if push then storeAction (actions ts) "push" else ret tt) ;;;
      ret (inr ts)
  end.

(** [func getContextScopes(ctx context.Context) tokenScopes] *)
Definition getContextScopes (ctx : Context) : tokenScopes :=
  match Value ctx tokenScopesKey with
  | Some (VtokenScopes s) => s
  | _ => None
  end.

(** [func contextWithRepositoryScope(ctx, refspec, push) (context.Context, error)] *)
Definition contextWithRepositoryScope (ctx : Context) (refspec : Spec) (push : bool)
  : M (error + Context) :=
  let* r := repositoryScope refspec push in
  match r with
  | inl err => ret (inl err)
  | inr s =>
      let* scopes := clone (getContextScopes ctx) in
      let* scopes := match scopes with
                     | None => let* l := makeScopes in ret (Some l)
                     | Some _ => ret scopes
                     end in
      add scopes s ;;;
      ret (inr (WithValue ctx tokenScopesKey (VtokenScopes scopes)))
  end.

(** [func parseTokenScope(s string) (tokenScope, error)] *)
Definition parseTokenScope (s : string) : M (error + tokenScope) :=
  let lastSep := LastIndex s ":"%char in
  if decide (lastSep = -1) then
    ret (inl (Errorf "%q is not a valid token scope" [ArgString s]))
  else
    let* l := makeActions in
    forM_ (Split (sliceFrom s (Z.to_nat (lastSep + 1))) ","%char)
          (λ a, storeAction (Some l) a) ;;;
    ret (inr (TokenScope (sliceTo s (Z.to_nat lastSep)) (Some l))).

(** The loop of [getTokenScopes] over the scopes of the request: the first
    scope that does not parse ends it with the error. *)
Fixpoint parseAndAddAll (scopes : tokenScopes) (paramScopes : list string)
  : M (option error) :=
  match paramScopes with
  | [] => ret None
  | rawScope :: rest =>
      let* r := parseTokenScope rawScope in
      match r with
      | inl err => ret (Some err)
      | inr parsedScope => add scopes parsedScope ;;; parseAndAddAll scopes rest
      end
  end.

(** [func getTokenScopes(ctx context.Context, params map[string]string)
    (tokenScopes, error)]; [params] is [None] for the nil map. *)
Definition getTokenScopes (ctx : Context) (params : option (gmap string string))
  : M (error + tokenScopes) :=
  let* l := makeScopes in
  let tokenScopes := Some l in
  let* err :=
    match params with
    | Some p =>
        match p !! "scope" with
        | Some paramScopesFlat =>
            parseAndAddAll tokenScopes (Split paramScopesFlat " "%char)
        | None => ret None
        end
    | None => ret None
    end in
  match err with
  | Some e => ret (inl e)
  | None =>
      let contextScopes := getContextScopes ctx in
      match contextScopes with
      | Some _ => merge tokenScopes contextScopes
      | None => ret tt
      end ;;;
      ret (inr tokenScopes)
  end.

End operations.

(** ** Specification vocabulary *)

(** The action-map objects the tokens of a scope set point to. *)
Definition scopeLocs (h : heap) (s : tokenScopes) (a : loc) : Prop :=
  ∃ r t, readScopes h s !! r = Some t ∧ actions t = Some a.

(** A token, a scope set point to allocated map objects only. *)
Definition validToken (h : heap) (t : tokenScope) : Prop :=
  ∀ a, actions t = Some a → a ∈ dom (amaps h).

Definition validScopes (h : heap) (s : tokenScopes) : Prop :=
  (∀ l, s = Some l → l ∈ dom (smaps h))
  ∧ map_Forall (λ _ t, validToken h t) (readScopes h s).

(** Every token of the set carries an allocated (non-nil) action map. *)
Definition allocatedActions (h : heap) (s : tokenScopes) : Prop :=
  map_Forall (λ _ t, ∃ a, actions t = Some a ∧ a ∈ dom (amaps h)) (readScopes h s).

(** Every token is stored under its own resource, as [add] does. *)
Definition keyedByResource (h : heap) (s : tokenScopes) : Prop :=
  map_Forall (λ k t, resource t = k) (readScopes h s).

(** [covers hS s hO o]: every resource of [o] (read in [hO]) is present in [s]
    (read in [hS]) with a superset of its actions. *)
Definition covers (hS : heap) (s : tokenScopes) (hO : heap) (o : tokenScopes) : Prop :=
  ∀ k v, readScopes hO o !! k = Some v →
    ∃ e, readScopes hS s !! k = Some e
         ∧ readActions hO (actions v) ⊆ readActions hS (actions e).

(** What a scope set holds: its resources with their action sets. *)
Definition content (h : heap) (s : tokenScopes) : gmap string (gset string) :=
  (λ t, readActions h (actions t)) <$> readScopes h s.

(** Adding a token given by resource and action set, on contents. *)
Definition absorb (r : string) (acts : gset string)
  (V : gmap string (gset string)) : gmap string (gset string) :=
  <[r := acts ∪ default ∅ (V !! r)]> V.

(** One scope string, from a resource and its action set. *)
Definition printScope (ra : string * gset string) : string :=
  ra.1 +:+ String ":" (Join (sortStrings (elements ra.2)) ",").

(** The contents after adding tokens one by one, the action sets read in [h0]. *)
Definition absorbAll (h0 : heap) (tokens : list tokenScope)
  (V : gmap string (gset string)) : gmap string (gset string) :=
  foldl (λ V t, absorb (resource t) (readActions h0 (actions t)) V) V tokens.

(** The invariant of a set under construction at [l] while [todo] remains to
    be added: tokens are stored under their resource, their action maps are
    allocated, pairwise distinct and not among those still to come, and the
    tokens to come hold what they held in [h0]. *)
Definition building (h0 h : heap) (l : loc) (todo : list tokenScope) : Prop :=
  ∃ m, smaps h !! l = Some m
  ∧ (∀ r t, m !! r = Some t →
       resource t = r
       ∧ ∃ a, actions t = Some a ∧ a ∈ dom (amaps h) ∧ Some a ∉ actions <$> todo)
  ∧ (∀ r1 r2 t1 t2, m !! r1 = Some t1 → m !! r2 = Some t2 →
       actions t1 = actions t2 → r1 = r2)
  ∧ (∀ t, t ∈ todo →
       ∃ a, actions t = Some a ∧ a ∈ dom (amaps h) ∧ amaps h !! a = amaps h0 !! a).

(** The invariant of [merge] into the set at [la], which held [mA] in [h0],
    while the entries [todo] of the other set remain to be added. *)
Definition merging (h0 h : heap) (la : loc) (mA : gmap string tokenScope)
  (todo : list (string * tokenScope)) : Prop :=
  ∃ m, smaps h !! la = Some m
  ∧ (∀ l, l ≠ la → smaps h !! l = smaps h0 !! l)
  ∧ mA ⊆ m
  ∧ (∀ k v, (k, v) ∈ todo → m !! k = mA !! k)
  ∧ (∀ a, ¬ scopeLocs h0 (Some la) a → amaps h !! a = amaps h0 !! a)
  ∧ (∀ a, scopeLocs h0 (Some la) a →
       readActions h0 (Some a) ⊆ readActions h (Some a) ∧ a ∈ dom (amaps h)).

(** [v'] (read in [h]) is a copy of the token [v] (read in [h0]): same
    resource, same actions, nil exactly when [v] is, and otherwise in a map
    object that did not exist in [h0]. *)
Definition isCloneOf (h0 h : heap) (v v' : tokenScope) : Prop :=
  resource v' = resource v
  ∧ readActions h (actions v') = readActions h0 (actions v)
  ∧ (actions v = None ↔ actions v' = None)
  ∧ (∀ b, actions v' = Some b → (b ∉ dom (amaps h0)) ∧ b ∈ dom (amaps h)).

(** The tokens of a map point to allocated action maps, no two of them to the
    same one. *)
Definition ownActions (h : heap) (m : gmap string tokenScope) : Prop :=
  (∀ k v b, m !! k = Some v → actions v = Some b → b ∈ dom (amaps h))
  ∧ (∀ k1 k2 v1 v2 b, m !! k1 = Some v1 → m !! k2 = Some v2 →
       actions v1 = Some b → actions v2 = Some b → k1 = k2).

(** The set [S], as it was in [h0], is out of reach of the set at [l']: [S]
    is another object, its map and the action maps of its tokens are as in
    [h0], and no token of the set at [l'] points to one of them. *)
Definition apart (h0 : heap) (S : tokenScopes) (h : heap) (l' : loc) : Prop :=
  S ≠ Some l'
  ∧ readScopes h S = readScopes h0 S
  ∧ (∀ a, scopeLocs h0 S a → amaps h !! a = amaps h0 !! a)
  ∧ (∀ k t a, readScopes h (Some l') !! k = Some t → actions t = Some a →
              ¬ scopeLocs h0 S a).

(** What [parseTokenScope] reads in a scope string: the part before the last
    colon, and the comma-separated pieces after it. *)
Definition scopeResource (s : string) : string :=
  sliceTo s (Z.to_nat (LastIndex s ":"%char)).

Definition scopeTail (s : string) : string :=
  sliceFrom s (Z.to_nat (LastIndex s ":"%char + 1)).

Definition scopeActions (s : string) : gset string :=
  list_to_set (Split (scopeTail s) ","%char).

(** The scope strings of a request: the space-separated pieces of
    [params["scope"]], none when the parameter or the map is absent. *)
Definition requestScopes (params : option (gmap string string)) : list string :=
  match params with
  | Some p =>
      match p !! "scope" with
      | Some paramScopesFlat => Split paramScopesFlat " "%char
      | None => []
      end
  | None => []
  end.

(** Does the scope string lack a colon? *)
Definition lacksColon (s : string) : bool := negb (occurs ":"%char s).

(** The error of [parseTokenScope]. *)
Definition notAValidTokenScope (s : string) : error :=
  Errorf "%q is not a valid token scope" [ArgString s].

(** The contents after adding the parsed scopes one by one. *)
Definition absorbParsed (scopes : list string)
  (V : gmap string (gset string)) : gmap string (gset string) :=
  foldl (λ V s, absorb (scopeResource s) (scopeActions s) V) V scopes.

(** [h'] holds at least what [h] holds: every set keeps its entries and every
    action map its actions. *)
Definition grows (h h' : heap) : Prop :=
  (∀ s k e, readScopes h s !! k = Some e → readScopes h' s !! k = Some e)
  ∧ (∀ a, readActions h a ⊆ readActions h' a).

(** The invariant of the set that [getTokenScopes] fills at [l], started in
    [h0]: tokens under their resources, each with an action map of its own
    that did not exist in [h0]; nothing that existed in [h0] has changed. *)
Definition filling (h0 h : heap) (l : loc) : Prop :=
  ∃ m, smaps h !! l = Some m
  ∧ (∀ l', l' ≠ l → smaps h !! l' = smaps h0 !! l')
  ∧ amaps h0 ⊆ amaps h
  ∧ ownActions h m
  ∧ (∀ k v, m !! k = Some v →
       resource v = k ∧ ∃ a, actions v = Some a ∧ a ∉ dom (amaps h0)).

(** The actions [repositoryScope] asks for. *)
Definition repositoryActions (push : bool) : gset string :=
  if push then {["pull"; "push"]} else {["pull"]}.

(** [scopes.add(t1); scopes.add(t2); ...] *)
Definition addAll {O : MapRange} (scopes : tokenScopes) (tokens : list tokenScope)
  : M unit :=
  forM_ tokens (add scopes).

(** ** Runs on concrete stores *)
Module Examples.

(** One empty scope set (object 1) and one empty action map (object 1). *)
Definition emptyBoth : heap :=
  finalHeap ((makeScopes ;;; (makeActions ;;; ret tt)) emptyHeap).

(** The set [{"repository:foo": {pull}}] and a separate empty action map. *)
Definition fooPull : heap :=
  finalHeap ((let* s := makeScopes in
              let* a := makeActions in
              storeAction (Some a) "pull" ;;;
              add (O:=canonicalRange) (Some s) (TokenScope "repository:foo" (Some a)) ;;;
              makeActions ;;; ret tt) emptyHeap).

(** The set [{"repository:foo": {pull}, "repository:foo/bar": {pull}}]. *)
Definition fooAndFooBar : heap :=
  finalHeap ((let* s := makeScopes in
              let* a := makeActions in
              storeAction (Some a) "pull" ;;;
              add (O:=canonicalRange) (Some s) (TokenScope "repository:foo" (Some a)) ;;;
              let* b := makeActions in
              storeAction (Some b) "pull" ;;;
              add (O:=canonicalRange) (Some s) (TokenScope "repository:foo/bar" (Some b)))
               emptyHeap).

(** An empty set (object 1) and the action maps [{pull}] (object 1) and
    [{push}] (object 2). *)
Definition pullAndPush : heap :=
  finalHeap ((makeScopes ;;;
              let* a := makeActions in
              storeAction (Some a) "pull" ;;;
              let* b := makeActions in
              storeAction (Some b) "push") emptyHeap).

(** One action map holding the single action ["pull,push"]. *)
Definition commaAction : heap :=
  finalHeap ((let* a := makeActions in storeAction (Some a) "pull,push") emptyHeap).

(** Two sets: [{"repository:foo": {pull}}] (object 1, action map 1) and
    [{"repository:foo": {push}}] (object 2, action map 2). *)
Definition twoSets : heap :=
  finalHeap ((let* s1 := makeScopes in
              let* a := makeActions in
              storeAction (Some a) "pull" ;;;
              add (O:=canonicalRange) (Some s1) (TokenScope "repository:foo" (Some a)) ;;;
              let* s2 := makeScopes in
              let* b := makeActions in
              storeAction (Some b) "push" ;;;
              add (O:=canonicalRange) (Some s2) (TokenScope "repository:foo" (Some b)))
               emptyHeap).

(** The set [{"repository:foo": {pull}}] (object 1, action map 1) and a
    separate action map [{push}] (object 2). *)
Definition fooPullAndPush : heap :=
  finalHeap ((let* s := makeScopes in
              let* a := makeActions in
              storeAction (Some a) "pull" ;;;
              add (O:=canonicalRange) (Some s) (TokenScope "repository:foo" (Some a)) ;;;
              let* b := makeActions in
              storeAction (Some b) "push") emptyHeap).

(** The set [{"repository:foo": nil actions}] (object 1) and the set
    [{"repository:foo": {pull}}] (object 2). *)
Definition nilActionsAndPull : heap :=
  finalHeap ((let* s1 := makeScopes in
              add (O:=canonicalRange) (Some s1) (TokenScope "repository:foo" None) ;;;
              let* s2 := makeScopes in
              let* a := makeActions in
              storeAction (Some a) "pull" ;;;
              add (O:=canonicalRange) (Some s2) (TokenScope "repository:foo" (Some a)))
               emptyHeap).

(** Action maps 1 [{delete}], 2 [{pull}], 3 [{push}]; the set 1 holds
    [foo -> map 1, bar -> map 2], the set 2 holds [foo -> map 2, bar -> map 3]:
    map 2 is shared between the two sets. *)
Definition sharedAcross : heap :=
  finalHeap ((let* a1 := makeActions in
              storeAction (Some a1) "delete" ;;;
              let* a2 := makeActions in
              storeAction (Some a2) "pull" ;;;
              let* a3 := makeActions in
              storeAction (Some a3) "push" ;;;
              let* s1 := makeScopes in
              add (O:=canonicalRange) (Some s1) (TokenScope "repository:foo" (Some a1)) ;;;
              add (O:=canonicalRange) (Some s1) (TokenScope "repository:bar" (Some a2)) ;;;
              let* s2 := makeScopes in
              add (O:=canonicalRange) (Some s2) (TokenScope "repository:foo" (Some a2)) ;;;
              add (O:=canonicalRange) (Some s2) (TokenScope "repository:bar" (Some a3)))
               emptyHeap).

(** An empty set (object 1) and a map (object 2) that holds the token of
    [repository:foo] under the key [k]. *)
Definition foreignKey : heap :=
  finalHeap ((makeScopes ;;;
              let* s2 := makeScopes in
              let* a := makeActions in
              storeAction (Some a) "pull" ;;;
              storeScope (Some s2) "k" (TokenScope "repository:foo" (Some a)))
               emptyHeap).

(** [url.Parse] on locators without user info, query, fragment or escapes:
    the host runs up to the first slash after the scheme, the path is the
    rest. *)
Fixpoint splitAtSlash (s : string) : string * string :=
  match s with
  | EmptyString => (EmptyString, EmptyString)
  | String a s' =>
      if decide (a = "/"%char) then (EmptyString, s)
      else let '(host, path) := splitAtSlash s' in (String a host, path)
  end.

Definition plainParse (s : string) : error + URL :=
  let '(host, path) := splitAtSlash (sliceFrom s 8) in
  inr {| Host := host; Path := path |}.

End Examples.

End Scope.


(** * Package remotes: pushing a bundle *)
Module Push.

Definition bytes := list Byte.byte.

(** [ocischemav1.Descriptor], the fields this file sets and reads. *)
Record Descriptor := {
  MediaType : string;
  Digest : string;
  Size : Z
}.

(** [ocischemav1.Index] *)
Record Index := {
  SchemaVersion : Z;
  Manifests : list Descriptor;
  Annotations : gmap string string
}.

(** [type ociIndexWrapper struct { ocischemav1.Index; MediaType string }] *)
Record ociIndexWrapper := {
  wrapped : Index;
  wrapperMediaType : string
}.

(** [reference.Named]: what [Name()] and [String()] return. *)
Record Named := {
  Name : string;
  FullString : string
}.

(** [converter.PreparedBundleConfig] *)
#[local] Unset Elimination Schemes.
Inductive PreparedBundleConfig := {
  ConfigBlob : bytes;
  ConfigBlobDescriptor : Descriptor;
  Manifest : bytes;
  ManifestDescriptor : Descriptor;
  Fallback : option PreparedBundleConfig
}.
#[local] Set Elimination Schemes.

Definition MediaTypeImageIndex : string :=
  "application/vnd.oci.image.index.v1+json".
Definition MediaTypeDockerSchema2ManifestList : string :=
  "application/vnd.docker.distribution.manifest.list.v2+json".

(** [type ManifestOption func(ix *ocischemav1.Index) error]: the index after
    the call and the error returned. *)
Definition ManifestOption := Index → Index * option error.

(** [remotes.Resolver] with the pusher and the content writer it hands out.
    Every call may change the registry and the connection, together [World];
    the context handed down (muted for logging) is part of it. *)
Record Resolver (World : Type) := {
  PusherT : Type;
  WriterT : Type;
  resolver_Pusher : string → World → World * (error + PusherT);
  pusher_Push : PusherT → Descriptor → World → World * (error + WriterT);
  writer_Write : WriterT → bytes → World → World * option error;
  writer_Commit : WriterT → Z → string → World → World * option error;
  writer_Close : WriterT → World → World
}.
Arguments PusherT {World} _.
Arguments WriterT {World} _.
Arguments resolver_Pusher {World} _ _ _.
Arguments pusher_Push {World} _ _ _ _.
Arguments writer_Write {World} _ _ _ _.
Arguments writer_Commit {World} _ _ _ _ _.
Arguments writer_Close {World} _ _ _.

(** The chain of representations, first to last. *)
Fixpoint chain (c : PreparedBundleConfig) : list PreparedBundleConfig :=
  c :: match Fallback c with
       | Some fb => chain fb
       | None => []
       end.

(** ** A registry that can be run: it logs every call and answers by a policy
    on the media type of the descriptor being pushed. *)
Inductive event :=
| EvPusher (reference : string)
| EvPush (d : Descriptor)
| EvWrite (payload : bytes)
| EvCommit (size : Z) (digest : string)
| EvClose.

Inductive stage := AtPush | AtWrite | AtCommit.

Definition failsAt (policy : string → option (stage * error)) (d : Descriptor)
  (s : stage) : option error :=
  match policy (MediaType d) with
  | Some (s', e) =>
      match s, s' with
      | AtPush, AtPush | AtWrite, AtWrite | AtCommit, AtCommit => Some e
      | _, _ => None
      end
  | None => None
  end.

Definition loggingResolver (policy : string → option (stage * error))
  : Resolver (list event) := {|
  PusherT := string;
  WriterT := Descriptor;
  resolver_Pusher := λ reference w, (w ++ [EvPusher reference], inr reference);
  pusher_Push := λ _ d w,
    (w ++ [EvPush d],
     match failsAt policy d AtPush with Some e => inl e | None => inr d end);
  writer_Write := λ d payload w, (w ++ [EvWrite payload], failsAt policy d AtWrite);
  writer_Commit := λ d size digest w,
    (w ++ [EvCommit size digest], failsAt policy d AtCommit);
  writer_Close := λ _ w, w ++ [EvClose]
|}.

(** Any resolver, with a record of the calls made to it. *)
Definition traced {World : Type} (r : Resolver World) : Resolver (World * list event) := {|
  PusherT := PusherT r;
  WriterT := WriterT r;
  resolver_Pusher := λ reference wl,
    let '(w, res) := resolver_Pusher r reference wl.1 in
    ((w, wl.2 ++ [EvPusher reference]), res);
  pusher_Push := λ pusher d wl,
    let '(w, res) := pusher_Push r pusher d wl.1 in
    ((w, wl.2 ++ [EvPush d]), res);
  writer_Write := λ writer payload wl,
    let '(w, res) := writer_Write r writer payload wl.1 in
    ((w, wl.2 ++ [EvWrite payload]), res);
  writer_Commit := λ writer size digest wl,
    let '(w, res) := writer_Commit r writer size digest wl.1 in
    ((w, wl.2 ++ [EvCommit size digest]), res);
  writer_Close := λ writer wl, (writer_Close r writer wl.1, wl.2 ++ [EvClose])
|}.

(** The number of payload pushes in a record: each starts by asking the
    resolver for a pusher. *)
Definition isPusher (e : event) : bool :=
  match e with
  | EvPusher _ => true
  | _ => false
  end.

Definition pushes (t : list event) : nat := length (List.filter isPusher t).

(** The representation [pushBundleConfig] tries last: the end of the chain
    when fallbacks are allowed, the first one otherwise. *)
Definition lastTried (c : PreparedBundleConfig) (allowFallbacks : bool)
  : PreparedBundleConfig :=
  if allowFallbacks then default c (last (chain c)) else c.

(** A small setting to run the pusher in: a bundle converter that offers two
    representations of the config, and toy encoders. *)
Module Demo.

Definition blobDescriptor (mt : string) : Descriptor :=
  {| MediaType := mt; Digest := "sha256:c0"; Size := 2 |}.
Definition manifestDescriptor (mt : string) : Descriptor :=
  {| MediaType := mt; Digest := "sha256:m0"; Size := 3 |}.

Definition dockerConfig : PreparedBundleConfig := {|
  ConfigBlob := [Byte.x7b; Byte.x7d];
  ConfigBlobDescriptor := blobDescriptor "application/vnd.docker.container.image.v1+json";
  Manifest := [Byte.x7b; Byte.x20; Byte.x7d];
  ManifestDescriptor :=
    manifestDescriptor "application/vnd.docker.distribution.manifest.v2+json";
  Fallback := None
|}.

Definition ociConfig : PreparedBundleConfig := {|
  ConfigBlob := [Byte.x7b; Byte.x7d];
  ConfigBlobDescriptor := blobDescriptor "application/vnd.oci.image.config.v1+json";
  Manifest := [Byte.x7b; Byte.x20; Byte.x7d];
  ManifestDescriptor := manifestDescriptor "application/vnd.oci.image.manifest.v1+json";
  Fallback := Some dockerConfig
|}.

Definition ref : Named :=
  {| Name := "registry.example.com/org/name";
     FullString := "registry.example.com/org/name:v1" |}.

Definition createBundleConfig (b : unit) : unit := b.
Definition prepareForPush (_ : unit) : error + PreparedBundleConfig := inr ociConfig.
Definition convert (_ : unit) (_ : Named) (d : Descriptor) : error + Index :=
  inr {| SchemaVersion := 2; Manifests := [d]; Annotations := ∅ |}.
Definition marshalIndex (ix : Index) : error + bytes :=
  inr (Byte.x00 :: ((λ _, Byte.x2c) <$> Manifests ix)).
Definition marshalWrapper (w : ociIndexWrapper) : error + bytes :=
  inr (Byte.x01 :: Byte.x02 :: ((λ _, Byte.x2c) <$> Manifests (wrapped w))).
Definition digestOf (p : bytes) : string :=
  match p with
  | Byte.x00 :: _ => "sha256:oci-index"
  | _ => "sha256:manifest-list"
  end.

(** Two options: one sets an annotation, one refuses the index. *)
Definition annotate (ix : Index) : Index * option error :=
  ({| SchemaVersion := SchemaVersion ix;
      Manifests := Manifests ix;
      Annotations := <["org.example.title" := "demo"]> (Annotations ix) |}, None).
Definition refuse (ix : Index) : Index * option error :=
  (ix, Some (ErrLeaf "no annotations allowed")).

(** The registry has everything already. *)
Definition hasAll (_ : string) : option (stage * error) :=
  Some (AtCommit, WithCause "commit failed" ErrAlreadyExists).

(** The registry refuses OCI indexes. *)
Definition noIndex (mt : string) : option (stage * error) :=
  if decide (mt = MediaTypeImageIndex)
  then Some (AtPush, ErrLeaf "unsupported manifest media type") else None.

(** The registry refuses every OCI media type at commit. *)
Definition noOCI (mt : string) : option (stage * error) :=
  if decide (mt = "application/vnd.oci.image.config.v1+json"
             ∨ mt = "application/vnd.oci.image.manifest.v1+json"
             ∨ mt = MediaTypeImageIndex)
  then Some (AtCommit, ErrLeaf "unsupported media type") else None.

End Demo.

Section push.
Context {World : Type} (resolver : Resolver World).
(** The bundle converter, the JSON encoder and the digest function are
    external collaborators. *)
Context {Bundle BundleConfig : Type}.
Variable CreateBundleConfig : Bundle → BundleConfig.
Variable PrepareForPush : BundleConfig → error + PreparedBundleConfig.
Variable ConvertBundleToOCIIndex : Bundle → Named → Descriptor → error + Index.
Variable json_Marshal_Index : Index → error + bytes.
Variable json_Marshal_Wrapper : ociIndexWrapper → error + bytes.
Variable digest_FromBytes : bytes → string.

(** [func pushPayload(ctx, resolver, reference, descriptor, payload) error] *)
Definition pushPayload (reference : string) (descriptor : Descriptor) (payload : bytes)
  : World → World * option error := λ w,
  match resolver_Pusher resolver reference w with
  | (w, inl err) => (w, Some err)
  | (w, inr pusher) =>
      match pusher_Push resolver pusher descriptor w with
      | (w, inl err) =>
          if causeIsAlreadyExists err then (w, None) else (w, Some err)
      | (w, inr writer) =>
          (* defer writer.Close() *)
          match writer_Write resolver writer payload w with
          | (w, Some err) =>
              let w := writer_Close resolver writer w in
              if causeIsAlreadyExists err then (w, None) else (w, Some err)
          | (w, None) =>
              let '(w, err) :=
                writer_Commit resolver writer (Size descriptor) (Digest descriptor) w in
              let w := writer_Close resolver writer w in
              match err with
              | Some e => if causeIsAlreadyExists e then (w, None) else (w, Some e)
              | None => (w, None)
              end
          end
      end
  end.

(** [func pushBundleConfig(ctx, resolver, reference, bundleConfig, allowFallbacks)] *)
Fixpoint pushBundleConfig (reference : string) (bundleConfig : PreparedBundleConfig)
  (allowFallbacks : bool) (w : World) {struct bundleConfig}
  : World * (error + Descriptor) :=
  match bundleConfig with
  | Build_PreparedBundleConfig configBlob configBlobDescriptor manifest
      manifestDescriptor fallback =>
      match pushPayload reference configBlobDescriptor configBlob w with
      | (w, Some err) =>
          match fallback with
          | Some fb =>
              if allowFallbacks then pushBundleConfig reference fb allowFallbacks w
              else (w, inl err)
          | None => (w, inl err)
          end
      | (w, None) =>
          match pushPayload reference manifestDescriptor manifest w with
          | (w, Some err) =>
              match fallback with
              | Some fb =>
                  if allowFallbacks then pushBundleConfig reference fb allowFallbacks w
                  else (w, inl err)
              | None => (w, inl err)
              end
          | (w, None) => (w, inr manifestDescriptor)
          end
      end
  end.

(** [func convertIndexAndApplyOptions(b, ref, confDescriptor, options...)] *)
Fixpoint applyOptions (ref : Named) (options : list ManifestOption) (ix : Index)
  : error + Index :=
  match options with
  | [] => inr ix
  | opts :: rest =>
      match opts ix with
      | (_, Some err) =>
          inl (Errorf "failed to prepare bundle manifest %q: %s"
                 [ArgString (FullString ref); ArgError err])
      | (ix, None) => applyOptions ref rest ix
      end
  end.

Definition convertIndexAndApplyOptions (b : Bundle) (ref : Named)
  (confDescriptor : Descriptor) (options : list ManifestOption) : error + Index :=
  match ConvertBundleToOCIIndex b ref confDescriptor with
  | inl err => inl err
  | inr ix => applyOptions ref options ix
  end.

(** [func prepareIndex(b, ref, confDescriptor, options...)] *)
Definition prepareIndex (b : Bundle) (ref : Named) (confDescriptor : Descriptor)
  (options : list ManifestOption) : error + Descriptor * bytes :=
  match convertIndexAndApplyOptions b ref confDescriptor options with
  | inl err => inl err
  | inr ix =>
      match json_Marshal_Index ix with
      | inl err =>
          inl (Errorf "invalid bundle manifest %q: %s"
                 [ArgString (FullString ref); ArgError err])
      | inr indexPayload =>
          let indexDescriptor := {|
            Digest := digest_FromBytes indexPayload;
            MediaType := MediaTypeImageIndex;
            Size := Z.of_nat (length indexPayload) |} in
          inr (indexDescriptor, indexPayload)
      end
  end.

(** The wrapper built by [prepareIndexNonOCI]:
    [w := &ociIndexWrapper{Index: *ix, MediaType: ...}; w.SchemaVersion = 2]. *)
Definition manifestListWrapper (ix : Index) : ociIndexWrapper := {|
  wrapped := {| SchemaVersion := 2;
                Manifests := Manifests ix;
                Annotations := Annotations ix |};
  wrapperMediaType := MediaTypeDockerSchema2ManifestList |}.

(** [func prepareIndexNonOCI(b, ref, confDescriptor, options...)] *)
Definition prepareIndexNonOCI (b : Bundle) (ref : Named) (confDescriptor : Descriptor)
  (options : list ManifestOption) : error + Descriptor * bytes :=
  match convertIndexAndApplyOptions b ref confDescriptor options with
  | inl err => inl err
  | inr ix =>
      let w := manifestListWrapper ix in
      match json_Marshal_Wrapper w with
      | inl err =>
          inl (Errorf "invalid bundle manifest %q: %s"
                 [ArgString (FullString ref); ArgError err])
      | inr indexPayload =>
          let indexDescriptor := {|
            Digest := digest_FromBytes indexPayload;
            MediaType := MediaTypeDockerSchema2ManifestList;
            Size := Z.of_nat (length indexPayload) |} in
          inr (indexDescriptor, indexPayload)
      end
  end.

(** [func Push(ctx, b, ref, resolver, allowFallbacks, options...)] *)
Definition Push (b : Bundle) (ref : Named) (allowFallbacks : bool)
  (options : list ManifestOption) : World → World * (error + Descriptor) := λ w,
  match PrepareForPush (CreateBundleConfig b) with
  | inl err => (w, inl err)
  | inr bundleConfig =>
      match pushBundleConfig (Name ref) bundleConfig allowFallbacks w with
      | (w, inl err) =>
          (w, inl (Errorf "error while pushing bundle config manifest: %s"
                     [ArgError err]))
      | (w, inr confManifestDescriptor) =>
          match prepareIndex b ref confManifestDescriptor options with
          | inl err => (w, inl err)
          | inr (indexDescriptor, indexPayload) =>
              match pushPayload (FullString ref) indexDescriptor indexPayload w with
              | (w, None) => (w, inr indexDescriptor)
              | (w, Some err) =>
                  if negb allowFallbacks then (w, inl err)
                  else
                    (* retry with a docker manifestlist *)
                    match prepareIndexNonOCI b ref confManifestDescriptor options with
                    | inl err => (w, inl err)
                    | inr (indexDescriptor, indexPayload) =>
                        match
                          pushPayload (FullString ref) indexDescriptor indexPayload w
                        with
                        | (w, Some err) => (w, inl err)
                        | (w, None) => (w, inr indexDescriptor)
                        end
                    end
              end
          end
      end
  end.

(** The transport reports "already exists" as the cause of the failure of one
    payload push: when the writer is requested, when the payload is written,
    or at commit. [w'] is the world the attempt leaves behind. *)
Inductive reportsAlreadyExists (reference : string) (d : Descriptor) (payload : bytes)
  (w w' : World) : Prop :=
| exists_at_sink pusher w1 err :
    resolver_Pusher resolver reference w = (w1, inr pusher) →
    pusher_Push resolver pusher d w1 = (w', inl err) →
    causeIsAlreadyExists err = true →
    reportsAlreadyExists reference d payload w w'
| exists_at_write pusher writer w1 w2 w3 err :
    resolver_Pusher resolver reference w = (w1, inr pusher) →
    pusher_Push resolver pusher d w1 = (w2, inr writer) →
    writer_Write resolver writer payload w2 = (w3, Some err) →
    causeIsAlreadyExists err = true →
    w' = writer_Close resolver writer w3 →
    reportsAlreadyExists reference d payload w w'
| exists_at_commit pusher writer w1 w2 w3 w4 err :
    resolver_Pusher resolver reference w = (w1, inr pusher) →
    pusher_Push resolver pusher d w1 = (w2, inr writer) →
    writer_Write resolver writer payload w2 = (w3, None) →
    writer_Commit resolver writer (Size d) (Digest d) w3 = (w4, Some err) →
    causeIsAlreadyExists err = true →
    w' = writer_Close resolver writer w4 →
    reportsAlreadyExists reference d payload w w'.

(** [pushBundleConfig], started on [c] in the world [w], comes to try the
    representation [r] in the world [w0]: [r] is [c] itself, or fallbacks are
    allowed, a push of [c] returned an error and the fallback of [c] comes to
    try [r]. *)
Inductive tried (reference : string) (allowFallbacks : bool)
  : PreparedBundleConfig → World → PreparedBundleConfig → World → Prop :=
| tried_first c w : tried reference allowFallbacks c w c w
| tried_after_blob c w fb w1 err r w0 :
    Fallback c = Some fb →
    allowFallbacks = true →
    pushPayload reference (ConfigBlobDescriptor c) (ConfigBlob c) w = (w1, Some err) →
    tried reference allowFallbacks fb w1 r w0 →
    tried reference allowFallbacks c w r w0
| tried_after_manifest c w fb w1 w2 err r w0 :
    Fallback c = Some fb →
    allowFallbacks = true →
    pushPayload reference (ConfigBlobDescriptor c) (ConfigBlob c) w = (w1, None) →
    pushPayload reference (ManifestDescriptor c) (Manifest c) w1 = (w2, Some err) →
    tried reference allowFallbacks fb w2 r w0 →
    tried reference allowFallbacks c w r w0.

(** The index after the options have run on it one after the other, and
    whether each of them returned nil on the index the one before left. *)
Definition applied (options : list ManifestOption) (ix : Index) : Index :=
  foldl (λ ix opts, (opts ix).1) ix options.

Fixpoint succeed (options : list ManifestOption) (ix : Index) : bool :=
  match options with
  | [] => true
  | opts :: rest =>
      match opts ix with
      | (ix, None) => succeed rest ix
      | (_, Some _) => false
      end
  end.

End push.

Module DemoRuns.
Import Demo.

Definition push (policy : string → option (stage * error)) (allowFallbacks : bool)
  : list event * (error + Descriptor) :=
  Push (loggingResolver policy) createBundleConfig prepareForPush convert
    marshalIndex marshalWrapper digestOf tt ref allowFallbacks [] [].

(** The log the registry holds after the two pushes of the first
    representation, and after the config and a refused OCI index. *)
Definition logTwoPushes : list event :=
  Eval vm_compute in
    let r := loggingResolver hasAll in
    let w1 := (pushPayload r (Name ref) (ConfigBlobDescriptor ociConfig)
                 (ConfigBlob ociConfig) []).1 in
    (pushPayload r (Name ref) (ManifestDescriptor ociConfig) (Manifest ociConfig) w1).1.

Definition logConfig : list event :=
  Eval vm_compute in
    (pushBundleConfig (loggingResolver noIndex) (Name ref) ociConfig true []).1.

Definition ociIndexDescriptor : Descriptor :=
  {| MediaType := MediaTypeImageIndex; Digest := "sha256:oci-index"; Size := 2 |}.
Definition manifestListDescriptor : Descriptor :=
  {| MediaType := MediaTypeDockerSchema2ManifestList;
     Digest := "sha256:manifest-list"; Size := 3 |}.

Definition logIndexRefused : list event :=
  logConfig ++ [EvPusher (FullString ref); EvPush ociIndexDescriptor].

End DemoRuns.

End Push.


(** * Facts about the string functions *)
Module GoStringsFacts.
Import GoStrings.

Section string_facts.
Variable sep : ascii.

Lemma app_cons a s t : String a s +:+ t = String a (s +:+ t).
Proof. reflexivity. Qed.

Lemma app_empty t : EmptyString +:+ t = t.
Proof. reflexivity. Qed.

Lemma occurs_app c s t : occurs c (s +:+ t) = occurs c s || occurs c t.
Proof.
  induction s as [|a s IH]; [done|].
  rewrite ?app_cons. simpl. by rewrite IH, orb_assoc.
Qed.

Lemma LastIndex_absent t : occurs sep t = false → LastIndex t sep = -1.
Proof.
  induction t as [|a t IH]; simpl; [done|].
  intros [Ha Ht]%orb_false_elim. rewrite (IH Ht). simpl.
  apply bool_decide_eq_false in Ha. by rewrite decide_False.
Qed.

Lemma LastIndex_last r t :
  occurs sep t = false →
  LastIndex (r +:+ String sep t) sep = Z.of_nat (String.length r).
Proof.
  intros Ht. induction r as [|a r IH].
  - rewrite ?app_empty. simpl. rewrite (LastIndex_absent _ Ht). simpl.
    by rewrite decide_True.
  - rewrite ?app_cons. cbn [LastIndex String.length]. rewrite IH.
    destruct (Z.leb_spec 0 (Z.of_nat (String.length r))); lia.
Qed.

Lemma sliceTo_app r t : sliceTo (r +:+ t) (String.length r) = r.
Proof.
  induction r as [|a r IH]; [by destruct t|].
  rewrite ?app_cons. simpl. by rewrite IH.
Qed.

Lemma sliceFrom_app r t : sliceFrom (r +:+ t) (String.length r) = t.
Proof.
  induction r as [|a r IH]; [by destruct t|].
  rewrite ?app_cons. simpl. by rewrite IH.
Qed.

Lemma Split_not_nil s : Split s sep ≠ [].
Proof.
  destruct s as [|a s]; simpl; [done|].
  destruct (decide (a = sep)); [done|]. by destruct (Split s sep).
Qed.

Lemma Split_absent x : occurs sep x = false → Split x sep = [x].
Proof.
  induction x as [|a x IH]; simpl; [done|].
  intros [Ha Hx]%orb_false_elim. apply bool_decide_eq_false in Ha.
  by rewrite decide_False, (IH Hx).
Qed.

Lemma Split_first x t :
  occurs sep x = false → Split (x +:+ String sep t) sep = x :: Split t sep.
Proof.
  induction x as [|a x IH].
  - intros _. rewrite ?app_empty. simpl. by rewrite decide_True.
  - simpl. intros [Ha Hx]%orb_false_elim. apply bool_decide_eq_false in Ha.
    rewrite ?app_cons. simpl. by rewrite decide_False, (IH Hx).
Qed.

Lemma Split_Join l :
  l ≠ [] → Forall (λ x, occurs sep x = false) l → Split (Join l sep) sep = l.
Proof.
  induction l as [|x l IH]; [done|]. intros _ Hl.
  apply Forall_cons in Hl as [Hx Hl].
  destruct l as [|y l]; simpl.
  - by apply Split_absent.
  - rewrite Split_first by done. f_equal. by apply IH.
Qed.

Lemma occurs_Join c l :
  c ≠ sep → Forall (λ x, occurs c x = false) l → occurs c (Join l sep) = false.
Proof.
  intros Hc. induction l as [|x l IH]; [done|]. intros Hl.
  apply Forall_cons in Hl as [Hx Hl].
  destruct l as [|y l]; simpl; [done|].
  rewrite occurs_app, Hx. simpl. rewrite bool_decide_eq_false_2 by done.
  by apply IH.
Qed.

Lemma sliceFrom_after r t :
  sliceFrom (r +:+ String sep t) (S (String.length r)) = t.
Proof.
  induction r as [|a r IH]; [reflexivity|].
  rewrite ?app_cons. cbn [String.length]. exact IH.
Qed.

End string_facts.

Lemma sortStrings_perm l : sortStrings l ≡ₚ l.
Proof. apply merge_sort_Permutation. Qed.

Lemma sortStrings_sorted l : Sorted String.le (sortStrings l).
Proof. apply (Sorted_merge_sort String.le). Qed.

(** Two enumerations of the same strings sort to the same slice. *)
Lemma sortStrings_unique l1 l2 : l1 ≡ₚ l2 → sortStrings l1 = sortStrings l2.
Proof.
  intros Hp. apply (Sorted_unique String.le); try apply sortStrings_sorted.
  by rewrite !sortStrings_perm.
Qed.

(** More on the string functions: where the last separator is, and what the
    pieces of a split are. *)
Section split_facts.
Variable sep : ascii.

Lemma LastIndex_present s : occurs sep s = true → 0 ≤ LastIndex s sep.
Proof.
  induction s as [|a s IH]; simpl; [done|].
  destruct (Z.leb_spec 0 (LastIndex s sep)) as [Hr|Hr]; [lia|].
  destruct (occurs sep s) eqn:Hs; [specialize (IH eq_refl); lia|].
  rewrite orb_false_r. intros Ha%bool_decide_eq_true. by rewrite decide_True.
Qed.

Lemma LastIndex_none_iff s : LastIndex s sep = -1 ↔ occurs sep s = false.
Proof.
  split; [|apply LastIndex_absent].
  intros E. destruct (occurs sep s) eqn:Hs; [|done].
  apply LastIndex_present in Hs. lia.
Qed.

(** A string with a separator is what precedes the last one, the separator,
    and a rest without separator. *)
Lemma LastIndex_split s :
  occurs sep s = true →
  s = sliceTo s (Z.to_nat (LastIndex s sep))
        +:+ String sep (sliceFrom s (Z.to_nat (LastIndex s sep + 1)))
  ∧ occurs sep (sliceFrom s (Z.to_nat (LastIndex s sep + 1))) = false.
Proof.
  induction s as [|a s IH]; [done|]. intros Hocc.
  cbn [LastIndex]. destruct (Z.leb_spec 0 (LastIndex s sep)) as [Hr|Hr].
  - assert (occurs sep s = true) as Hs.
    { destruct (occurs sep s) eqn:Hs; [done|].
      apply LastIndex_absent in Hs. lia. }
    destruct (IH Hs) as [Heq Hrest].
    replace (Z.to_nat (1 + LastIndex s sep)) with (S (Z.to_nat (LastIndex s sep)))
      by lia.
    replace (Z.to_nat (1 + LastIndex s sep + 1))
      with (S (Z.to_nat (LastIndex s sep + 1))) by lia.
    cbn [sliceTo sliceFrom]. rewrite app_cons. split; [by rewrite <- Heq|done].
  - assert (occurs sep s = false) as Hs.
    { destruct (occurs sep s) eqn:Hs; [|done].
      apply LastIndex_present in Hs. lia. }
    simpl in Hocc. rewrite Hs, orb_false_r in Hocc.
    apply bool_decide_eq_true in Hocc as ->.
    rewrite decide_True by done. simpl. by destruct s.
Qed.

Lemma Split_no_sep s x : x ∈ Split s sep → occurs sep x = false.
Proof.
  revert x. induction s as [|a s IH]; intros x; simpl.
  { by intros ->%list_elem_of_singleton. }
  destruct (decide (a = sep)) as [->|Hne].
  - intros [->|Hin]%elem_of_cons; [done|by apply IH].
  - pose proof (Split_not_nil sep s) as Hnil.
    destruct (Split s sep) as [|y r]; [done|].
    intros [->|Hin]%elem_of_cons.
    + simpl. rewrite bool_decide_eq_false_2 by done. apply IH. by left.
    + apply IH. by right.
Qed.

Lemma Split_pieces c s x : x ∈ Split s sep → occurs c s = false → occurs c x = false.
Proof.
  revert x. induction s as [|a s IH]; intros x; simpl.
  { by intros ->%list_elem_of_singleton. }
  intros Hin [Ha Hs]%orb_false_elim. revert Hin.
  destruct (decide (a = sep)) as [->|Hne].
  - intros [->|Hin]%elem_of_cons; [done|by apply IH].
  - pose proof (Split_not_nil sep s) as Hnil.
    destruct (Split s sep) as [|y r]; [done|].
    intros [->|Hin]%elem_of_cons.
    + simpl. rewrite Ha. apply IH; [by left|done].
    + apply IH; [by right|done].
Qed.

Lemma Join_cons_cons x y r : Join (x :: y :: r) sep = x +:+ String sep (Join (y :: r) sep).
Proof. reflexivity. Qed.

(** Joining the pieces of a split gives the string back. *)
Lemma Join_Split s : Join (Split s sep) sep = s.
Proof.
  induction s as [|a s IH]; [done|]. simpl.
  pose proof (Split_not_nil sep s) as Hnil.
  destruct (decide (a = sep)) as [->|Hne].
  - destruct (Split s sep) as [|y r] eqn:E; [done|].
    by rewrite Join_cons_cons, IH.
  - destruct (Split s sep) as [|y r] eqn:E; [done|].
    destruct r as [|z r]; [by simpl in *; rewrite IH|].
    rewrite Join_cons_cons in *. by rewrite app_cons, IH.
Qed.

End split_facts.

End GoStringsFacts.


(** * Facts about token scopes *)
Module ScopeFacts.
Import GoStrings GoStringsFacts Scope.

Section facts.
Context {O : MapRange}.

(** *** Iteration orders *)

Lemma rangeA_empty : rangeA ∅ = [].
Proof. apply Permutation_nil. by rewrite rangeA_perm, elements_empty. Qed.

Lemma rangeS_empty : rangeS ∅ = [].
Proof. apply Permutation_nil. by rewrite rangeS_perm, map_to_list_empty. Qed.

Lemma rangeA_nil_inv s : rangeA s = [] → s = ∅.
Proof.
  intros E. apply leibniz_equiv, elements_empty_inv.
  apply Permutation_nil. by rewrite <- rangeA_perm, E.
Qed.

Lemma elem_of_rangeA s x : x ∈ rangeA s ↔ x ∈ s.
Proof. by rewrite rangeA_perm, elem_of_elements. Qed.

Lemma list_to_set_rangeA s : list_to_set (rangeA s) = s.
Proof. apply set_eq. intros x. by rewrite elem_of_list_to_set, elem_of_rangeA. Qed.

Lemma elem_of_rangeS m k v : (k, v) ∈ rangeS m ↔ m !! k = Some v.
Proof. by rewrite rangeS_perm, elem_of_map_to_list. Qed.

Lemma NoDup_rangeS_keys m : NoDup (rangeS m).*1.
Proof. rewrite rangeS_perm. apply NoDup_fst_map_to_list. Qed.

(** *** The store loops *)

Lemma storeAction_loop l X ks h :
  amaps h !! l = Some X →
  forM_ ks (λ k, storeAction (Some l) k) h
  = Ret tt (Heap (<[l := list_to_set ks ∪ X]> (amaps h)) (smaps h)).
Proof.
  revert h X. induction ks as [|k ks IH]; intros [am sm] X Hl; simpl in *.
  - unfold ret. f_equal. f_equal. rewrite insert_id; [done|].
    rewrite Hl. f_equal. by rewrite (left_id_L ∅ (∪)).
  - unfold bind, storeAction. simpl. rewrite Hl. simpl.
    erewrite IH; [|by simpl; rewrite lookup_insert_eq]. simpl.
    rewrite insert_insert_eq. do 3 f_equal. by rewrite (assoc_L (∪)), (comm_L (∪) _ {[k]}).
Qed.

Lemma storeAction_loop_nil ks h :
  forM_ ks (λ k, storeAction None k) h
  = match ks with [] => Ret tt h | _ => Panic h end.
Proof. by destruct ks. Qed.

Lemma readScopes_Some h s k v :
  readScopes h s !! k = Some v →
  ∃ l, s = Some l ∧ smaps h !! l = Some (readScopes h s).
Proof.
  destruct s as [l|]; simpl; [|done].
  destruct (smaps h !! l) as [m|] eqn:E; simpl; [|done]. eauto.
Qed.

(** *** What [add] does *)

Lemma add_nil ts h : add None ts h = Panic h.
Proof. unfold add. simpl. by rewrite lookup_empty. Qed.

Lemma add_absent l ts h :
  readScopes h (Some l) !! resource ts = None →
  add (Some l) ts h
  = Ret tt (Heap (amaps h)
              (<[l := <[resource ts := ts]> (readScopes h (Some l))]> (smaps h))).
Proof. unfold add. by intros ->. Qed.

Lemma add_present l ts mt a X h :
  readScopes h (Some l) !! resource ts = Some mt →
  actions mt = Some a →
  amaps h !! a = Some X →
  add (Some l) ts h
  = Ret tt (Heap (<[a := readActions h (actions ts) ∪ X]> (amaps h)) (smaps h)).
Proof.
  intros Hm Ha HX. unfold add. rewrite Hm, Ha. unfold bind.
  rewrite (storeAction_loop a X) by done. rewrite list_to_set_rangeA.
  unfold storeScope. f_equal. f_equal.
  destruct (readScopes_Some _ _ _ _ Hm) as (l' & [= <-] & Hl).
  unfold readScopes in *. simpl in *.
  destruct (smaps h !! l) as [m|] eqn:E; [|done]. simpl in *.
  rewrite (insert_id m) by done. by rewrite insert_id.
Qed.

Lemma add_present_nil l ts mt h :
  readScopes h (Some l) !! resource ts = Some mt →
  actions mt = None →
  add (Some l) ts h
  = if decide (readActions h (actions ts) = ∅) then Ret tt h else Panic h.
Proof.
  intros Hm Ha. unfold add. rewrite Hm, Ha. unfold bind.
  rewrite storeAction_loop_nil.
  destruct (rangeA (readActions h (actions ts))) as [|k ks] eqn:E.
  - rewrite decide_True by by apply rangeA_nil_inv.
    unfold storeScope. f_equal.
    destruct (readScopes_Some _ _ _ _ Hm) as (l' & [= <-] & Hl).
    destruct h as [am sm]. f_equal. simpl in *.
    unfold readScopes in *. simpl in *.
    destruct (sm !! l) as [m|] eqn:Es; [|done]. simpl in *.
    rewrite (insert_id m) by done. by rewrite insert_id.
  - rewrite decide_False; [done|]. intros E'. rewrite E', rangeA_empty in E. done.
Qed.

Lemma storeScope_same l k v h :
  readScopes h (Some l) !! k = Some v →
  storeScope (Some l) k v h = Ret tt h.
Proof.
  intros Hk. destruct (readScopes_Some _ _ _ _ Hk) as (l' & [= <-] & Hl).
  unfold storeScope. destruct h as [am sm]. simpl in *. do 2 f_equal.
  destruct (sm !! l) as [m|] eqn:E; [|done]. simpl in *.
  rewrite (insert_id m) by done. by rewrite insert_id.
Qed.

(** *** What [contains] decides *)

Lemma contains_spec h s o :
  contains h s o = true ↔ o = None ∨ (s ≠ None ∧ covers h s h o).
Proof.
  unfold contains, covers. destruct o as [lo|]; [|naive_solver].
  destruct s as [ls|]; [|naive_solver].
  rewrite forallb_forall. split.
  - intros H. right. split; [done|]. intros k v Hkv.
    specialize (H (k, v)). rewrite <- list_elem_of_In, elem_of_rangeS in H.
    specialize (H Hkv). cbn [fst snd] in H.
    destruct (readScopes h (Some ls) !! k) as [e|]; [|done].
    exists e. split; [done|].
    rewrite forallb_forall in H. intros x Hx. specialize (H x).
    rewrite <- list_elem_of_In, elem_of_rangeA in H.
    by apply bool_decide_eq_true in H; [|done].
  - intros [?|[_ H]]; [done|]. intros [k v] Hin.
    rewrite <- list_elem_of_In, elem_of_rangeS in Hin.
    destruct (H k v Hin) as (e & He & Hsub). cbn [fst snd]. rewrite He.
    rewrite forallb_forall. intros x Hx. apply bool_decide_eq_true. apply Hsub.
    by rewrite <- list_elem_of_In, elem_of_rangeA in Hx.
Qed.

(** C4, amended. [contains] answers true for a nil [other] whatever the
    receiver is, and for an empty [other] when the receiver is not nil; a nil
    receiver answers false for every [other] that is not nil, the empty map
    included. *)
Theorem contains_nil_or_empty h s o :
  (o = None → contains h s o = true)
  ∧ (s ≠ None → readScopes h o = ∅ → contains h s o = true)
  ∧ (s = None → o ≠ None → contains h s o = false).
Proof.
  split_and!.
  - by intros ->.
  - intros Hs Ho. apply contains_spec. right. split; [done|].
    intros k v. by rewrite Ho, lookup_empty.
  - intros -> Ho. by destruct o.
Qed.

(** C5, amended. Adding a token whose action set is empty (a nil or an empty
    map) leaves the whole store as it was when the set already holds the
    token's resource, so resources, action sets and [flatten] are unchanged.
    When the set is allocated and does not hold the resource, the token is
    inserted: the set gains the resource with an empty action set. *)
Theorem add_empty_actions h s ts :
  readActions h (actions ts) = ∅ →
  (is_Some (readScopes h s !! resource ts) → add s ts h = Ret tt h)
  ∧ (∀ l, s = Some l → l ∈ dom (smaps h) →
       readScopes h s !! resource ts = None →
       ∃ h', add s ts h = Ret tt h'
             ∧ readScopes h' s = <[resource ts := ts]> (readScopes h s)
             ∧ amaps h' = amaps h
             ∧ content h' s = <[resource ts := ∅]> (content h s)).
Proof.
  intros Hempty. split.
  - intros [mt Hm]. destruct (readScopes_Some _ _ _ _ Hm) as (l & -> & Hl).
    unfold add. rewrite Hm, Hempty, rangeA_empty. simpl. unfold bind, ret.
    by apply storeScope_same.
  - intros l -> Hl Hnone. rewrite add_absent by done. eexists. split; [done|].
    assert (readScopes (Heap (amaps h)
              (<[l := <[resource ts := ts]> (readScopes h (Some l))]> (smaps h)))
              (Some l) = <[resource ts := ts]> (readScopes h (Some l))) as Hr.
    { simpl. by rewrite lookup_insert_eq. }
    split_and!; [done|done|].
    unfold content. rewrite Hr, fmap_insert. f_equal.
    destruct (actions ts) as [a|]; [|done]. exact Hempty.
Qed.

(** *** Printing and parsing a token *)

Lemma tokenScope_String_eq h ts :
  tokenScope_String h ts
  = resource ts +:+
      String ":" (Join (sortStrings (rangeA (readActions h (actions ts)))) ",").
Proof. reflexivity. Qed.

Lemma sorted_actions_perm s : sortStrings (rangeA s) ≡ₚ elements s.
Proof. by rewrite sortStrings_perm, rangeA_perm. Qed.

Lemma list_to_set_sorted_actions s : list_to_set (sortStrings (rangeA s)) = s.
Proof.
  apply set_eq. intros x.
  by rewrite elem_of_list_to_set, sorted_actions_perm, elem_of_elements.
Qed.

(** C7, amended. For a token whose action set is not empty and whose actions
    contain neither a colon nor a comma, parsing what [String()] prints
    succeeds and gives a token with the same resource and, in a new map
    object, the same action set. *)
Theorem parse_String_roundtrip h ts :
  readActions h (actions ts) ≠ ∅ →
  (∀ a, a ∈ readActions h (actions ts) →
        occurs ":" a = false ∧ occurs "," a = false) →
  ∃ l h',
    parseTokenScope (tokenScope_String h ts) h
      = Ret (inr (TokenScope (resource ts) (Some l))) h'
    ∧ readActions h' (Some l) = readActions h (actions ts)
    ∧ (l ∉ dom (amaps h))
    ∧ amaps h' = <[l := readActions h (actions ts)]> (amaps h)
    ∧ smaps h' = smaps h.
Proof.
  intros Hne Hclean. rewrite tokenScope_String_eq.
  set (acts := sortStrings (rangeA (readActions h (actions ts)))).
  assert (∀ x, x ∈ acts ↔ x ∈ readActions h (actions ts)) as Hin.
  { intros x. unfold acts. by rewrite sorted_actions_perm, elem_of_elements. }
  assert (acts ≠ []) as Hnil.
  { intros E. apply Hne, set_eq. intros x. rewrite <- Hin, E. set_solver. }
  assert (Forall (λ x, occurs ":" x = false) acts) as Hcolon.
  { apply Forall_forall. intros x Hx. by apply Hclean, Hin. }
  assert (Forall (λ x, occurs "," x = false) acts) as Hcomma.
  { apply Forall_forall. intros x Hx. by apply Hclean, Hin. }
  unfold parseTokenScope.
  rewrite LastIndex_last by by apply occurs_Join.
  rewrite decide_False by lia. rewrite Nat2Z.id.
  replace (Z.to_nat (Z.of_nat (String.length (resource ts)) + 1))
    with (S (String.length (resource ts))) by lia.
  rewrite sliceFrom_after, sliceTo_app, Split_Join by done.
  exists (fresh (dom (amaps h))). unfold bind, makeActions.
  erewrite storeAction_loop; [|by simpl; rewrite lookup_insert_eq].
  eexists. split; [done|]. simpl. rewrite lookup_insert_eq, insert_insert_eq. simpl.
  assert (list_to_set acts ∪ ∅ = readActions h (actions ts)) as ->.
  { rewrite (right_id_L ∅ (∪)). apply list_to_set_sorted_actions. }
  split_and!; [done|apply is_fresh|done|done].
Qed.

(** *** [flatten] *)

Lemma tokenScope_String_print h ts :
  tokenScope_String h ts = printScope (resource ts, readActions h (actions ts)).
Proof.
  rewrite tokenScope_String_eq. unfold printScope. simpl. do 3 f_equal.
  apply sortStrings_unique, rangeA_perm.
Qed.

Lemma flatten_eq h s :
  flatten h s
  = sortStrings ((λ kv : string * tokenScope,
                    printScope (resource kv.2, readActions h (actions kv.2)))
                   <$> map_to_list (readScopes h s)).
Proof.
  unfold flatten. apply sortStrings_unique. rewrite rangeS_perm.
  erewrite list_fmap_ext; [done|]. intros ? [k t] _.
  apply tokenScope_String_print.
Qed.

Lemma flatten_sorted h s : Sorted String.le (flatten h s).
Proof. apply sortStrings_sorted. Qed.

Lemma flatten_perm h s :
  flatten h s
  ≡ₚ (λ kv : string * tokenScope, tokenScope_String h kv.2)
       <$> map_to_list (readScopes h s).
Proof. unfold flatten. by rewrite sortStrings_perm, rangeS_perm. Qed.

(** [flatten] reads the map of the set and the action maps of its tokens,
    nothing else. *)
Lemma flatten_ext h h' s s' :
  readScopes h' s' = readScopes h s →
  (∀ k t, readScopes h s !! k = Some t →
          readActions h' (actions t) = readActions h (actions t)) →
  flatten h' s' = flatten h s.
Proof.
  intros Hs Ha. rewrite !flatten_eq, Hs. f_equal.
  apply list_fmap_ext. intros _ [k t] Hin%list_elem_of_lookup_2.
  apply elem_of_map_to_list in Hin. simpl. by rewrite (Ha k t).
Qed.

Lemma flatten_content h s :
  keyedByResource h s →
  flatten h s = sortStrings (printScope <$> map_to_list (content h s)).
Proof.
  intros Hk. rewrite flatten_eq. f_equal. unfold content.
  rewrite map_to_list_fmap, <- list_fmap_compose.
  apply list_fmap_ext. intros _ [k t] Hin%list_elem_of_lookup_2.
  apply elem_of_map_to_list in Hin. simpl. by rewrite (Hk k t Hin).
Qed.

(** *** Building a set by successive [add]s *)

Lemma content_lookup h s r :
  content h s !! r = (λ t, readActions h (actions t)) <$> readScopes h s !! r.
Proof. unfold content. by rewrite lookup_fmap. Qed.

Lemma addAll_cons s t todo h :
  addAll s (t :: todo) h
  = match add s t h with
    | Ret _ h1 => addAll s todo h1
    | Panic h1 => Panic h1
    end.
Proof. reflexivity. Qed.

Lemma building_step_present h0 h l t todo mt :
  NoDup (actions <$> t :: todo) →
  building h0 h l (t :: todo) →
  readScopes h (Some l) !! resource t = Some mt →
  ∃ h1, add (Some l) t h = Ret tt h1
        ∧ building h0 h1 l todo
        ∧ content h1 (Some l)
          = absorb (resource t) (readActions h0 (actions t)) (content h (Some l)).
Proof.
  intros Hnd (m & Hm & Hent & Hinj & Htodo) Hlook.
  assert (readScopes h (Some l) = m) as Hread by (by simpl; rewrite Hm).
  rewrite Hread in Hlook.
  destruct (Htodo t) as (at_ & Hat & _ & Hsame); [by left|].
  destruct (Hent _ _ Hlook) as (Hres & a & Ha & [X HX]%elem_of_dom & Hanot).
  rewrite fmap_cons, not_elem_of_cons in Hanot. destruct Hanot as [Hne Hanot].
  rewrite (add_present l t mt a X) by (by rewrite ?Hread).
  eexists. split; [done|]. split.
  - exists m. split_and!; [done| | done |].
    + intros r t' Hr. destruct (Hent r t' Hr) as (? & a' & ? & Hd & Hn).
      split; [done|]. exists a'. split_and!; [done| |].
      * simpl. rewrite dom_insert. set_solver.
      * rewrite fmap_cons, not_elem_of_cons in Hn. tauto.
    + intros t' Ht'. destruct (Htodo t') as (a' & Ha' & Hd & Hs); [by right|].
      exists a'. split_and!; [done| |].
      * simpl. rewrite dom_insert. set_solver.
      * simpl. rewrite lookup_insert_ne; [done|]. intros ->. apply Hanot.
        rewrite <- Ha'. by apply list_elem_of_fmap_2.
  - apply map_eq. intros r. unfold absorb.
    rewrite lookup_insert, !content_lookup. simpl readScopes at 1.
    rewrite Hread. replace (default ∅ (smaps h !! l)) with m by (by rewrite Hm).
    case_decide as Hr.
    + subst r. rewrite Hlook. simpl. rewrite Ha. simpl.
      rewrite lookup_insert_eq, HX. simpl. do 2 f_equal.
      rewrite Hat. simpl. by rewrite Hsame.
    + destruct (m !! r) as [t'|] eqn:Hr'; [|done]. simpl. f_equal.
      destruct (actions t') as [a'|] eqn:Ha'; [|done]. simpl.
      rewrite lookup_insert_ne; [done|]. intros ->. apply Hr.
      apply (Hinj _ _ _ _ Hlook Hr'). congruence.
Qed.

Lemma building_step_absent h0 h l t todo :
  NoDup (actions <$> t :: todo) →
  building h0 h l (t :: todo) →
  readScopes h (Some l) !! resource t = None →
  ∃ h1, add (Some l) t h = Ret tt h1
        ∧ building h0 h1 l todo
        ∧ content h1 (Some l)
          = absorb (resource t) (readActions h0 (actions t)) (content h (Some l)).
Proof.
  intros Hnd (m & Hm & Hent & Hinj & Htodo) Hlook.
  assert (readScopes h (Some l) = m) as Hread by (by simpl; rewrite Hm).
  destruct (Htodo t) as (at_ & Hat & Hatd & Hsame); [by left|].
  rewrite fmap_cons in Hnd. apply NoDup_cons in Hnd as [Hfresh _].
  rewrite add_absent by done. rewrite Hread. rewrite Hread in Hlook.
  eexists. split; [done|]. split.
  - exists (<[resource t := t]> m). split_and!.
    + simpl. by rewrite lookup_insert_eq.
    + intros r t' [[<- <-]|[Hr Hl]]%lookup_insert_Some.
      * split; [done|]. exists at_. split_and!; [done|done|]. by rewrite <- Hat.
      * destruct (Hent r t' Hl) as (? & a' & ? & Hd & Hn).
        split; [done|]. exists a'. split_and!; [done|done|].
        rewrite fmap_cons, not_elem_of_cons in Hn. tauto.
    + intros r1 r2 t1 t2 [[<- <-]|[Hr1 Hl1]]%lookup_insert_Some
                          [[<- <-]|[Hr2 Hl2]]%lookup_insert_Some E; [done| | |by eauto].
      * destruct (Hent _ _ Hl2) as (_ & a' & Ha' & _ & Hn). exfalso. apply Hn.
        rewrite fmap_cons, <- Ha', <- E. by left.
      * destruct (Hent _ _ Hl1) as (_ & a' & Ha' & _ & Hn). exfalso. apply Hn.
        rewrite fmap_cons, <- Ha', E. by left.
    + intros t' Ht'. apply Htodo. by right.
  - apply map_eq. intros r. unfold absorb.
    rewrite lookup_insert, !content_lookup. simpl readScopes.
    rewrite lookup_insert_eq, Hm. simpl. rewrite lookup_insert.
    case_decide as Hr; [|done].
    subst r. rewrite Hlook. simpl. f_equal.
    rewrite (right_id_L ∅ (∪)), Hat. simpl. by rewrite Hsame.
Qed.

Lemma addAll_building h0 l todo h :
  NoDup (actions <$> todo) →
  building h0 h l todo →
  ∃ h', addAll (Some l) todo h = Ret tt h'
        ∧ building h0 h' l []
        ∧ content h' (Some l) = absorbAll h0 todo (content h (Some l)).
Proof.
  revert h. induction todo as [|t todo IH]; intros h Hnd Hb.
  { by exists h. }
  assert (∃ h1, add (Some l) t h = Ret tt h1
        ∧ building h0 h1 l todo
        ∧ content h1 (Some l)
          = absorb (resource t) (readActions h0 (actions t)) (content h (Some l)))
    as (h1 & Hadd & Hb1 & Hc1).
  { destruct (readScopes h (Some l) !! resource t) as [mt|] eqn:Hlook.
    - by eapply building_step_present.
    - by eapply building_step_absent. }
  rewrite fmap_cons in Hnd. apply NoDup_cons in Hnd as [_ Hnd].
  destruct (IH h1 Hnd Hb1) as (h' & Hrun & Hb' & Hc').
  exists h'. rewrite addAll_cons, Hadd. split_and!; [done|done|].
  rewrite Hc', Hc1. done.
Qed.

Lemma building_keyed h0 h l : building h0 h l [] → keyedByResource h (Some l).
Proof.
  intros (m & Hm & Hent & _) k t. simpl. rewrite Hm. simpl. intros Hk.
  by destruct (Hent _ _ Hk).
Qed.

Lemma absorb_comm r1 a1 r2 a2 V :
  absorb r1 a1 (absorb r2 a2 V) = absorb r2 a2 (absorb r1 a1 V).
Proof.
  unfold absorb. destruct (decide (r1 = r2)) as [->|Hne].
  - rewrite !lookup_insert_eq, !insert_insert_eq. simpl. f_equal.
    rewrite !(assoc_L (∪)). f_equal. apply (comm_L (∪)).
  - rewrite !lookup_insert_ne by done. by apply insert_insert_ne.
Qed.

Lemma absorbAll_perm h0 tokens1 tokens2 V :
  tokens1 ≡ₚ tokens2 → absorbAll h0 tokens1 V = absorbAll h0 tokens2 V.
Proof.
  unfold absorbAll. intros Hp. revert V.
  induction Hp as [|t l1 l2 _ IH|t1 t2 l|l1 l2 l3 _ IH1 _ IH2]; intros V; simpl.
  - done.
  - apply IH.
  - by rewrite absorb_comm.
  - by rewrite IH1.
Qed.

(** *** [merge] *)

Lemma forM_cons {A} (f : A → M unit) x l h :
  forM_ (x :: l) f h
  = match f x h with
    | Ret _ h1 => forM_ l f h1
    | Panic h1 => Panic h1
    end.
Proof. reflexivity. Qed.

Lemma readActions_frame h0 h la v :
  (∀ a, ¬ scopeLocs h0 (Some la) a → amaps h !! a = amaps h0 !! a) →
  (∀ a, actions v = Some a → ¬ scopeLocs h0 (Some la) a) →
  readActions h (actions v) = readActions h0 (actions v).
Proof.
  intros Hframe Hv. destruct (actions v) as [a|]; [|done]. simpl.
  by rewrite Hframe by by apply Hv.
Qed.

Lemma merge_step h0 la mA k v todo h :
  smaps h0 !! la = Some mA →
  allocatedActions h0 (Some la) →
  NoDup ((k, v) :: todo).*1 →
  resource v = k →
  (∀ a, actions v = Some a → ¬ scopeLocs h0 (Some la) a) →
  merging h0 h la mA ((k, v) :: todo) →
  ∃ h1, add (Some la) v h = Ret tt h1
    ∧ merging h0 h1 la mA todo
    ∧ (∃ e, readScopes h1 (Some la) !! k = Some e
            ∧ readActions h0 (actions v) ⊆ readActions h1 (actions e))
    ∧ (∀ k' e, readScopes h (Some la) !! k' = Some e →
               readScopes h1 (Some la) !! k' = Some e)
    ∧ (∀ a, readActions h (Some a) ⊆ readActions h1 (Some a)).
Proof.
  intros HmA Halloc Hnd Hres Hsep (m & Hm & Hother & Hsub & Htodo & Hframe & Hgrow).
  assert (readScopes h (Some la) = m) as Hread by (by simpl; rewrite Hm).
  assert (readScopes h0 (Some la) = mA) as Hread0 by (by simpl; rewrite HmA).
  assert (readActions h (actions v) = readActions h0 (actions v)) as Hv
    by by eapply readActions_frame.
  rewrite fmap_cons in Hnd. apply NoDup_cons in Hnd as [Hk _]. simpl in Hk.
  pose proof (Htodo k v (list_elem_of_here _ _)) as Hlook.
  destruct (mA !! k) as [t|] eqn:HA.
  - destruct (Halloc k t) as (a & Ha & _); [by rewrite Hread0|].
    assert (scopeLocs h0 (Some la) a) as Hloc.
    { exists k, t. by rewrite Hread0. }
    destruct (Hgrow a Hloc) as [Hsup [X HX]%elem_of_dom].
    rewrite (add_present la v t a X) by (by rewrite ?Hread, ?Hres).
    eexists. split; [done|]. split_and!.
    + exists m. split_and!; [done|done|done| | |].
      * intros k' v' Hin. apply (Htodo k' v'). by right.
      * intros a' Ha'. simpl. rewrite lookup_insert_ne; [by apply Hframe|].
        by intros ->.
      * intros a' Ha'. destruct (Hgrow a' Ha') as [Hs Hd]. simpl.
        split; [|rewrite dom_insert; set_solver].
        destruct (decide (a = a')) as [<-|Hne].
        -- rewrite lookup_insert_eq. simpl in *. rewrite HX in Hs. simpl in *.
           set_solver.
        -- by rewrite lookup_insert_ne.
    + exists t. simpl readScopes. rewrite Hm. simpl. split; [done|].
      rewrite Ha. simpl. rewrite lookup_insert_eq. simpl. rewrite Hv. set_solver.
    + done.
    + intros a'. simpl. destruct (decide (a = a')) as [<-|Hne].
      * rewrite lookup_insert_eq, HX. simpl. set_solver.
      * by rewrite lookup_insert_ne.
  - rewrite add_absent by (by rewrite Hread, Hres).
    rewrite Hread, Hres.
    assert (readScopes (Heap (amaps h) (<[la := <[k := v]> m]> (smaps h))) (Some la)
            = <[k := v]> m) as Hread1 by (by simpl; rewrite lookup_insert_eq).
    eexists. split; [done|]. rewrite Hread1. split_and!.
    + exists (<[k := v]> m). split_and!.
      * simpl. by rewrite lookup_insert_eq.
      * intros l Hl. simpl. rewrite lookup_insert_ne by done. by apply Hother.
      * etrans; [exact Hsub|]. by apply insert_subseteq.
      * intros k' v' Hin. rewrite lookup_insert_ne; [apply (Htodo k' v'); by right|].
        intros <-. apply Hk. by apply (list_elem_of_fmap_2 fst) in Hin.
      * done.
      * done.
    + exists v. rewrite lookup_insert_eq. split; [done|].
      change (readActions h0 (actions v) ⊆ readActions h (actions v)).
      by rewrite Hv.
    + intros k' e Hk'. rewrite lookup_insert_ne; [done|]. intros <-. congruence.
    + done.
Qed.

Lemma merge_loop h0 la mA todo h :
  smaps h0 !! la = Some mA →
  allocatedActions h0 (Some la) →
  NoDup todo.*1 →
  (∀ k v, (k, v) ∈ todo →
     resource v = k ∧ ∀ a, actions v = Some a → ¬ scopeLocs h0 (Some la) a) →
  merging h0 h la mA todo →
  ∃ h', forM_ todo (λ kv, add (Some la) kv.2) h = Ret tt h'
    ∧ merging h0 h' la mA []
    ∧ (∀ k v, (k, v) ∈ todo →
         ∃ e, readScopes h' (Some la) !! k = Some e
              ∧ readActions h0 (actions v) ⊆ readActions h' (actions e))
    ∧ (∀ k e, readScopes h (Some la) !! k = Some e →
              readScopes h' (Some la) !! k = Some e)
    ∧ (∀ a, readActions h (Some a) ⊆ readActions h' (Some a)).
Proof.
  intros HmA Halloc. revert h.
  induction todo as [|[k v] todo IH]; intros h Hnd Hprops Hinv.
  { exists h. split_and!; try done. intros k v Hin. by apply not_elem_of_nil in Hin. }
  destruct (Hprops k v (list_elem_of_here _ _)) as [Hres Hsep].
  destruct (merge_step h0 la mA k v todo h HmA Halloc Hnd Hres Hsep Hinv)
    as (h1 & Hadd & Hinv1 & (e & He & Hsub) & Hkeep1 & Hgrow1).
  rewrite fmap_cons in Hnd. apply NoDup_cons in Hnd as [_ Hnd].
  destruct (IH h1 Hnd) as (h' & Hrun & Hinv' & Hdone & Hkeep & Hgrow); [|done|].
  { intros k' v' Hin. apply Hprops. by right. }
  exists h'. rewrite forM_cons. cbn [snd]. rewrite Hadd.
  split_and!; [done|done| | |].
  - intros k' v' [[= -> ->]|Hin]%elem_of_cons; [|by apply Hdone].
    exists e. split; [by apply Hkeep|]. etrans; [exact Hsub|].
    destruct (actions e) as [a|]; [apply Hgrow|done].
  - intros k' e' Hk'. by apply Hkeep, Hkeep1.
  - intros a. etrans; [apply Hgrow1|apply Hgrow].
Qed.

(** C8, amended. Let the set [A] be allocated (not nil), with an allocated
    action map in every token, let [B] store its tokens under their
    resources, and let no action map be shared between a token of [A] and a
    token of [B]. Then [A.merge(B)] returns without a panic, [A] afterwards
    contains [B] (as [contains] decides it), and covers what [A] held and
    what [B] held before the merge. *)
Theorem merge_contains h la B :
  la ∈ dom (smaps h) →
  allocatedActions h (Some la) →
  keyedByResource h B →
  (∀ a, scopeLocs h (Some la) a → ¬ scopeLocs h B a) →
  ∃ h', merge (Some la) B h = Ret tt h'
        ∧ contains h' (Some la) B = true
        ∧ covers h' (Some la) h (Some la)
        ∧ covers h' (Some la) h B.
Proof.
  intros [mA HmA]%elem_of_dom Halloc Hkeyed Hsep.
  assert (readScopes h (Some la) = mA) as Hread by (by simpl; rewrite HmA).
  assert (covers h (Some la) h (Some la)) as Hrefl.
  { intros k v Hk. by exists v. }
  destruct (decide (B = Some la)) as [->|HB].
  { assert (mA = ∅) as ->.
    { apply map_empty. intros k. destruct (mA !! k) as [t|] eqn:Hk; [|done].
      destruct (Halloc k t) as (a & Ha & _); [by rewrite Hread|].
      destruct (Hsep a); exists k, t; by rewrite Hread. }
    exists h. unfold merge. rewrite Hread, rangeS_empty.
    split_and!; [done| |done|done].
    apply contains_spec. right. by split. }
  set (todo := rangeS (readScopes h B)).
  destruct (merge_loop h la mA todo h HmA Halloc) as (h' & Hrun & Hinv & Hdone & _).
  { apply NoDup_rangeS_keys. }
  { intros k v Hin%elem_of_rangeS. split; [by apply (Hkeyed k v)|].
    intros a Ha Hloc. apply (Hsep a Hloc). by exists k, v. }
  { exists mA. split_and!; try done. intros a (k & t & Hk & Ha). split; [done|].
    destruct (Halloc k t Hk) as (a' & ? & ?). by simplify_eq. }
  destruct Hinv as (m & Hm & Hother & Hsub & _ & Hframe & Hgrow).
  assert (covers h' (Some la) h B) as HcovB.
  { intros k v Hk. apply (Hdone k v). by apply elem_of_rangeS. }
  exists h'. split_and!; [done| | |done].
  - apply contains_spec. right. split; [done|].
    assert (readScopes h' B = readScopes h B) as HB'.
    { destruct B as [lb|]; [|done]. simpl. rewrite Hother; [done|congruence]. }
    intros k v. rewrite HB'. intros Hk.
    destruct (HcovB k v Hk) as (e & He & Hsub'). exists e. split; [done|].
    erewrite readActions_frame; [done|done|].
    intros a Ha Hloc. apply (Hsep a Hloc). by exists k, v.
  - intros k v. rewrite Hread. intros Hk. exists v. split.
    + simpl. rewrite Hm. simpl. by eapply lookup_weaken.
    + destruct (actions v) as [a|] eqn:Ha; [|done].
      apply Hgrow. exists k, v. by rewrite Hread.
Qed.

(** *** [clone] *)

Lemma readActions_subseteq h h' a :
  amaps h ⊆ amaps h' → a ∈ dom (amaps h) →
  readActions h' (Some a) = readActions h (Some a).
Proof.
  intros Hsub [X HX]%elem_of_dom. simpl.
  by rewrite (lookup_weaken _ _ _ _ HX Hsub), HX.
Qed.

Lemma tokenScope_clone_nil ts h :
  actions ts = None →
  tokenScope_clone ts h = Ret (TokenScope (resource ts) None) h.
Proof. unfold tokenScope_clone. by intros ->. Qed.

Lemma tokenScope_clone_Some ts a h :
  actions ts = Some a →
  tokenScope_clone ts h
  = Ret (TokenScope (resource ts) (Some (fresh (dom (amaps h)))))
        (Heap (<[fresh (dom (amaps h)) := readActions h (Some a)]> (amaps h))
              (smaps h)).
Proof.
  intros Ha. unfold tokenScope_clone. rewrite Ha. unfold bind, makeActions.
  erewrite storeAction_loop; [|by simpl; rewrite lookup_insert_eq].
  unfold ret. simpl. rewrite insert_insert_eq, list_to_set_rangeA.
  by rewrite (right_id_L ∅ (∪)).
Qed.

Lemma clone_loop h0 l' todo h mc :
  NoDup todo.*1 →
  (∀ k v, (k, v) ∈ todo → validToken h0 v) →
  smaps h !! l' = Some mc →
  amaps h0 ⊆ amaps h →
  ownActions h mc →
  ∃ h' mc',
    forM_ todo (λ kv, let* v := tokenScope_clone kv.2 in
                      storeScope (Some l') kv.1 v) h = Ret tt h'
    ∧ smaps h' = <[l' := mc']> (smaps h)
    ∧ amaps h ⊆ amaps h'
    ∧ (∀ k, k ∉ todo.*1 → mc' !! k = mc !! k)
    ∧ (∀ k v, (k, v) ∈ todo → ∃ v', mc' !! k = Some v' ∧ isCloneOf h0 h' v v')
    ∧ ownActions h' mc'.
Proof.
  revert h mc. induction todo as [|[k v] todo IH]; intros h mc Hnd Hvalid Hmc Hsub Hown.
  { exists h, mc. split_and!; try done.
    - by rewrite insert_id.
    - intros k v Hin. by apply not_elem_of_nil in Hin. }
  rewrite fmap_cons in Hnd. apply NoDup_cons in Hnd as [Hk Hnd]. simpl in Hk.
  assert (∃ v' h1,
    (let* v := tokenScope_clone v in storeScope (Some l') k v) h = Ret tt h1
    ∧ smaps h1 = <[l' := <[k := v']> mc]> (smaps h)
    ∧ amaps h ⊆ amaps h1
    ∧ isCloneOf h0 h1 v v'
    ∧ ownActions h1 (<[k := v']> mc)) as (v' & h1 & Hstep & Hs1 & Hsub1 & Hcl & Hown1).
  { destruct Hown as [Hdom Hinj].
    destruct (actions v) as [a|] eqn:Ha.
    - set (b := fresh (dom (amaps h))).
      assert (b ∉ dom (amaps h)) as Hb by apply is_fresh.
      exists (TokenScope (resource v) (Some b)). eexists.
      unfold bind. rewrite (tokenScope_clone_Some v a) by done.
      unfold storeScope. simpl. rewrite Hmc. simpl. split; [done|]. simpl.
      assert (a ∈ dom (amaps h0)) as Ha0.
      { apply (Hvalid k v); [by left|done]. }
      split_and!; [done| | |].
      + apply insert_subseteq. by apply not_elem_of_dom.
      + unfold isCloneOf. rewrite Ha. split_and!; [done| |done|].
        * simpl. rewrite lookup_insert_eq. simpl.
          by apply (readActions_subseteq h0 h a).
        * intros b' [= <-]. split; [|simpl; rewrite dom_insert; set_solver].
          intros Hin. apply Hb. apply elem_of_dom.
          apply elem_of_dom in Hin as [X HX]. exists X.
          by eapply lookup_weaken.
      + split.
        * intros k' v'' b' [[<- <-]|[Hne Hl]]%lookup_insert_Some Hb'; simpl in *.
          -- injection Hb' as <-. rewrite dom_insert. set_solver.
          -- rewrite dom_insert. apply elem_of_union_r. by eapply Hdom.
        * intros k1 k2 v1 v2 b' [[<- <-]|[Hne1 Hl1]]%lookup_insert_Some
                                 [[<- <-]|[Hne2 Hl2]]%lookup_insert_Some
                                 Hb1 Hb2; simpl in *; [done| | |by eauto].
          -- injection Hb1 as <-. destruct Hb. by eapply Hdom.
          -- injection Hb2 as <-. destruct Hb. by eapply Hdom.
    - exists (TokenScope (resource v) None). eexists.
      unfold bind. rewrite tokenScope_clone_nil by done.
      unfold storeScope. simpl. rewrite Hmc. simpl. split; [done|]. simpl.
      split_and!; [done|done| |].
      + unfold isCloneOf. rewrite Ha. by split_and!.
      + split.
        * intros k' v'' b' [[<- <-]|[Hne Hl]]%lookup_insert_Some Hb'; [done|].
          by eapply Hdom.
        * intros k1 k2 v1 v2 b' [[<- <-]|[Hne1 Hl1]]%lookup_insert_Some
                                 [[<- <-]|[Hne2 Hl2]]%lookup_insert_Some
                                 Hb1 Hb2; try done. by eauto. }
  destruct (IH h1 (<[k := v']> mc)) as (h' & mc' & Hrun & Hs' & Hsub' & Hrest & Hdone & Hown');
    [done| |by rewrite Hs1, lookup_insert_eq|by etrans|done|].
  { intros k' v'' Hin. apply (Hvalid k' v''). by right. }
  exists h', mc'. rewrite forM_cons. cbn [fst snd]. rewrite Hstep.
  split_and!; [done| | | | |done].
  - by rewrite Hs', Hs1, insert_insert_eq.
  - by etrans.
  - intros k' Hk'. rewrite fmap_cons, not_elem_of_cons in Hk'. destruct Hk' as [Hne Hk'].
    rewrite (Hrest k' Hk'). simpl in Hne. by rewrite lookup_insert_ne.
  - intros k' v'' [[= -> ->]|Hin]%elem_of_cons; [|by apply Hdone].
    exists v'. rewrite (Hrest k Hk), lookup_insert_eq. split; [done|].
    destruct Hcl as (Hr & Hread & Hnil & Hnew). split_and!; [done| |done|].
    + destruct (actions v') as [b|] eqn:Hb'; [|done].
      destruct (Hnew b eq_refl) as [_ Hb1].
      by rewrite (readActions_subseteq h1 h' b).
    + intros b Hb'. destruct (Hnew b Hb') as [Hb0 Hb1]. split; [done|].
      apply elem_of_dom in Hb1 as [X HX]. apply elem_of_dom. exists X.
      by eapply lookup_weaken.
Qed.

Lemma clone_nil h : clone None h = Ret None h.
Proof. reflexivity. Qed.

Lemma clone_unfold l h :
  clone (Some l) h
  = match forM_ (rangeS (readScopes h (Some l)))
            (λ kv, let* v := tokenScope_clone kv.2 in
                   storeScope (Some (fresh (dom (smaps h)))) kv.1 v)
            (Heap (amaps h) (<[fresh (dom (smaps h)) := ∅]> (smaps h))) with
    | Ret _ h' => Ret (Some (fresh (dom (smaps h)))) h'
    | Panic h' => Panic h'
    end.
Proof. reflexivity. Qed.

Lemma clone_Some l h :
  validScopes h (Some l) →
  ∃ l' h' mc,
    clone (Some l) h = Ret (Some l') h'
    ∧ (l' ∉ dom (smaps h))
    ∧ smaps h' = <[l' := mc]> (smaps h)
    ∧ amaps h ⊆ amaps h'
    ∧ (∀ k, readScopes h (Some l) !! k = None → mc !! k = None)
    ∧ (∀ k v, readScopes h (Some l) !! k = Some v →
              ∃ v', mc !! k = Some v' ∧ isCloneOf h h' v v')
    ∧ ownActions h' mc.
Proof.
  intros [_ Hvalid]. set (l' := fresh (dom (smaps h))).
  assert (l' ∉ dom (smaps h)) as Hl' by apply is_fresh.
  destruct (clone_loop h l' (rangeS (readScopes h (Some l)))
              (Heap (amaps h) (<[l' := ∅]> (smaps h))) ∅)
    as (h' & mc & Hrun & Hs & Hsub & Hrest & Hdone & Hown).
  - apply NoDup_rangeS_keys.
  - intros k v Hin%elem_of_rangeS. by apply (Hvalid k v).
  - simpl. by rewrite lookup_insert_eq.
  - done.
  - by split.
  - exists l', h', mc. rewrite clone_unfold. fold l'. rewrite Hrun.
    split_and!; [done|done| |done| | |done].
    + rewrite Hs. simpl. by rewrite insert_insert_eq.
    + intros k Hk. rewrite Hrest; [done|].
      intros [[k' v] [-> Hin%elem_of_rangeS]]%list_elem_of_fmap. simpl in *.
      congruence.
    + intros k v Hk. apply Hdone. by apply elem_of_rangeS.
Qed.

Lemma clone_content l l' h h' mc :
  smaps h' !! l' = Some mc →
  (∀ k, readScopes h (Some l) !! k = None → mc !! k = None) →
  (∀ k v, readScopes h (Some l) !! k = Some v →
          ∃ v', mc !! k = Some v' ∧ isCloneOf h h' v v') →
  content h' (Some l') = content h (Some l).
Proof.
  intros Hmc Hnone Hsome. apply map_eq. intros k. rewrite !content_lookup.
  assert (readScopes h' (Some l') = mc) as -> by (by simpl; rewrite Hmc).
  destruct (readScopes h (Some l) !! k) as [v|] eqn:Hk.
  - destruct (Hsome k v Hk) as (v' & -> & _ & Hread & _). simpl. by rewrite Hread.
  - by rewrite (Hnone k Hk).
Qed.

(** *** What [add] leaves alone *)

Lemma storeAction_loop_frame a ks h :
  ∃ h', forM_ ks (λ k, storeAction (Some a) k) h = Ret tt h'
        ∧ smaps h' = smaps h
        ∧ ∀ a', a' ≠ a → amaps h' !! a' = amaps h !! a'.
Proof.
  revert h. induction ks as [|k ks IH]; intros h.
  { by exists h. }
  rewrite forM_cons. unfold storeAction at 1.
  destruct (IH (Heap (<[a := {[k]} ∪ readActions h (Some a)]> (amaps h)) (smaps h)))
    as (h' & -> & Hs & Ha).
  exists h'. split_and!; [done|done|].
  intros a' Hne. rewrite Ha by done. simpl. by rewrite lookup_insert_ne.
Qed.

Lemma add_frame l' t h :
  let h' := finalHeap (add (Some l') t h) in
  (∀ l, l ≠ l' → smaps h' !! l = smaps h !! l)
  ∧ (∀ a, (∀ mt, readScopes h (Some l') !! resource t = Some mt → actions mt ≠ Some a) →
          amaps h' !! a = amaps h !! a)
  ∧ (∀ k v, readScopes h' (Some l') !! k = Some v →
            readScopes h (Some l') !! k = Some v ∨ v = t).
Proof.
  destruct (readScopes h (Some l') !! resource t) as [mt|] eqn:Hlook.
  - destruct (actions mt) as [a0|] eqn:Ha0.
    + unfold add. rewrite Hlook, Ha0. unfold bind.
      destruct (storeAction_loop_frame a0 (rangeA (readActions h (actions t))) h)
        as (h1 & -> & Hs & Ha).
      assert (readScopes h1 (Some l') = readScopes h (Some l')) as Hr
        by (by simpl; rewrite Hs).
      rewrite storeScope_same by (by rewrite Hr). simpl.
      split_and!.
      * intros l _. by rewrite Hs.
      * intros a Hne. apply Ha. intros ->. by apply (Hne mt).
      * intros k v. rewrite Hs. by left.
    + rewrite (add_present_nil l' t mt) by done.
      case_decide; simpl; split_and!; try done; by left.
  - rewrite add_absent by done. simpl. split_and!.
    + intros l Hne. by rewrite lookup_insert_ne.
    + done.
    + intros k v. rewrite lookup_insert_eq. simpl.
      intros [[_ <-]|[_ Hk]]%lookup_insert_Some; [by right|by left].
Qed.

Lemma add_apart h0 S h l' t :
  apart h0 S h l' →
  (∀ a, actions t = Some a → ¬ scopeLocs h0 S a) →
  apart h0 S (finalHeap (add (Some l') t h)) l'.
Proof.
  intros (Hne & Hread & Hkeep & Hout) Ht.
  destruct (add_frame l' t h) as (Hs & Ha & Hin).
  split_and!.
  - done.
  - rewrite <- Hread. destruct S as [l|]; [|done]. simpl.
    rewrite Hs; [done|congruence].
  - intros a Hloc. rewrite Ha; [by apply Hkeep|].
    intros mt Hmt Hmta. by apply (Hout _ _ _ Hmt Hmta).
  - intros k v a [Hk| ->]%Hin Hva; [by eapply Hout|by apply Ht].
Qed.

Lemma addAll_apart h0 S l' tokens h :
  apart h0 S h l' →
  Forall (λ t, ∀ a, actions t = Some a → ¬ scopeLocs h0 S a) tokens →
  apart h0 S (finalHeap (addAll (Some l') tokens h)) l'.
Proof.
  revert h. induction tokens as [|t tokens IH]; intros h Hap Hall; [done|].
  apply Forall_cons in Hall as [Ht Hall].
  pose proof (add_apart h0 S h l' t Hap Ht) as Hap1.
  rewrite addAll_cons. destruct (add (Some l') t h) as [[] h1|h1]; simpl in *.
  - by apply IH.
  - done.
Qed.

Lemma apart_flatten h0 S h l' : apart h0 S h l' → flatten h S = flatten h0 S.
Proof.
  intros (_ & Hread & Hkeep & _). apply flatten_ext; [done|].
  intros k t Hk. destruct (actions t) as [a|] eqn:Ha; [|done]. simpl.
  rewrite Hkeep; [done|]. by exists k, t.
Qed.

Lemma clone_apart l h l' h' mc :
  validScopes h (Some l) →
  l' ∉ dom (smaps h) →
  smaps h' = <[l' := mc]> (smaps h) →
  amaps h ⊆ amaps h' →
  (∀ k v b, mc !! k = Some v → actions v = Some b → b ∉ dom (amaps h)) →
  apart h (Some l) h' l'.
Proof.
  intros [Hl Hvalid] Hl' Hs Hsub Hnew.
  assert (l ≠ l') as Hne.
  { intros ->. by apply Hl', Hl. }
  assert (∀ a, scopeLocs h (Some l) a → a ∈ dom (amaps h)) as Hdom.
  { intros a (k & t & Hk & Ha). by apply (Hvalid k t Hk). }
  split_and!.
  - congruence.
  - simpl. by rewrite Hs, lookup_insert_ne.
  - intros a [X HX]%Hdom%elem_of_dom.
    by rewrite (lookup_weaken _ _ _ _ HX Hsub).
  - intros k t a. simpl. rewrite Hs, lookup_insert_eq. simpl.
    intros Hk Ha Hloc. by apply (Hnew k t a Hk Ha), Hdom.
Qed.

Lemma add_content_own l' h mc ts :
  smaps h !! l' = Some mc →
  ownActions h mc →
  (∀ k v, mc !! k = Some v → actions v ≠ None) →
  ∃ h', add (Some l') ts h = Ret tt h'
        ∧ content h' (Some l')
          = absorb (resource ts) (readActions h (actions ts)) (content h (Some l')).
Proof.
  intros Hmc [Hdom Hinj] Hnonnil.
  assert (readScopes h (Some l') = mc) as Hread by (by simpl; rewrite Hmc).
  destruct (mc !! resource ts) as [mt|] eqn:Hlook.
  - destruct (actions mt) as [b|] eqn:Hb; [|by destruct (Hnonnil _ _ Hlook)].
    pose proof (Hdom _ _ _ Hlook Hb) as [X HX]%elem_of_dom.
    rewrite (add_present l' ts mt b X) by (by rewrite ?Hread).
    eexists. split; [done|].
    apply map_eq. intros r. unfold absorb.
    rewrite lookup_insert, !content_lookup. simpl readScopes at 1.
    rewrite Hread, Hmc. simpl. case_decide as Hr.
    + subst r. rewrite Hlook. simpl. rewrite Hb. simpl.
      by rewrite lookup_insert_eq, HX.
    + destruct (mc !! r) as [v|] eqn:Hv; [|done]. simpl. f_equal.
      destruct (actions v) as [b'|] eqn:Hb'; [|done]. simpl.
      rewrite lookup_insert_ne; [done|]. intros ->. apply Hr.
      by apply (Hinj _ _ _ _ _ Hlook Hv Hb Hb').
  - rewrite add_absent by (by rewrite Hread). rewrite Hread.
    eexists. split; [done|].
    apply map_eq. intros r. unfold absorb.
    rewrite lookup_insert, !content_lookup. simpl readScopes.
    rewrite lookup_insert_eq, Hmc. simpl. rewrite lookup_insert.
    case_decide as Hr; [|done].
    subst r. rewrite Hlook. simpl. by rewrite (right_id_L ∅ (∪)).
Qed.

End facts.

Section repository.
Context {O : MapRange}.
Variable url_Parse : string → error + URL.

Lemma repositoryScope_run refspec push h u :
  url_Parse ("dummy://" +:+ Locator refspec) = inr u →
  repositoryScope url_Parse refspec push h
  = Ret (inr (TokenScope ("repository:" +:+ TrimPrefix (Path u) "/")
                (Some (fresh (dom (amaps h))))))
        (Heap (<[fresh (dom (amaps h)) := repositoryActions push]> (amaps h))
              (smaps h)).
Proof.
  intros Hparse. unfold repositoryScope. rewrite Hparse.
  unfold bind, makeActions, storeAction, ret, repositoryActions.
  destruct push; simpl; repeat (rewrite lookup_insert_eq; simpl);
    rewrite !insert_insert_eq; do 3 f_equal;
    rewrite ?(right_id_L ∅ (∪)); try done; apply (comm_L (∪)).
Qed.

Lemma repositoryScope_fail refspec push h err :
  url_Parse ("dummy://" +:+ Locator refspec) = inl err →
  repositoryScope url_Parse refspec push h = Ret (inl err) h.
Proof. intros Hparse. unfold repositoryScope. by rewrite Hparse. Qed.

(** C10. For a locator [host/path] that [url.Parse] splits into the host and
    the path ["/" + path], [repositoryScope] returns a token with resource
    ["repository:" + path] whose action map is a new object holding [pull],
    and [push] as well when the flag is set; nothing else in the store
    changes. *)
Theorem repositoryScope_token refspec host path push h u :
  Locator refspec = host +:+ "/" +:+ path →
  url_Parse ("dummy://" +:+ host +:+ "/" +:+ path) = inr u →
  Path u = "/" +:+ path →
  ∃ l h',
    repositoryScope url_Parse refspec push h
      = Ret (inr (TokenScope ("repository:" +:+ path) (Some l))) h'
    ∧ (l ∉ dom (amaps h))
    ∧ readActions h' (Some l) = (if push then {["pull"; "push"]} else {["pull"]})
    ∧ amaps h' = <[l := readActions h' (Some l)]> (amaps h)
    ∧ smaps h' = smaps h.
Proof.
  intros HL Hparse Hpath. rewrite <- HL in Hparse.
  rewrite (repositoryScope_run _ _ _ _ Hparse), Hpath.
  eexists _, _. split; [done|]. simpl. rewrite lookup_insert_eq. simpl.
  split_and!; [apply is_fresh|done|done|done].
Qed.

Lemma contextWithRepositoryScope_unfold ctx refspec push h :
  contextWithRepositoryScope url_Parse ctx refspec push h
  = match repositoryScope url_Parse refspec push h with
    | Ret (inl err) h1 => Ret (inl err) h1
    | Ret (inr s) h1 =>
        match clone (getContextScopes ctx) h1 with
        | Ret (Some l) h2 =>
            match add (Some l) s h2 with
            | Ret _ h3 =>
                Ret (inr (WithValue ctx tokenScopesKey (VtokenScopes (Some l)))) h3
            | Panic h3 => Panic h3
            end
        | Ret None h2 =>
            let l := fresh (dom (smaps h2)) in
            match add (Some l) s (Heap (amaps h2) (<[l := ∅]> (smaps h2))) with
            | Ret _ h3 =>
                Ret (inr (WithValue ctx tokenScopesKey (VtokenScopes (Some l)))) h3
            | Panic h3 => Panic h3
            end
        | Panic h2 => Panic h2
        end
    | Panic h1 => Panic h1
    end.
Proof.
  unfold contextWithRepositoryScope, bind.
  destruct (repositoryScope url_Parse refspec push h) as [[err|s] h1|h1]; try done.
  destruct (clone (getContextScopes ctx) h1) as [[l|] h2|h2]; try done.
Qed.

Lemma addAll_nil tokens h : finalHeap (addAll None tokens h) = h.
Proof. destruct tokens as [|t tokens]; [done|]. by rewrite addAll_cons, add_nil. Qed.

Lemma flatten_nil h h' : flatten h None = flatten h' None.
Proof. by apply flatten_ext. Qed.

Lemma clone_fresh_actions l h h' (mc : gmap string tokenScope) k v b :
  (∀ k, readScopes h (Some l) !! k = None → mc !! k = None) →
  (∀ k v, readScopes h (Some l) !! k = Some v →
          ∃ v', mc !! k = Some v' ∧ isCloneOf h h' v v') →
  mc !! k = Some v → actions v = Some b →
  (b ∉ dom (amaps h))
  ∧ ∃ v0, readScopes h (Some l) !! k = Some v0 ∧ isCloneOf h h' v0 v.
Proof.
  intros Hnone Hsome Hk Hb.
  destruct (readScopes h (Some l) !! k) as [v0|] eqn:Hk0.
  - destruct (Hsome k v0 Hk0) as (v' & Hv' & Hcl). simplify_eq.
    split; [|by exists v0]. destruct Hcl as (_ & _ & _ & Hnew). by apply Hnew.
  - rewrite (Hnone k Hk0) in Hk. done.
Qed.

(** Allocating one more action map changes nothing for a valid set. *)
Lemma alloc_actions_frame h b acts S :
  validScopes h S →
  b ∉ dom (amaps h) →
  let h1 := Heap (<[b := acts]> (amaps h)) (smaps h) in
  validScopes h1 S
  ∧ readScopes h1 S = readScopes h S
  ∧ flatten h1 S = flatten h S
  ∧ content h1 S = content h S
  ∧ (¬ scopeLocs h1 S b)
  ∧ (allocatedActions h S → allocatedActions h1 S).
Proof.
  intros [Hl Hvalid] Hb h1.
  assert (readScopes h1 S = readScopes h S) as Hread by by destruct S.
  assert (amaps h ⊆ amaps h1) as Hsub.
  { apply insert_subseteq. by apply not_elem_of_dom. }
  assert (∀ k t, readScopes h S !! k = Some t →
            readActions h1 (actions t) = readActions h (actions t)) as Hacts.
  { intros k t Hk. destruct (actions t) as [a|] eqn:Ha; [|done].
    apply readActions_subseteq; [done|]. by apply (Hvalid k t Hk). }
  split_and!.
  - split; [done|]. rewrite Hread. intros k t Hk a Ha.
    simpl. rewrite dom_insert. apply elem_of_union_r. by apply (Hvalid k t Hk).
  - done.
  - by apply flatten_ext.
  - unfold content. rewrite Hread. apply map_fmap_ext. intros k t Hk.
    by apply (Hacts k t).
  - intros (k & t & Hk & Ha). rewrite Hread in Hk. by apply Hb, (Hvalid k t Hk).
  - intros Halloc. unfold allocatedActions. rewrite Hread. intros k t Hk.
    destruct (Halloc k t Hk) as (a & Ha & Hd). exists a. split; [done|].
    simpl. rewrite dom_insert. by apply elem_of_union_r.
Qed.

(** C9, amended. [clone] returns nil for nil and otherwise a new set object
    with the same content. After any sequence of [add] calls on the clone
    with tokens that do not share an action map with a token of the original,
    whether the sequence returns or panics, [flatten] of the original is what
    it was. [contextWithRepositoryScope] leaves [flatten] of the scope set of
    the parent context as it was in every outcome; when the locator does not
    parse it returns the error; when it parses and the tokens of the parent
    set carry allocated action maps, it returns a child context of [ctx]
    carrying a new set whose content is that of the parent set with the
    repository scope added. *)
Theorem clone_independent :
  (∀ h S tokens,
     validScopes h S →
     Forall (λ t, ∀ a, actions t = Some a → ¬ scopeLocs h S a) tokens →
     ∃ S' h1,
       clone S h = Ret S' h1
       ∧ (S = None ↔ S' = None)
       ∧ (∀ l', S' = Some l' → l' ∉ dom (smaps h))
       ∧ content h1 S' = content h S
       ∧ flatten h1 S = flatten h S
       ∧ flatten (finalHeap (addAll S' tokens h1)) S = flatten h S)
  ∧ (∀ ctx refspec push h,
     validScopes h (getContextScopes ctx) →
     let parent := getContextScopes ctx in
     let o := contextWithRepositoryScope url_Parse ctx refspec push h in
     flatten (finalHeap o) parent = flatten h parent
     ∧ (∀ err, url_Parse ("dummy://" +:+ Locator refspec) = inl err →
               o = Ret (inl err) h)
     ∧ (∀ u, url_Parse ("dummy://" +:+ Locator refspec) = inr u →
          allocatedActions h parent →
          ∃ l' h',
            o = Ret (inr (WithValue ctx tokenScopesKey (VtokenScopes (Some l')))) h'
            ∧ (l' ∉ dom (smaps h))
            ∧ getContextScopes (WithValue ctx tokenScopesKey (VtokenScopes (Some l')))
              = Some l'
            ∧ content h' (Some l')
              = absorb ("repository:" +:+ TrimPrefix (Path u) "/")
                  (repositoryActions push) (content h parent))).
Proof.
  split.
  - intros h [l|] tokens Hvalid Hall.
    + destruct (clone_Some l h Hvalid)
        as (l' & h1 & mc & Hrun & Hl' & Hs & Hsub & Hnone & Hsome & Hown).
      assert (apart h (Some l) h1 l') as Hap.
      { apply (clone_apart l h l' h1 mc); try done. intros k v b Hk Hb.
        by destruct (clone_fresh_actions l h h1 mc k v b Hnone Hsome Hk Hb). }
      exists (Some l'), h1. split_and!; [done|done| | | |].
      * by intros ? [= <-].
      * apply (clone_content l l' h h1 mc); [|done|done].
        by rewrite Hs, lookup_insert_eq.
      * by apply (apart_flatten h (Some l) h1 l').
      * apply (apart_flatten h (Some l) _ l'). by apply addAll_apart.
    + exists None, h. rewrite clone_nil, addAll_nil. by split_and!.
  - intros ctx refspec push h Hvalid parent o.
    unfold o. rewrite contextWithRepositoryScope_unfold.
    destruct (url_Parse ("dummy://" +:+ Locator refspec)) as [err|u] eqn:Hparse.
    { rewrite (repositoryScope_fail _ _ _ _ Hparse).
      split_and!; [done|by intros ? [= <-]|done]. }
    rewrite (repositoryScope_run _ _ _ _ Hparse).
    set (b0 := fresh (dom (amaps h))).
    set (ts := TokenScope ("repository:" +:+ TrimPrefix (Path u) "/") (Some b0)).
    assert (b0 ∉ dom (amaps h)) as Hb0 by apply is_fresh.
    destruct (alloc_actions_frame h b0 (repositoryActions push) parent Hvalid Hb0)
      as (Hvalid1 & Hread1 & Hflat1 & Hcont1 & Hnotin & Halloc1).
    set (h1 := Heap (<[b0 := repositoryActions push]> (amaps h)) (smaps h)) in *.
    assert (readActions h1 (actions ts) = repositoryActions push) as Hts.
    { simpl. by rewrite lookup_insert_eq. }
    fold parent. destruct parent as [l|] eqn:Hparent.
    + destruct (clone_Some l h1 Hvalid1)
        as (l' & h2 & mc & Hrun & Hl' & Hs & Hsub & Hnone & Hsome & Hown).
      rewrite Hrun.
      assert (smaps h2 !! l' = Some mc) as Hmc by (by rewrite Hs, lookup_insert_eq).
      assert (apart h1 (Some l) h2 l') as Hap.
      { apply (clone_apart l h1 l' h2 mc); try done. intros k v b Hk Hb.
        by destruct (clone_fresh_actions l h1 h2 mc k v b Hnone Hsome Hk Hb). }
      assert (apart h1 (Some l) (finalHeap (add (Some l') ts h2)) l') as Hap'.
      { apply add_apart; [done|]. by intros a [= <-]. }
      apply apart_flatten in Hap'.
      split_and!.
      * rewrite <- Hflat1, <- Hap'. by destruct (add (Some l') ts h2).
      * done.
      * intros u' [= <-] Halloc.
        destruct (add_content_own l' h2 mc ts Hmc Hown) as (h3 & Hadd & Hcont).
        { intros k v Hk Hnil.
          destruct (readScopes h1 (Some l) !! k) as [v0|] eqn:Hk0;
            [|by rewrite (Hnone k Hk0) in Hk].
          destruct (Hsome k v0 Hk0) as (v' & Hv' & _ & _ & Hiff & _).
          simplify_eq. apply Hiff in Hnil.
          destruct (Halloc1 Halloc k v0 Hk0) as (a & Ha & _). congruence. }
        exists l', h3. rewrite Hadd. split_and!; [done|done| |].
        -- done.
        -- rewrite Hcont, <- Hcont1.
           rewrite (clone_content l l' h1 h2 mc Hmc Hnone Hsome).
           f_equal. simpl actions.
           rewrite (readActions_subseteq h1 h2 b0 Hsub); [done|].
           simpl. rewrite dom_insert. set_solver.
    + rewrite clone_nil. cbv zeta.
      set (l' := fresh (dom (smaps h1))).
      set (h2 := Heap (amaps h1) (<[l' := ∅]> (smaps h1))).
      assert (smaps h2 !! l' = Some ∅) as Hmc by (by simpl; rewrite lookup_insert_eq).
      destruct (add_content_own l' h2 ∅ ts Hmc) as (h3 & Hadd & Hcont); [done|done|].
      rewrite Hadd. split_and!.
      * apply flatten_nil.
      * done.
      * intros u' [= <-] _. exists l', h3. split_and!; [done|apply is_fresh| |].
        -- done.
        -- rewrite Hcont. f_equal; [done|].
           unfold content. simpl. rewrite lookup_insert_eq. simpl.
           by rewrite !fmap_empty.
Qed.

End repository.

(** ** The order in which maps are visited does not matter for [add] and
    [contains] *)

Lemma storeAction_loop_set l ks h :
  forM_ ks (λ k, storeAction (Some l) k) h
  = match ks with
    | [] => Ret tt h
    | _ => Ret tt (Heap (<[l := list_to_set ks ∪ readActions h (Some l)]> (amaps h))
                        (smaps h))
    end.
Proof.
  destruct ks as [|k ks]; [done|].
  rewrite forM_cons. unfold storeAction at 1.
  erewrite storeAction_loop; [|by simpl; rewrite lookup_insert_eq].
  simpl. rewrite insert_insert_eq. do 3 f_equal.
  by rewrite (assoc_L (∪)), (comm_L (∪) _ {[k]}).
Qed.

Lemma add_order (O1 O2 : MapRange) s t h :
  add (O:=O1) s t h = add (O:=O2) s t h.
Proof.
  unfold add. destruct (readScopes h s !! resource t) as [mt|]; [|done].
  unfold bind. set (acts := readActions h (actions t)).
  assert (@rangeA O1 acts = [] ↔ @rangeA O2 acts = []) as Hnil.
  { split; intros ->%rangeA_nil_inv; apply rangeA_empty. }
  destruct (actions mt) as [a|].
  - rewrite !storeAction_loop_set, !list_to_set_rangeA.
    destruct (@rangeA O1 acts) as [|k1 ks1] eqn:E1,
             (@rangeA O2 acts) as [|k2 ks2] eqn:E2; try done.
    + by destruct Hnil as [Hnil _]; specialize (Hnil eq_refl).
    + by destruct Hnil as [_ Hnil]; specialize (Hnil eq_refl).
  - rewrite !storeAction_loop_nil.
    destruct (@rangeA O1 acts) as [|k1 ks1] eqn:E1,
             (@rangeA O2 acts) as [|k2 ks2] eqn:E2; try done.
    + by destruct Hnil as [Hnil _]; specialize (Hnil eq_refl).
    + by destruct Hnil as [_ Hnil]; specialize (Hnil eq_refl).
Qed.

Lemma contains_order (O1 O2 : MapRange) h s o :
  contains (O:=O1) h s o = contains (O:=O2) h s o.
Proof.
  destruct (contains (O:=O1) h s o) eqn:E1, (contains (O:=O2) h s o) eqn:E2;
    try done.
  - apply (proj1 (contains_spec (O:=O1) _ _ _)) in E1.
    apply (proj2 (contains_spec (O:=O2) _ _ _)) in E1. congruence.
  - apply (proj1 (contains_spec (O:=O2) _ _ _)) in E2.
    apply (proj2 (contains_spec (O:=O1) _ _ _)) in E2. congruence.
Qed.

(** C6, amended. [flatten] returns the scope strings of the tokens of the
    set, each [resource:action1,action2] with the actions in ascending order,
    and the whole slice in ascending order of these strings (not of the
    resources). The output does not depend on the order in which Go visits
    the maps, so two calls on an unmodified set agree. A new set built by
    adding the same tokens in two different orders, the tokens carrying
    allocated, pairwise distinct action maps, is built without a panic both
    times and flattens to the same slice. *)
Theorem flatten_deterministic :
  (∀ (O : MapRange) h s,
     Sorted String.le (flatten h s)
     ∧ flatten h s
       ≡ₚ (λ kv : string * tokenScope, tokenScope_String h kv.2)
            <$> map_to_list (readScopes h s))
  ∧ (∀ (O : MapRange) h ts,
     let acts := sortStrings (elements (readActions h (actions ts))) in
     tokenScope_String h ts = resource ts +:+ ":" +:+ Join acts ","
     ∧ Sorted String.le acts
     ∧ acts ≡ₚ elements (readActions h (actions ts)))
  ∧ (∀ (O1 O2 : MapRange) h s, flatten (O:=O1) h s = flatten (O:=O2) h s)
  ∧ (∀ (O1 O2 : MapRange) h l tokens1 tokens2,
     smaps h !! l = Some ∅ →
     tokens1 ≡ₚ tokens2 →
     NoDup (actions <$> tokens1) →
     Forall (λ t, ∃ a, actions t = Some a ∧ a ∈ dom (amaps h)) tokens1 →
     ∃ h1 h2,
       addAll (O:=O1) (Some l) tokens1 h = Ret tt h1
       ∧ addAll (O:=O2) (Some l) tokens2 h = Ret tt h2
       ∧ flatten (O:=O1) h1 (Some l) = flatten (O:=O2) h2 (Some l)).
Proof.
  split_and!.
  - intros O h s. split; [apply flatten_sorted|apply flatten_perm].
  - intros O h ts acts. split_and!.
    + apply tokenScope_String_print.
    + apply sortStrings_sorted.
    + apply sortStrings_perm.
  - intros O1 O2 h s. by rewrite !flatten_eq.
  - intros O1 O2 h l tokens1 tokens2 Hl Hp Hnd Hall.
    assert (∀ tokens, tokens1 ≡ₚ tokens → building h h l tokens) as Hb.
    { intros tokens Hp'. exists ∅. split_and!; [done|done|done|].
      intros t Ht. rewrite <- Hp' in Ht.
      rewrite Forall_forall in Hall. destruct (Hall t Ht) as (a & ? & ?).
      by exists a. }
    destruct (addAll_building (O:=O1) h l tokens1 h Hnd (Hb _ (reflexivity _)))
      as (h1 & Hrun1 & Hb1 & Hc1).
    assert (NoDup (actions <$> tokens2)) as Hnd2 by (by rewrite <- Hp).
    destruct (addAll_building (O:=O2) h l tokens2 h Hnd2 (Hb _ Hp))
      as (h2 & Hrun2 & Hb2 & Hc2).
    exists h1, h2. split_and!; [done|done|].
    rewrite (flatten_content (O:=O1)), (flatten_content (O:=O2))
      by by eapply building_keyed.
    by rewrite Hc1, Hc2, (absorbAll_perm _ _ _ _ Hp).
Qed.

(** The set with the resources [repository:foo] and [repository:foo/bar]:
    [flatten] puts the string of the larger resource first. *)
Lemma flatten_not_sorted_by_resource :
  ∃ t1 t2,
    readScopes Examples.fooAndFooBar (Some 1%positive) !! "repository:foo/bar" = Some t1
    ∧ readScopes Examples.fooAndFooBar (Some 1%positive) !! "repository:foo" = Some t2
    ∧ flatten (O:=canonicalRange) Examples.fooAndFooBar (Some 1%positive)
      = [tokenScope_String (O:=canonicalRange) Examples.fooAndFooBar t1;
         tokenScope_String (O:=canonicalRange) Examples.fooAndFooBar t2]
    ∧ flatten (O:=canonicalRange) Examples.fooAndFooBar (Some 1%positive)
      = ["repository:foo/bar:pull"; "repository:foo:pull"]
    ∧ resource t1 = "repository:foo/bar" ∧ resource t2 = "repository:foo"
    ∧ ¬ String.le (resource t1) (resource t2).
Proof.
  exists (TokenScope "repository:foo/bar" (Some 2%positive)),
         (TokenScope "repository:foo" (Some 1%positive)).
  split_and!; [vm_compute; reflexivity..|]. by vm_compute.
Qed.

(** Two tokens for one resource, added in both orders and visited in two
    different map orders. *)
Lemma flatten_deterministic_witness :
  ∃ h1 h2,
    addAll (O:=canonicalRange) (Some 1%positive)
      [TokenScope "repository:foo" (Some 1%positive);
       TokenScope "repository:foo" (Some 2%positive)] Examples.pullAndPush = Ret tt h1
    ∧ addAll (O:=reverseRange) (Some 1%positive)
      [TokenScope "repository:foo" (Some 2%positive);
       TokenScope "repository:foo" (Some 1%positive)] Examples.pullAndPush = Ret tt h2
    ∧ flatten (O:=canonicalRange) h1 (Some 1%positive)
      = flatten (O:=reverseRange) h2 (Some 1%positive).
Proof.
  apply (proj2 (proj2 (proj2 flatten_deterministic))).
  - reflexivity.
  - apply perm_swap.
  - apply (bool_decide_unpack _). by vm_compute.
  - repeat constructor; eexists; (split; [reflexivity|]);
      apply (bool_decide_unpack _); by vm_compute.
Defined.

(** A token whose only action is ["pull,push"] is parsed back with the two
    actions [pull] and [push]. *)
Lemma parse_String_splits_comma_action :
  let ts := TokenScope "repository:foo" (Some 1%positive) in
  let t' := TokenScope "repository:foo" (Some 2%positive) in
  let h := Examples.commaAction in
  let h' := finalHeap (parseTokenScope "repository:foo:pull,push" h) in
  elements (readActions h (actions ts)) = ["pull,push"]
  ∧ tokenScope_String (O:=canonicalRange) h ts = "repository:foo:pull,push"
  ∧ parseTokenScope (tokenScope_String (O:=canonicalRange) h ts) h = Ret (inr t') h'
  ∧ readActions h' (actions t') = {["pull"; "push"]}
  ∧ readActions h' (actions t') ≠ readActions h (actions ts).
Proof.
  split_and!; [vm_compute; reflexivity..|].
  intros E. apply (f_equal elements) in E. by vm_compute in E.
Qed.

(** The token [repository:foo] with [{pull}] is parsed back as it is. *)
Lemma parse_String_roundtrip_witness :
  ∃ l h',
    parseTokenScope
      (tokenScope_String (O:=canonicalRange) Examples.fooPull
         (TokenScope "repository:foo" (Some 1%positive))) Examples.fooPull
    = Ret (inr (TokenScope "repository:foo" (Some l))) h'
    ∧ readActions h' (Some l) = {["pull"]}.
Proof.
  assert (readActions Examples.fooPull (Some 1%positive) = {["pull"]}) as E
    by (vm_compute; reflexivity).
  destruct (parse_String_roundtrip (O:=canonicalRange) Examples.fooPull
              (TokenScope "repository:foo" (Some 1%positive)))
    as (l & h' & Hrun & Hacts & _).
  - simpl actions. rewrite E. apply (non_empty_inhabited_L "pull").
    by apply elem_of_singleton.
  - simpl actions. rewrite E. intros a ->%elem_of_singleton. by vm_compute.
  - exists l, h'. split; [exact Hrun|]. by rewrite Hacts.
Defined.

(** Merging an empty set into the nil set returns, leaves the receiver nil,
    and the receiver does not contain the empty set. *)
Lemma merge_into_nil_misses_empty :
  let h := Examples.emptyBoth in
  readScopes h (Some 1%positive) = ∅
  ∧ merge (O:=canonicalRange) None (Some 1%positive) h = Ret tt h
  ∧ contains (O:=canonicalRange) h None (Some 1%positive) = false.
Proof. split_and!; reflexivity. Qed.

(** Merging [{repository:foo: {push}}] into [{repository:foo: {pull}}]. *)
Lemma merge_contains_witness :
  ∃ h', merge (O:=canonicalRange) (Some 1%positive) (Some 2%positive) Examples.twoSets
        = Ret tt h'
        ∧ contains (O:=canonicalRange) h' (Some 1%positive) (Some 2%positive) = true.
Proof.
  assert (readScopes Examples.twoSets (Some 1%positive)
          = {[ "repository:foo" := TokenScope "repository:foo" (Some 1%positive) ]})
    as E1 by (vm_compute; reflexivity).
  assert (readScopes Examples.twoSets (Some 2%positive)
          = {[ "repository:foo" := TokenScope "repository:foo" (Some 2%positive) ]})
    as E2 by (vm_compute; reflexivity).
  destruct (merge_contains (O:=canonicalRange) Examples.twoSets 1%positive
              (Some 2%positive)) as (h' & Hrun & Hc & _).
  - apply (bool_decide_unpack _). by vm_compute.
  - unfold allocatedActions. rewrite E1. apply map_Forall_singleton.
    eexists. split; [reflexivity|]. apply (bool_decide_unpack _). by vm_compute.
  - unfold keyedByResource. rewrite E2. by apply map_Forall_singleton.
  - intros a (r & t & Hr & Ha) (r' & t' & Hr' & Ha').
    rewrite E1 in Hr. rewrite E2 in Hr'.
    apply lookup_singleton_Some in Hr as [_ <-].
    apply lookup_singleton_Some in Hr' as [_ <-].
    cbn [actions] in Ha, Ha'. congruence.
  - exists h'. split; assumption.
Defined.

(** The clone is handed a token that carries the action map of a token of the
    original; the next [add] for that resource writes [push] into it, and the
    original flattens differently. *)
Lemma clone_add_shared_map :
  let h := Examples.fooPullAndPush in
  let h1 := finalHeap (clone (O:=canonicalRange) (Some 1%positive) h) in
  let tokens := [TokenScope "repository:bar" (Some 1%positive);
                 TokenScope "repository:bar" (Some 2%positive)] in
  let h2 := finalHeap (addAll (O:=canonicalRange) (Some 2%positive) tokens h1) in
  clone (O:=canonicalRange) (Some 1%positive) h = Ret (Some 2%positive) h1
  ∧ addAll (O:=canonicalRange) (Some 2%positive) tokens h1 = Ret tt h2
  ∧ flatten (O:=canonicalRange) h (Some 1%positive) = ["repository:foo:pull"]
  ∧ flatten (O:=canonicalRange) h2 (Some 1%positive) = ["repository:foo:pull,push"].
Proof. split_and!; vm_compute; reflexivity. Qed.

(** Adding a token with a map of its own to the clone. *)
Lemma clone_independent_witness :
  let h := Examples.fooPullAndPush in
  let tokens := [TokenScope "repository:foo" (Some 2%positive)] in
  ∃ S' h1,
    clone (O:=canonicalRange) (Some 1%positive) h = Ret S' h1
    ∧ flatten (O:=canonicalRange)
        (finalHeap (addAll (O:=canonicalRange) S' tokens h1)) (Some 1%positive)
      = flatten (O:=canonicalRange) h (Some 1%positive).
Proof.
  intros h tokens.
  assert (readScopes h (Some 1%positive)
          = {[ "repository:foo" := TokenScope "repository:foo" (Some 1%positive) ]})
    as E1 by (vm_compute; reflexivity).
  destruct (proj1 (clone_independent (O:=canonicalRange) Examples.plainParse)
              h (Some 1%positive) tokens) as (S' & h1 & Hrun & _ & _ & _ & _ & Hflat).
  - split.
    + intros l [= <-]. apply (bool_decide_unpack _). by vm_compute.
    + rewrite E1. apply map_Forall_singleton. intros a [= <-].
      apply (bool_decide_unpack _). by vm_compute.
  - repeat constructor. intros a [= <-] (r & t & Hr & Ha).
    rewrite E1 in Hr. apply lookup_singleton_Some in Hr as [_ <-].
    cbn [actions] in Ha. congruence.
  - exists S', h1. split; assumption.
Defined.

(** Why the theorem on [merge] asks for what it asks. A token with a nil
    action map in the receiver makes [merge] panic; *)
Lemma merge_nil_actions_panics :
  merge (O:=canonicalRange) (Some 1%positive) (Some 2%positive)
    Examples.nilActionsAndPull
  = Panic Examples.nilActionsAndPull.
Proof. vm_compute. reflexivity. Qed.

(** an action map shared between the two sets can grow during the merge, and
    the receiver then misses what the other set gained (here when
    [repository:foo] is visited before [repository:bar]); *)
Lemma merge_shared_map_misses :
  let h := Examples.sharedAcross in
  let h' := finalHeap (merge (O:=canonicalRange) (Some 1%positive) (Some 2%positive) h) in
  (rangeS (MapRange:=canonicalRange) (readScopes h (Some 2%positive))).*1
    = ["repository:foo"; "repository:bar"]
  ∧ merge (O:=canonicalRange) (Some 1%positive) (Some 2%positive) h = Ret tt h'
  ∧ contains (O:=canonicalRange) h' (Some 1%positive) (Some 2%positive) = false.
Proof. split_and!; vm_compute; reflexivity. Qed.

(** a token stored under a key that is not its resource is merged under its
    resource, and [contains] looks for the key. *)
Lemma merge_foreign_key_misses :
  let h := Examples.foreignKey in
  let h' := finalHeap (merge (O:=canonicalRange) (Some 1%positive) (Some 2%positive) h) in
  merge (O:=canonicalRange) (Some 1%positive) (Some 2%positive) h = Ret tt h'
  ∧ contains (O:=canonicalRange) h' (Some 1%positive) (Some 2%positive) = false.
Proof. split_and!; vm_compute; reflexivity. Qed.

(** Why insertion-order independence asks for distinct and allocated action
    maps. With a map shared by two tokens the order of insertion shows; *)
Lemma addAll_shared_map_order :
  let h := Examples.pullAndPush in
  let t1 := TokenScope "repository:foo" (Some 1%positive) in
  let t2 := TokenScope "repository:bar" (Some 1%positive) in
  let t3 := TokenScope "repository:foo" (Some 2%positive) in
  flatten (O:=canonicalRange)
    (finalHeap (addAll (O:=canonicalRange) (Some 1%positive) [t1; t2; t3] h))
    (Some 1%positive)
  = ["repository:bar:pull,push"; "repository:foo:pull,push"]
  ∧ flatten (O:=canonicalRange)
    (finalHeap (addAll (O:=canonicalRange) (Some 1%positive) [t3; t1; t2] h))
    (Some 1%positive)
  = ["repository:bar:pull"; "repository:foo:pull,push"].
Proof. split; vm_compute; reflexivity. Qed.

(** with a nil action map one order panics and the other does not. *)
Lemma addAll_nil_actions_order :
  let h := Examples.pullAndPush in
  let t1 := TokenScope "repository:foo" None in
  let t2 := TokenScope "repository:foo" (Some 1%positive) in
  (∃ h', addAll (O:=canonicalRange) (Some 1%positive) [t1; t2] h = Panic h')
  ∧ (∃ h', addAll (O:=canonicalRange) (Some 1%positive) [t2; t1] h = Ret tt h').
Proof. split; eexists; vm_compute; reflexivity. Qed.

(** An action with a colon moves into the resource when parsed back. *)
Lemma parse_String_colon_action :
  let h := finalHeap ((let* a := makeActions in storeAction (Some a) "a:b") emptyHeap) in
  let ts := TokenScope "repository:foo" (Some 1%positive) in
  let h' := finalHeap (parseTokenScope "repository:foo:a:b" h) in
  tokenScope_String (O:=canonicalRange) h ts = "repository:foo:a:b"
  ∧ parseTokenScope (tokenScope_String (O:=canonicalRange) h ts) h
    = Ret (inr (TokenScope "repository:foo:a" (Some 2%positive))) h'
  ∧ elements (readActions h' (Some 2%positive)) = ["b"].
Proof. split_and!; vm_compute; reflexivity. Qed.

(** The nil set does not contain the empty set. *)
Lemma contains_nil_receiver_rejects_empty :
  readScopes Examples.emptyBoth (Some 1%positive) = ∅
  ∧ readScopes Examples.emptyBoth None = ∅
  ∧ contains (O:=canonicalRange) Examples.emptyBoth None (Some 1%positive) = false.
Proof. by vm_compute. Qed.

(** An allocated empty set contains the empty set. *)
Lemma contains_nil_or_empty_witness :
  contains (O:=canonicalRange) Examples.emptyBoth (Some 1%positive) (Some 1%positive)
  = true.
Proof.
  apply (proj1 (proj2 (contains_nil_or_empty Examples.emptyBoth
                         (Some 1%positive) (Some 1%positive)))).
  - done.
  - reflexivity.
Defined.

(** Adding a token with an empty action map to the empty set inserts it. *)
Lemma add_empty_actions_inserts :
  let ts := TokenScope "repository:foo" (Some 1%positive) in
  readActions Examples.emptyBoth (actions ts) = ∅
  ∧ flatten (O:=canonicalRange) Examples.emptyBoth (Some 1%positive) = []
  ∧ ∃ h', add (O:=canonicalRange) (Some 1%positive) ts Examples.emptyBoth = Ret tt h'
          ∧ flatten (O:=canonicalRange) h' (Some 1%positive) = ["repository:foo:"].
Proof. split_and!; [reflexivity|reflexivity|]. eexists. split; reflexivity. Qed.

(** Adding a token with an empty action map for a resource the set holds. *)
Lemma add_empty_actions_witness :
  add (O:=canonicalRange) (Some 1%positive)
      (TokenScope "repository:foo" (Some 2%positive)) Examples.fooPull
  = Ret tt Examples.fooPull.
Proof.
  apply (add_empty_actions Examples.fooPull (Some 1%positive)
           (TokenScope "repository:foo" (Some 2%positive))).
  - reflexivity.
  - by eexists.
Defined.

(** The locator [registry.example.com/org/name], with push. *)
Lemma repositoryScope_token_witness :
  ∃ l h',
    repositoryScope Examples.plainParse
      {| Locator := "registry.example.com/org/name"; Object := "v1" |} true emptyHeap
    = Ret (inr (TokenScope "repository:org/name" (Some l))) h'
    ∧ readActions h' (Some l) = {["pull"; "push"]}.
Proof.
  destruct (repositoryScope_token Examples.plainParse
              {| Locator := "registry.example.com/org/name"; Object := "v1" |}
              "registry.example.com" "org/name" true emptyHeap
              {| Host := "registry.example.com"; Path := "/org/name" |}
              eq_refl eq_refl eq_refl) as (l & h' & Hrun & _ & Hacts & _).
  by exists l, h'.
Defined.

(** ** More on [add] and [merge]: what they guarantee for any store *)
Section add_facts.
Context {O : MapRange}.

Lemma add_present_any l ts mt a h :
  readScopes h (Some l) !! resource ts = Some mt →
  actions mt = Some a →
  add (Some l) ts h
  = Ret tt (if decide (readActions h (actions ts) = ∅) then h
            else Heap (<[a := readActions h (actions ts) ∪ readActions h (Some a)]>
                         (amaps h)) (smaps h)).
Proof.
  intros Hm Ha. unfold add. rewrite Hm, Ha. unfold bind.
  rewrite storeAction_loop_set, list_to_set_rangeA.
  destruct (rangeA (readActions h (actions ts))) as [|k ks] eqn:E.
  - rewrite decide_True by by apply rangeA_nil_inv. by apply storeScope_same.
  - rewrite decide_False by (intros E'; by rewrite E', rangeA_empty in E).
    by apply storeScope_same.
Qed.

(** Adding a token the set already stores for its resource changes nothing. *)
Lemma add_own_token l t h :
  readScopes h (Some l) !! resource t = Some t →
  add (Some l) t h = Ret tt h.
Proof.
  intros Hk. destruct (actions t) as [a|] eqn:Ha.
  - rewrite (add_present_any l t t a) by done. rewrite Ha.
    case_decide as Hacts; [done|]. do 2 f_equal.
    destruct h as [am sm]. simpl in *. f_equal.
    destruct (am !! a) as [X|] eqn:HX; [|done]. simpl.
    rewrite (idemp_L (∪)). by apply insert_id.
  - rewrite (add_present_nil l t t) by done. rewrite Ha. by rewrite decide_True.
Qed.

(** X1. When [add] returns, the set holds the resource of the token with at
    least the actions the token had. *)
Theorem add_covers_token s ts h h' :
  add s ts h = Ret tt h' →
  ∃ e, readScopes h' s !! resource ts = Some e
       ∧ readActions h (actions ts) ⊆ readActions h' (actions e).
Proof.
  destruct s as [l|]; [|by rewrite add_nil].
  destruct (readScopes h (Some l) !! resource ts) as [mt|] eqn:Hlook.
  - destruct (actions mt) as [a|] eqn:Ha.
    + rewrite (add_present_any l ts mt a) by done.
      case_decide as Hacts; intros [= <-]; exists mt.
      * split; [done|]. rewrite Hacts. apply empty_subseteq.
      * split; [done|]. rewrite Ha. simpl. rewrite lookup_insert_eq. simpl.
        apply union_subseteq_l.
    + rewrite (add_present_nil l ts mt) by done.
      case_decide as Hacts; [|done]. intros [= <-]. exists mt.
      split; [done|]. rewrite Hacts. apply empty_subseteq.
  - rewrite add_absent by done. intros [= <-]. exists ts. split.
    + simpl. rewrite lookup_insert_eq. simpl. by rewrite lookup_insert_eq.
    + by destruct (actions ts).
Qed.

(** X2. [add] panics exactly on a nil receiver, or when the token stored for
    the resource has a nil action map and the token added has an action; the
    store is then as it was. *)
Theorem add_panics_iff s ts h :
  ((∃ h', add s ts h = Panic h')
   ↔ s = None
     ∨ ∃ mt, readScopes h s !! resource ts = Some mt
             ∧ actions mt = None ∧ readActions h (actions ts) ≠ ∅)
  ∧ (∀ h', add s ts h = Panic h' → h' = h).
Proof.
  destruct s as [l|].
  2:{ rewrite add_nil. split; [|by intros ? [= <-]]. split; [by left|by eexists]. }
  destruct (readScopes h (Some l) !! resource ts) as [mt|] eqn:Hlook.
  - destruct (actions mt) as [a|] eqn:Ha.
    + rewrite (add_present_any l ts mt a) by done. split; [|done].
      split; [by intros [? ?]|].
      intros [?|(mt' & [= <-] & ? & _)]; congruence.
    + rewrite (add_present_nil l ts mt) by done.
      case_decide as Hacts.
      * split; [|done]. split; [by intros [? ?]|].
        intros [?|(mt' & _ & _ & ?)]; done.
      * split; [|by intros ? [= <-]]. split; [|by eexists].
        intros _. right. by exists mt.
  - rewrite add_absent by done. split; [|done]. split; [by intros [? ?]|].
    intros [?|(mt' & ? & _)]; done.
Qed.

Lemma grows_refl h : grows h h.
Proof. by split. Qed.

Lemma grows_trans h1 h2 h3 : grows h1 h2 → grows h2 h3 → grows h1 h3.
Proof.
  intros [Hs1 Ha1] [Hs2 Ha2]. split.
  - intros s k e Hk. by apply Hs2, Hs1.
  - intros a. etrans; [apply Ha1|apply Ha2].
Qed.

Lemma add_grows s t h : grows h (finalHeap (add s t h)).
Proof.
  destruct s as [l|]; [|rewrite add_nil; apply grows_refl].
  destruct (readScopes h (Some l) !! resource t) as [mt|] eqn:Hlook.
  - destruct (actions mt) as [a|] eqn:Ha.
    + rewrite (add_present_any l t mt a) by done.
      case_decide; [apply grows_refl|]. simpl. split; [done|].
      intros [b|]; [|done]. simpl. destruct (decide (a = b)) as [<-|Hne].
      * rewrite lookup_insert_eq. simpl. apply union_subseteq_r.
      * by rewrite lookup_insert_ne.
    + rewrite (add_present_nil l t mt) by done. case_decide; apply grows_refl.
  - rewrite add_absent by done. simpl. split; [|done].
    intros [l0|] k e; [|done]. simpl.
    destruct (decide (l = l0)) as [<-|Hne].
    + rewrite lookup_insert_eq. simpl. intros Hk.
      rewrite lookup_insert_ne; [done|]. intros <-. simpl in Hlook. congruence.
    + by rewrite lookup_insert_ne.
Qed.

Lemma add_keyed s t h s0 :
  keyedByResource h s0 → keyedByResource (finalHeap (add s t h)) s0.
Proof.
  intros Hk. destruct s as [l|]; [|by rewrite add_nil].
  destruct (readScopes h (Some l) !! resource t) as [mt|] eqn:Hlook.
  - destruct (actions mt) as [a|] eqn:Ha.
    + rewrite (add_present_any l t mt a) by done. by case_decide.
    + rewrite (add_present_nil l t mt) by done. by case_decide.
  - rewrite add_absent by done. simpl. unfold keyedByResource.
    destruct s0 as [l0|]; [|done]. simpl.
    destruct (decide (l = l0)) as [<-|Hne].
    + rewrite lookup_insert_eq. simpl. by apply map_Forall_insert_2.
    + by rewrite lookup_insert_ne.
Qed.

Lemma forM_final_inv {A} (P : heap → Prop) (f : A → M unit) l h :
  (∀ x h, P h → P (finalHeap (f x h))) →
  P h → P (finalHeap (forM_ l f h)).
Proof.
  intros Hstep. revert h. induction l as [|x l IH]; intros h Hh; [done|].
  rewrite forM_cons. specialize (Hstep x h Hh).
  destruct (f x h) as [[] h1|h1]; [by apply IH|done].
Qed.

(** X3. [add], [merge] and a sequence of [add]s never remove an entry from a
    set nor an action from an action map, whether they return or panic. *)
Theorem add_merge_never_remove s t other tokens h :
  grows h (finalHeap (add s t h))
  ∧ grows h (finalHeap (merge s other h))
  ∧ grows h (finalHeap (addAll s tokens h)).
Proof.
  split_and!.
  - apply add_grows.
  - unfold merge. apply (forM_final_inv (grows h)); [|apply grows_refl].
    intros kv h1 Hh1. eapply grows_trans; [done|apply add_grows].
  - unfold addAll. apply (forM_final_inv (grows h)); [|apply grows_refl].
    intros t' h1 Hh1. eapply grows_trans; [done|apply add_grows].
Qed.

(** X4. A set that stores its tokens under their resources still does after
    [add], [merge] or a sequence of [add]s, whatever is added: [add] files a
    token under the token's own resource. *)
Theorem add_merge_keep_keyed s t other tokens h s0 :
  keyedByResource h s0 →
  keyedByResource (finalHeap (add s t h)) s0
  ∧ keyedByResource (finalHeap (merge s other h)) s0
  ∧ keyedByResource (finalHeap (addAll s tokens h)) s0.
Proof.
  intros Hk. split_and!.
  - by apply add_keyed.
  - unfold merge. apply (forM_final_inv (λ h, keyedByResource h s0)); [|done].
    intros kv h1. apply add_keyed.
  - unfold addAll. apply (forM_final_inv (λ h, keyedByResource h s0)); [|done].
    intros t' h1. apply add_keyed.
Qed.

(** X5. [add] is idempotent: adding the same token again to the store the
    first [add] left changes nothing. *)
Theorem add_idempotent s ts h h1 :
  add s ts h = Ret tt h1 → add s ts h1 = Ret tt h1.
Proof.
  destruct s as [l|]; [|by rewrite add_nil].
  destruct (readScopes h (Some l) !! resource ts) as [mt|] eqn:Hlook.
  - destruct (actions mt) as [a|] eqn:Ha.
    + rewrite (add_present_any l ts mt a) by done.
      case_decide as Hacts; intros [= <-].
      { rewrite (add_present_any l ts mt a) by done. by rewrite decide_True. }
      match goal with |- add _ _ ?hh = _ => set (h1 := hh) end.
      assert (readActions h1 (actions ts) = readActions h (actions ts)) as Hacts1.
      { destruct (actions ts) as [b|] eqn:Hb; [|done]. unfold h1. simpl.
        destruct (decide (a = b)) as [<-|Hne].
        - rewrite lookup_insert_eq. simpl. by rewrite (idemp_L (∪)).
        - by rewrite lookup_insert_ne. }
      rewrite (add_present_any l ts mt a) by done.
      rewrite Hacts1, decide_False by done. do 2 f_equal.
      unfold h1. simpl. rewrite lookup_insert_eq. simpl.
      rewrite insert_insert_eq.
      by rewrite (assoc_L (∪)), (idemp_L (∪)).
    + rewrite (add_present_nil l ts mt) by done.
      case_decide as Hacts; [|done]. intros [= <-].
      rewrite (add_present_nil l ts mt) by done. by rewrite decide_True.
  - rewrite add_absent by done. intros [= <-].
    apply add_own_token. simpl. rewrite lookup_insert_eq. simpl.
    by rewrite lookup_insert_eq.
Qed.

Lemma forM_same {A} (f : A → M unit) l h :
  (∀ x, x ∈ l → f x h = Ret tt h) → forM_ l f h = Ret tt h.
Proof.
  induction l as [|x l IH]; intros Hf; [done|].
  rewrite forM_cons, Hf by by left. apply IH. intros y Hy. apply Hf. by right.
Qed.

(** X6. Merging a set that stores its tokens under their resources into
    itself changes nothing. *)
Theorem merge_self s h :
  keyedByResource h s → merge s s h = Ret tt h.
Proof.
  intros Hk. unfold merge. apply forM_same. intros [k v] Hin%elem_of_rangeS.
  simpl. pose proof (Hk k v Hin) as Hres. simpl in Hres.
  destruct (readScopes_Some _ _ _ _ Hin) as (l & -> & _).
  apply add_own_token. by rewrite Hres.
Qed.

End add_facts.

(** ** More on [contains], [clone] and [parseTokenScope] *)
Section set_facts.
Context {O : MapRange}.


Lemma flatten_described h s :
  flatten h s
  = sortStrings
      ((map_to_list
          ((λ v, printScope (resource v, readActions h (actions v)))
             <$> readScopes h s)).*2).
Proof.
  by rewrite flatten_eq, map_to_list_fmap, <- list_fmap_compose.
Qed.

(** X8. The clone of a valid set flattens to what the original flattens to,
    and each of the two contains the other. *)
Theorem clone_same_flatten h S :
  validScopes h S →
  ∃ S' h1,
    clone S h = Ret S' h1
    ∧ flatten h1 S' = flatten h S
    ∧ contains h1 S' S = true
    ∧ contains h1 S S' = true.
Proof.
  intros Hvalid. destruct S as [l|].
  2:{ exists None, h. by rewrite clone_nil. }
  destruct (clone_Some l h Hvalid)
    as (l' & h1 & mc & Hrun & Hl' & Hs & Hsub & Hnone & Hsome & Hown).
  destruct Hvalid as [Hl Hvalid].
  assert (l ≠ l') as Hne by (intros ->; by apply Hl', Hl).
  assert (readScopes h1 (Some l') = mc) as Hmc
    by (by simpl; rewrite Hs, lookup_insert_eq).
  assert (readScopes h1 (Some l) = readScopes h (Some l)) as Hm
    by (by simpl; rewrite Hs, lookup_insert_ne).
  assert (∀ k v, readScopes h (Some l) !! k = Some v →
            readActions h1 (actions v) = readActions h (actions v)) as Hkeep.
  { intros k v Hk. destruct (actions v) as [a|] eqn:Ha; [|done].
    apply readActions_subseteq; [done|]. by apply (Hvalid k v Hk). }
  exists (Some l'), h1. split_and!; [done| | |].
  - rewrite !flatten_described, Hmc. do 3 f_equal.
    apply map_eq. intros k. rewrite !lookup_fmap.
    destruct (readScopes h (Some l) !! k) as [v|] eqn:Hk.
    + destruct (Hsome k v Hk) as (v' & -> & Hr & Hread & _). simpl.
      by rewrite Hr, Hread.
    + by rewrite (Hnone k Hk).
  - apply contains_spec. right. split; [done|]. intros k v. rewrite Hm, Hmc.
    intros Hk. destruct (Hsome k v Hk) as (v' & Hv' & _ & Hread & _).
    exists v'. split; [done|]. by rewrite Hread, (Hkeep k v Hk).
  - apply contains_spec. right. split; [done|]. intros k v'. rewrite Hm, Hmc.
    intros Hk'. destruct (readScopes h (Some l) !! k) as [v|] eqn:Hk;
      [|by rewrite (Hnone k Hk) in Hk'].
    destruct (Hsome k v Hk) as (v'' & Hv'' & _ & Hread & _). simplify_eq.
    exists v. split; [done|]. by rewrite Hread, (Hkeep k v Hk).
Qed.

Lemma parseTokenScope_fail s h :
  occurs ":" s = false →
  parseTokenScope s h = Ret (inl (notAValidTokenScope s)) h.
Proof.
  intros Hs. unfold parseTokenScope.
  by rewrite (LastIndex_absent _ _ Hs), decide_True.
Qed.

Lemma parseTokenScope_ok s h :
  occurs ":" s = true →
  parseTokenScope s h
  = Ret (inr (TokenScope (scopeResource s) (Some (fresh (dom (amaps h))))))
        (Heap (<[fresh (dom (amaps h)) := scopeActions s]> (amaps h)) (smaps h)).
Proof.
  intros Hs%LastIndex_present. unfold parseTokenScope.
  rewrite decide_False by lia. unfold bind, makeActions.
  erewrite storeAction_loop; [|by simpl; rewrite lookup_insert_eq].
  unfold ret. simpl. rewrite insert_insert_eq.
  unfold scopeActions, scopeTail. by rewrite (right_id_L ∅ (∪)).
Qed.

Lemma scopeActions_nonempty s : scopeActions s ≠ ∅.
Proof.
  unfold scopeActions. pose proof (Split_not_nil ","%char (scopeTail s)) as Hnil.
  destruct (Split (scopeTail s) ",") as [|x r]; [done|].
  apply (non_empty_inhabited_L x). rewrite elem_of_list_to_set. by left.
Qed.

(** X9. [parseTokenScope] fails exactly on a string without a colon, with its
    error and without touching the store, and never panics. Otherwise the
    string is the resource, the last colon and a colon-free rest, and the
    token carries, in a new action map, the comma-separated pieces of the
    rest, at least one. *)
Theorem parseTokenScope_outcome s h :
  (occurs ":" s = false →
   parseTokenScope s h = Ret (inl (notAValidTokenScope s)) h)
  ∧ (occurs ":" s = true →
     ∃ l, (l ∉ dom (amaps h))
       ∧ parseTokenScope s h
         = Ret (inr (TokenScope (scopeResource s) (Some l)))
               (Heap (<[l := scopeActions s]> (amaps h)) (smaps h))
       ∧ s = scopeResource s +:+ ":" +:+ scopeTail s
       ∧ occurs ":" (scopeTail s) = false
       ∧ scopeActions s ≠ ∅).
Proof.
  split; [apply parseTokenScope_fail|]. intros Hs.
  exists (fresh (dom (amaps h))).
  destruct (LastIndex_split ":"%char s Hs) as [Heq Htail].
  split_and!; [apply is_fresh|by apply parseTokenScope_ok|exact Heq|exact Htail|].
  apply scopeActions_nonempty.
Qed.

Lemma parseTokenScope_print r (acts : list string) h :
  acts ≠ [] →
  Forall (λ x, occurs ":" x = false) acts →
  Forall (λ x, occurs "," x = false) acts →
  parseTokenScope (r +:+ String ":" (Join acts ",")) h
  = Ret (inr (TokenScope r (Some (fresh (dom (amaps h))))))
        (Heap (<[fresh (dom (amaps h)) := list_to_set acts]> (amaps h)) (smaps h)).
Proof.
  intros Hnil Hcolon Hcomma.
  assert (occurs ":" (r +:+ String ":" (Join acts ",")) = true) as Hocc.
  { rewrite occurs_app. simpl. apply orb_true_r. }
  rewrite (parseTokenScope_ok _ _ Hocc). unfold scopeResource, scopeActions, scopeTail.
  rewrite LastIndex_last by by apply occurs_Join.
  rewrite Nat2Z.id.
  replace (Z.to_nat (Z.of_nat (String.length r) + 1)) with (S (String.length r))
    by lia.
  by rewrite sliceFrom_after, sliceTo_app, Split_Join.
Qed.

(** X10. A token that [parseTokenScope] produced goes through [String()] and
    [parseTokenScope] unchanged: same resource, same action set. *)
Theorem parse_String_of_parsed s h t h1 :
  parseTokenScope s h = Ret (inr t) h1 →
  ∃ l h2,
    parseTokenScope (tokenScope_String h1 t) h1
      = Ret (inr (TokenScope (resource t) (Some l))) h2
    ∧ readActions h2 (Some l) = readActions h1 (actions t).
Proof.
  destruct (occurs ":" s) eqn:Hs; [|by rewrite parseTokenScope_fail].
  rewrite (parseTokenScope_ok _ _ Hs). intros [= <- <-].
  destruct (LastIndex_split ":"%char s Hs) as [_ Htail]. fold (scopeTail s) in Htail.
  rewrite tokenScope_String_eq. cbn [resource actions].
  set (h1 := Heap _ _).
  assert (readActions h1 (Some (fresh (dom (amaps h)))) = scopeActions s) as Hread.
  { unfold h1. simpl. by rewrite lookup_insert_eq. }
  rewrite Hread.
  set (acts := sortStrings (rangeA (scopeActions s))).
  assert (∀ x, x ∈ acts → x ∈ Split (scopeTail s) ",") as Hin.
  { intros x. unfold acts, scopeActions.
    by rewrite sorted_actions_perm, elem_of_elements, elem_of_list_to_set. }
  assert (list_to_set acts = scopeActions s) as Hset
    by apply list_to_set_sorted_actions.
  rewrite parseTokenScope_print.
  - eexists _, _. split; [done|]. simpl. by rewrite lookup_insert_eq, Hset.
  - intros E. apply (scopeActions_nonempty s). by rewrite <- Hset, E.
  - apply Forall_forall. intros x Hx%Hin. by eapply Split_pieces.
  - apply Forall_forall. intros x Hx%Hin. by eapply Split_no_sep.
Qed.

End set_facts.

(** ** [getTokenScopes] *)
Section request_facts.
Context {O : MapRange}.

Lemma parseAndAddAll_cons scopes s ps h :
  parseAndAddAll scopes (s :: ps) h
  = match parseTokenScope s h with
    | Ret (inl err) h1 => Ret (Some err) h1
    | Ret (inr t) h1 =>
        match add scopes t h1 with
        | Ret _ h2 => parseAndAddAll scopes ps h2
        | Panic h2 => Panic h2
        end
    | Panic h1 => Panic h1
    end.
Proof.
  cbn [parseAndAddAll]. unfold bind.
  by destruct (parseTokenScope s h) as [[err|t] h1|h1].
Qed.

Lemma getTokenScopes_unfold ctx params h :
  getTokenScopes ctx params h
  = let l := fresh (dom (smaps h)) in
    match parseAndAddAll (Some l) (requestScopes params)
            (Heap (amaps h) (<[l := ∅]> (smaps h))) with
    | Ret (Some e) h1 => Ret (inl e) h1
    | Ret None h1 =>
        match getContextScopes ctx with
        | Some lb =>
            match merge (Some l) (Some lb) h1 with
            | Ret _ h2 => Ret (inr (Some l)) h2
            | Panic h2 => Panic h2
            end
        | None => Ret (inr (Some l)) h1
        end
    | Panic h1 => Panic h1
    end.
Proof.
  unfold getTokenScopes, requestScopes, bind, makeScopes. cbv zeta.
  destruct params as [p|]; [destruct (p !! "scope") as [flat|]|]; simpl;
    try by destruct (getContextScopes ctx) as [lb|];
           [destruct (merge _ _ _) as [[] ?|?]|].
  destruct (parseAndAddAll _ _ _) as [[e|] h1|h1]; try done.
  by destruct (getContextScopes ctx) as [lb|];
    [destruct (merge _ _ _) as [[] ?|?]|].
Qed.

Lemma filling_start h :
  filling h (Heap (amaps h) (<[fresh (dom (smaps h)) := ∅]> (smaps h)))
    (fresh (dom (smaps h))).
Proof.
  exists ∅. split_and!; try done.
  - simpl. by rewrite lookup_insert_eq.
  - intros l' Hne. simpl. by rewrite lookup_insert_ne.
Qed.

Lemma filling_step h0 h l s :
  filling h0 h l →
  occurs ":" s = true →
  ∃ t h1 h2,
    parseTokenScope s h = Ret (inr t) h1
    ∧ add (Some l) t h1 = Ret tt h2
    ∧ filling h0 h2 l
    ∧ content h2 (Some l)
      = absorb (scopeResource s) (scopeActions s) (content h (Some l)).
Proof.
  intros (m & Hm & Hother & Hsub & [Hdom Hinj] & Hent) Hs.
  set (b := fresh (dom (amaps h))).
  assert (b ∉ dom (amaps h)) as Hb by apply is_fresh.
  assert (amaps h0 !! b = None) as Hb0.
  { destruct (amaps h0 !! b) as [X|] eqn:E; [|done]. destruct Hb.
    apply elem_of_dom. exists X. by eapply lookup_weaken. }
  set (t := TokenScope (scopeResource s) (Some b)).
  set (h1 := Heap (<[b := scopeActions s]> (amaps h)) (smaps h)).
  assert (amaps h ⊆ amaps h1) as Hsub1.
  { apply insert_subseteq. by apply not_elem_of_dom. }
  assert (readScopes h1 (Some l) = m) as Hread1 by (by simpl; rewrite Hm).
  assert (ownActions h1 m) as Hown1.
  { split; [|done]. intros k v a Hk Ha. simpl. rewrite dom_insert.
    apply elem_of_union_r. by eapply Hdom. }
  assert (content h1 (Some l) = content h (Some l)) as Hcont1.
  { unfold content. rewrite Hread1. simpl. rewrite Hm. simpl.
    apply map_fmap_ext. intros k v Hk.
    destruct (actions v) as [a|] eqn:Ha; [|done].
    apply readActions_subseteq; [done|]. by eapply Hdom. }
  destruct (add_content_own l h1 m t) as (h2 & Hadd & Hcont); [done|done| |].
  { intros k v Hk. by destruct (Hent k v Hk) as (_ & a & -> & _). }
  exists t, h1, h2. split_and!; [by apply parseTokenScope_ok|done| |].
  2:{ rewrite Hcont, Hcont1. f_equal. simpl. by rewrite lookup_insert_eq. }
  destruct (m !! scopeResource s) as [mt|] eqn:Hlook.
  - destruct (Hent _ _ Hlook) as (_ & a & Ha & Ha0).
    pose proof (Hdom _ _ _ Hlook Ha) as [X HX]%elem_of_dom.
    assert (a ≠ b) as Hab by (intros ->; apply Hb, elem_of_dom; by exists X).
    rewrite (add_present l t mt a X) in Hadd;
      [|by rewrite Hread1|done|by simpl; rewrite lookup_insert_ne].
    injection Hadd as <-.
    exists m. split_and!; [done|done| | |done].
    + simpl. apply insert_subseteq_r; [by apply not_elem_of_dom|].
      by etrans.
    + split; [|done]. intros k v a' Hk Ha'. simpl. rewrite !dom_insert.
      do 2 apply elem_of_union_r. by eapply Hdom.
  - rewrite add_absent in Hadd by (by rewrite Hread1).
    rewrite Hread1 in Hadd. injection Hadd as <-.
    exists (<[scopeResource s := t]> m). split_and!.
    + simpl. by rewrite lookup_insert_eq.
    + intros l' Hne. simpl. rewrite lookup_insert_ne by done. by apply Hother.
    + simpl. by etrans.
    + split.
      * intros k v a [[<- <-]|[Hne Hk]]%lookup_insert_Some Ha; simpl in *.
        -- injection Ha as <-. rewrite dom_insert. set_solver.
        -- rewrite dom_insert. apply elem_of_union_r. by eapply Hdom.
      * intros k1 k2 v1 v2 a [[<- <-]|[Hne1 Hk1]]%lookup_insert_Some
                              [[<- <-]|[Hne2 Hk2]]%lookup_insert_Some
                              Ha1 Ha2; simpl in *; [done| | |by eauto].
        -- injection Ha1 as <-. destruct Hb. by eapply Hdom.
        -- injection Ha2 as <-. destruct Hb. by eapply Hdom.
    + intros k v [[<- <-]|[Hne Hk]]%lookup_insert_Some; [|by apply Hent].
      split; [done|]. exists b. split; [done|]. by apply not_elem_of_dom.
Qed.

Lemma parseAndAddAll_run h0 l ps h :
  filling h0 h l →
  match List.find lacksColon ps with
  | Some bad =>
      ∃ h', parseAndAddAll (Some l) ps h = Ret (Some (notAValidTokenScope bad)) h'
            ∧ filling h0 h' l
  | None =>
      ∃ h', parseAndAddAll (Some l) ps h = Ret None h'
            ∧ filling h0 h' l
            ∧ content h' (Some l) = absorbParsed ps (content h (Some l))
  end.
Proof.
  revert h. induction ps as [|s ps IH]; intros h Hfill.
  { by exists h. }
  cbn [List.find]. unfold lacksColon at 1. rewrite parseAndAddAll_cons.
  destruct (occurs ":" s) eqn:Hs; simpl.
  - destruct (filling_step h0 h l s Hfill Hs) as (t & h1 & h2 & -> & -> & Hfill2 & Hc).
    specialize (IH h2 Hfill2). destruct (List.find lacksColon ps) as [bad|].
    + done.
    + destruct IH as (h' & Hrun & Hfill' & Hc'). exists h'.
      split_and!; [done|done|]. by rewrite Hc', Hc.
  - rewrite parseTokenScope_fail by done. by exists h.
Qed.

Lemma absorb_mono r acts V k X :
  V !! k = Some X → ∃ X', absorb r acts V !! k = Some X' ∧ X ⊆ X'.
Proof.
  intros Hk. unfold absorb. destruct (decide (r = k)) as [->|Hne].
  - rewrite lookup_insert_eq, Hk. eexists. split; [done|]. simpl.
    apply union_subseteq_r.
  - rewrite lookup_insert_ne by done. by exists X.
Qed.

Lemma absorbParsed_mono ps V k X :
  V !! k = Some X → ∃ X', absorbParsed ps V !! k = Some X' ∧ X ⊆ X'.
Proof.
  revert V X. induction ps as [|s ps IH]; intros V X Hk; [by exists X|].
  destruct (absorb_mono (scopeResource s) (scopeActions s) V k X Hk)
    as (X1 & Hk1 & Hsub1).
  destruct (IH _ _ Hk1) as (X' & Hk' & Hsub'). exists X'. split; [done|].
  by etrans.
Qed.

Lemma absorbParsed_covers ps V s :
  s ∈ ps →
  ∃ X, absorbParsed ps V !! scopeResource s = Some X ∧ scopeActions s ⊆ X.
Proof.
  revert V. induction ps as [|s' ps IH]; intros V Hin.
  { by apply not_elem_of_nil in Hin. }
  apply elem_of_cons in Hin as [->|Hin]; [|by apply IH].
  destruct (absorbParsed_mono ps
              (absorb (scopeResource s') (scopeActions s') V)
              (scopeResource s')
              (scopeActions s' ∪ default ∅ (V !! scopeResource s')))
    as (X' & Hk' & Hsub').
  { unfold absorb. by rewrite lookup_insert_eq. }
  exists X'. split; [done|]. etrans; [|exact Hsub']. apply union_subseteq_l.
Qed.

(** A set that was valid before the set at [l] was filled is as it was. *)
Lemma filling_frame h0 h l S :
  filling h0 h l →
  validScopes h0 S →
  fresh (dom (smaps h0)) = l →
  readScopes h S = readScopes h0 S
  ∧ (∀ k t, readScopes h0 S !! k = Some t →
            readActions h (actions t) = readActions h0 (actions t))
  ∧ flatten h S = flatten h0 S.
Proof.
  intros (m & Hm & Hother & Hsub & _) [Hl Hvalid] Hfresh.
  assert (readScopes h S = readScopes h0 S) as Hread.
  { destruct S as [lb|]; [|done]. simpl. rewrite Hother; [done|].
    intros ->. apply (is_fresh (dom (smaps h0))). rewrite Hfresh. by apply Hl. }
  assert (∀ k t, readScopes h0 S !! k = Some t →
            readActions h (actions t) = readActions h0 (actions t)) as Hacts.
  { intros k t Hk. destruct (actions t) as [a|] eqn:Ha; [|done].
    apply readActions_subseteq; [done|]. by apply (Hvalid k t Hk). }
  split_and!; [done|done|]. by apply flatten_ext.
Qed.

(** X11. When a scope string of the request has no colon, [getTokenScopes]
    returns the parse error of the first such string, without a panic and
    without changing any set that existed; the empty string is such a
    string, so an empty [scope] parameter is an error. *)
Theorem getTokenScopes_error ctx params h bad :
  List.find lacksColon (requestScopes params) = Some bad →
  ∃ h', getTokenScopes ctx params h = Ret (inl (notAValidTokenScope bad)) h'
        ∧ ∀ S, validScopes h S → flatten h' S = flatten h S.
Proof.
  intros Hbad. rewrite getTokenScopes_unfold. cbv zeta.
  pose proof (parseAndAddAll_run h _ (requestScopes params) _ (filling_start h))
    as Hrun.
  rewrite Hbad in Hrun. destruct Hrun as (h' & -> & Hfill).
  exists h'. split; [done|]. intros S HS.
  by destruct (filling_frame h h' _ S Hfill HS eq_refl) as (_ & _ & ?).
Qed.

(** What [getTokenScopes] returns when every scope string parses. *)
Lemma getTokenScopes_run ctx params h :
  validScopes h (getContextScopes ctx) →
  keyedByResource h (getContextScopes ctx) →
  List.find lacksColon (requestScopes params) = None →
  ∃ l hf,
    getTokenScopes ctx params h = Ret (inr (Some l)) hf
    ∧ (l ∉ dom (smaps h))
    ∧ contains hf (Some l) (getContextScopes ctx) = true
    ∧ (∀ s, s ∈ requestScopes params →
         ∃ e, readScopes hf (Some l) !! scopeResource s = Some e
              ∧ scopeActions s ⊆ readActions hf (actions e))
    ∧ flatten hf (getContextScopes ctx) = flatten h (getContextScopes ctx)
    ∧ keyedByResource hf (Some l)
    ∧ covers hf (Some l) h (getContextScopes ctx).
Proof.
  intros Hvalid Hkeyed Hgood. rewrite getTokenScopes_unfold. cbv zeta.
  set (l := fresh (dom (smaps h))).
  pose proof (parseAndAddAll_run h _ (requestScopes params) _ (filling_start h))
    as Hrun.
  rewrite Hgood in Hrun. fold l in Hrun.
  destruct Hrun as (h1 & -> & Hfill & Hcont).
  destruct (filling_frame h h1 l _ Hfill Hvalid eq_refl) as (HreadB & HactsB & HflatB).
  pose proof Hfill as (mA & HmA & Hother & Hsub & [Hdom Hinj] & Hent).
  assert (readScopes h1 (Some l) = mA) as HreadA by (by simpl; rewrite HmA).
  assert (∀ s, s ∈ requestScopes params →
            ∃ e, mA !! scopeResource s = Some e
                 ∧ scopeActions s ⊆ readActions h1 (actions e)) as Hreq.
  { intros s Hin.
    destruct (absorbParsed_covers (requestScopes params)
                (content (Heap (amaps h) (<[l := ∅]> (smaps h))) (Some l)) s Hin)
      as (X & HX & Hsub').
    rewrite <- Hcont, content_lookup, HreadA in HX.
    destruct (mA !! scopeResource s) as [e|]; [|done].
    exists e. split; [done|]. by injection HX as <-. }
  assert (keyedByResource h1 (Some l)) as HkeyedA.
  { unfold keyedByResource. rewrite HreadA. intros k v Hk.
    by destruct (Hent k v Hk). }
  destruct (getContextScopes ctx) as [lb|] eqn:HB.
  2:{ exists l, h1. split_and!; [done|apply is_fresh|done| |done|done|done].
      intros s Hin. rewrite HreadA. by apply Hreq. }
  assert (lb ≠ l) as Hne.
  { intros ->. apply (is_fresh (dom (smaps h))). by apply Hvalid. }
  assert (allocatedActions h1 (Some l)) as Halloc.
  { unfold allocatedActions. rewrite HreadA. intros k v Hk.
    destruct (Hent k v Hk) as (_ & a & Ha & _). exists a. split; [done|].
    by eapply Hdom. }
  assert (∀ k v a, readScopes h1 (Some lb) !! k = Some v → actions v = Some a →
            ¬ scopeLocs h1 (Some l) a) as Hsep.
  { intros k v a Hk Ha (k' & v' & Hk' & Ha'). rewrite HreadA in Hk'.
    destruct (Hent k' v' Hk') as (_ & a' & Ha'' & Hnew). simplify_eq.
    apply Hnew. rewrite HreadB in Hk. by apply (proj2 Hvalid k v Hk). }
  destruct (merge_loop h1 l mA (rangeS (readScopes h1 (Some lb))) h1 HmA Halloc)
    as (h2 & Hmerge & Hinv & Hdone & _).
  { apply NoDup_rangeS_keys. }
  { intros k v Hin%elem_of_rangeS. split.
    - rewrite HreadB in Hin. by apply (Hkeyed k v).
    - intros a Ha. by apply (Hsep k v a). }
  { exists mA. split_and!; try done. intros a (k & t & Hk & Ha). split; [done|].
    destruct (Halloc k t Hk) as (a' & ? & ?). by simplify_eq. }
  destruct Hinv as (m' & Hm' & Hother' & Hsub' & _ & Hframe & Hgrow).
  assert (merge (Some l) (Some lb) h1 = Ret tt h2) as -> by exact Hmerge.
  assert (readScopes h2 (Some lb) = readScopes h1 (Some lb)) as HreadB2.
  { simpl. by rewrite Hother'. }
  assert (∀ k v, readScopes h1 (Some lb) !! k = Some v →
            readActions h2 (actions v) = readActions h1 (actions v)) as HactsB2.
  { intros k v Hk. eapply readActions_frame; [done|].
    intros a Ha. by apply (Hsep k v a). }
  exists l, h2. split_and!; [done|apply is_fresh| | | | |].
  - apply contains_spec. right. split; [done|]. intros k v. rewrite HreadB2.
    intros Hk. destruct (Hdone k v) as (e & He & Hsube); [by apply elem_of_rangeS|].
    exists e. split; [done|]. by rewrite (HactsB2 k v Hk).
  - intros s Hin. destruct (Hreq s Hin) as (e & He & Hsube).
    exists e. split.
    + simpl. rewrite Hm'. simpl. by eapply lookup_weaken.
    + etrans; [exact Hsube|]. destruct (actions e) as [a|] eqn:Ha; [|done].
      apply Hgrow. exists (scopeResource s), e. by rewrite HreadA.
  - rewrite <- HflatB. apply flatten_ext; [done|]. apply HactsB2.
  - pose proof (forM_final_inv (λ h, keyedByResource h (Some l))
                  (λ kv : string * tokenScope, add (Some l) kv.2)
                  (rangeS (readScopes h1 (Some lb))) h1) as Hk.
    rewrite Hmerge in Hk. apply Hk; [|done]. intros kv h'. apply add_keyed.
  - intros k v Hk. rewrite <- HreadB in Hk.
    destruct (Hdone k v) as (e & He & Hsube); [by apply elem_of_rangeS|].
    exists e. split; [done|]. rewrite <- (HactsB k v); [done|by rewrite <- HreadB].
Qed.

(** X12. When every scope string of the request has a colon and the scope set
    of the context is valid and stores its tokens under their resources,
    [getTokenScopes] returns a new set, itself keyed by resource, that
    contains the set of the context and covers every scope of the request;
    the set of the context is left as it was. *)
Theorem getTokenScopes_result ctx params h :
  validScopes h (getContextScopes ctx) →
  keyedByResource h (getContextScopes ctx) →
  List.find lacksColon (requestScopes params) = None →
  ∃ l hf,
    getTokenScopes ctx params h = Ret (inr (Some l)) hf
    ∧ (l ∉ dom (smaps h))
    ∧ contains hf (Some l) (getContextScopes ctx) = true
    ∧ (∀ s, s ∈ requestScopes params →
         ∃ e, readScopes hf (Some l) !! scopeResource s = Some e
              ∧ scopeActions s ⊆ readActions hf (actions e))
    ∧ flatten hf (getContextScopes ctx) = flatten h (getContextScopes ctx)
    ∧ keyedByResource hf (Some l).
Proof.
  intros Hvalid Hkeyed Hgood.
  destruct (getTokenScopes_run ctx params h Hvalid Hkeyed Hgood)
    as (l & hf & Hrun & Hl & Hcontains & Hreq & Hflat & Hk & _).
  by exists l, hf.
Qed.

End request_facts.

(** ** Contexts made by [contextWithRepositoryScope] *)
Section context_facts.
Context {O : MapRange}.
Variable url_Parse : string → error + URL.

Lemma covers_content hS s hO o :
  covers hS s hO o
  ↔ ∀ k X, content hO o !! k = Some X →
           ∃ Y, content hS s !! k = Some Y ∧ X ⊆ Y.
Proof.
  unfold covers. split.
  - intros H k X HX. rewrite content_lookup in HX.
    destruct (readScopes hO o !! k) as [v|] eqn:E; [|done]. injection HX as <-.
    destruct (H k v E) as (e & He & Hsub).
    exists (readActions hS (actions e)). by rewrite content_lookup, He.
  - intros H k v Hk. destruct (H k (readActions hO (actions v))) as (Y & HY & Hsub).
    { by rewrite content_lookup, Hk. }
    rewrite content_lookup in HY.
    destruct (readScopes hS s !! k) as [e|] eqn:E; [|done]. injection HY as <-.
    by exists e.
Qed.

Lemma apart_content h0 S h l' : apart h0 S h l' → content h S = content h0 S.
Proof.
  intros (_ & Hread & Hkeep & _). unfold content. rewrite Hread.
  apply map_fmap_ext. intros k t Hk.
  destruct (actions t) as [a|] eqn:Ha; [|done]. simpl.
  rewrite Hkeep; [done|]. by exists k, t.
Qed.

Lemma add_valid s t h S :
  validToken h t → validScopes h S → validScopes (finalHeap (add s t h)) S.
Proof.
  intros Ht HS. destruct s as [l|]; [|by rewrite add_nil].
  destruct (readScopes h (Some l) !! resource t) as [mt|] eqn:Hlook.
  - destruct (actions mt) as [a|] eqn:Ha.
    + rewrite (add_present_any l t mt a) by done.
      case_decide; [done|]. simpl. destruct HS as [Hl Hv]. split; [done|].
      intros k v Hk b Hb. simpl. rewrite dom_insert. apply elem_of_union_r.
      by apply (Hv k v).
    + rewrite (add_present_nil l t mt) by done. by case_decide.
  - rewrite add_absent by done. simpl. destruct HS as [Hl Hv]. split.
    + intros l0 ->. simpl. rewrite dom_insert. destruct (decide (l = l0)) as [->|Hne].
      * set_solver.
      * apply elem_of_union_r. by apply Hl.
    + destruct S as [l0|]; [|done]. simpl.
      destruct (decide (l = l0)) as [<-|Hne].
      * rewrite lookup_insert_eq. simpl. by apply map_Forall_insert_2.
      * by rewrite lookup_insert_ne.
Qed.

(** Adding a token with an action map to a set whose tokens have action maps
    of their own. *)
Lemma add_to_own l' h mc ts :
  smaps h !! l' = Some mc →
  ownActions h mc →
  (∀ k v, mc !! k = Some v → actions v ≠ None) →
  validToken h ts →
  actions ts ≠ None →
  ∃ h', add (Some l') ts h = Ret tt h'
        ∧ content h' (Some l')
          = absorb (resource ts) (readActions h (actions ts)) (content h (Some l'))
        ∧ validScopes h' (Some l')
        ∧ allocatedActions h' (Some l')
        ∧ (keyedByResource h (Some l') → keyedByResource h' (Some l')).
Proof.
  intros Hmc Hown Hnonnil Hts Hsome.
  destruct (add_content_own l' h mc ts Hmc Hown Hnonnil) as (h' & Hadd & Hcont).
  exists h'. split_and!; [done|done| | |].
  - pose proof (add_valid (Some l') ts h (Some l') Hts) as Hv.
    rewrite Hadd in Hv. apply Hv. split.
    + intros ? [= <-]. apply elem_of_dom. by exists mc.
    + simpl. rewrite Hmc. intros k v Hk a Ha. by eapply (proj1 Hown).
  - assert (validScopes h' (Some l')) as [_ Hv].
    { pose proof (add_valid (Some l') ts h (Some l') Hts) as Hv.
      rewrite Hadd in Hv. apply Hv. split.
      + intros ? [= <-]. apply elem_of_dom. by exists mc.
      + simpl. rewrite Hmc. intros k v Hk a Ha. by eapply (proj1 Hown). }
    pose proof (add_frame l' ts h) as (_ & _ & Hin). rewrite Hadd in Hin.
    intros k v Hk.
    assert (actions v ≠ None) as Hne.
    { destruct (Hin k v Hk) as [Hold| ->]; [|done].
      apply (Hnonnil k v). simpl in Hold. by rewrite Hmc in Hold. }
    destruct (actions v) as [a|] eqn:Ha; [|done]. exists a. split; [done|].
    by apply (Hv k v Hk).
  - intros Hk. pose proof (add_keyed (Some l') ts h (Some l') Hk) as Hk'.
    by rewrite Hadd in Hk'.
Qed.

(** What [contextWithRepositoryScope] returns when the locator parses. *)
Lemma contextWithRepositoryScope_run ctx refspec push h u :
  validScopes h (getContextScopes ctx) →
  allocatedActions h (getContextScopes ctx) →
  url_Parse ("dummy://" +:+ Locator refspec) = inr u →
  ∃ l' h',
    contextWithRepositoryScope url_Parse ctx refspec push h
    = Ret (inr (WithValue ctx tokenScopesKey (VtokenScopes (Some l')))) h'
    ∧ content h' (Some l')
      = absorb ("repository:" +:+ TrimPrefix (Path u) "/")
          (repositoryActions push) (content h (getContextScopes ctx))
    ∧ content h' (getContextScopes ctx) = content h (getContextScopes ctx)
    ∧ validScopes h' (Some l')
    ∧ allocatedActions h' (Some l')
    ∧ (keyedByResource h (getContextScopes ctx) → keyedByResource h' (Some l')).
Proof.
  intros Hvalid Halloc Hparse.
  rewrite contextWithRepositoryScope_unfold.
  rewrite (repositoryScope_run _ _ _ _ _ Hparse).
  set (b0 := fresh (dom (amaps h))).
  set (ts := TokenScope ("repository:" +:+ TrimPrefix (Path u) "/") (Some b0)).
  assert (b0 ∉ dom (amaps h)) as Hb0 by apply is_fresh.
  destruct (alloc_actions_frame h b0 (repositoryActions push) _ Hvalid Hb0)
    as (Hvalid1 & Hread1 & Hflat1 & Hcont1 & Hnotin & Halloc1).
  specialize (Halloc1 Halloc).
  set (h1 := Heap (<[b0 := repositoryActions push]> (amaps h)) (smaps h)) in *.
  assert (readActions h1 (actions ts) = repositoryActions push) as Hts.
  { simpl. by rewrite lookup_insert_eq. }
  assert (b0 ∈ dom (amaps h1)) as Hb1.
  { simpl. rewrite dom_insert. set_solver. }
  destruct (getContextScopes ctx) as [l|] eqn:Hparent.
  - destruct (clone_Some l h1 Hvalid1)
      as (l' & h2 & mc & Hrun & Hl' & Hs & Hsub & Hnone & Hsome & Hown).
    rewrite Hrun.
    assert (smaps h2 !! l' = Some mc) as Hmc by (by rewrite Hs, lookup_insert_eq).
    assert (apart h1 (Some l) h2 l') as Hap.
    { apply (clone_apart l h1 l' h2 mc); try done. intros k v b Hk Hb.
      by destruct (clone_fresh_actions l h1 h2 mc k v b Hnone Hsome Hk Hb). }
    assert (apart h1 (Some l) (finalHeap (add (Some l') ts h2)) l') as Hap'.
    { apply add_apart; [done|]. by intros a [= <-]. }
    destruct (add_to_own l' h2 mc ts Hmc Hown)
      as (h3 & Hadd & Hcont & Hv3 & Ha3 & Hk3); [| |done|].
    { intros k v Hk Hnil.
      destruct (readScopes h1 (Some l) !! k) as [v0|] eqn:Hk0;
        [|by rewrite (Hnone k Hk0) in Hk].
      destruct (Hsome k v0 Hk0) as (v' & Hv' & _ & _ & Hiff & _).
      simplify_eq. apply Hiff in Hnil.
      destruct (Halloc1 k v0 Hk0) as (a & Ha & _). congruence. }
    { intros a [= <-]. apply elem_of_dom.
      apply elem_of_dom in Hb1 as [X HX]. exists X. by eapply lookup_weaken. }
    rewrite Hadd in Hap'. simpl in Hap'. rewrite Hadd.
    exists l', h3. split_and!; [done| | |done|done|].
    + rewrite Hcont, <- Hcont1.
      rewrite (clone_content l l' h1 h2 mc Hmc Hnone Hsome).
      f_equal. simpl actions.
      by rewrite (readActions_subseteq h1 h2 b0 Hsub).
    + rewrite <- Hcont1. by apply (apart_content h1 (Some l) h3 l').
    + intros Hkeyed. apply Hk3. unfold keyedByResource. simpl. rewrite Hmc. simpl.
      intros k v Hk.
      destruct (readScopes h1 (Some l) !! k) as [v0|] eqn:Hk0;
        [|by rewrite (Hnone k Hk0) in Hk].
      destruct (Hsome k v0 Hk0) as (v' & Hv' & Hres & _).
      simplify_eq. rewrite Hres. rewrite Hread1 in Hk0. by apply (Hkeyed k v0).
  - rewrite clone_nil. cbv zeta.
    set (l' := fresh (dom (smaps h1))).
    set (h2 := Heap (amaps h1) (<[l' := ∅]> (smaps h1))).
    assert (smaps h2 !! l' = Some ∅) as Hmc by (by simpl; rewrite lookup_insert_eq).
    destruct (add_to_own l' h2 ∅ ts Hmc)
      as (h3 & Hadd & Hcont & Hv3 & Ha3 & Hk3); [done|done| |done|].
    { by intros a [= <-]. }
    rewrite Hadd. exists l', h3. split_and!; [done| |done|done|done|].
    + rewrite Hcont. f_equal; [done|].
      unfold content. simpl. rewrite lookup_insert_eq. simpl.
      by rewrite !fmap_empty.
    + intros _. apply Hk3. unfold keyedByResource. simpl.
      rewrite lookup_insert_eq. simpl. apply map_Forall_empty.
Qed.

(** X13. When the locator parses and the scope set of the parent context is
    valid with an action map in every token, [contextWithRepositoryScope]
    returns a context whose scope set contains the set of the parent and
    grants the repository scope; that set is again valid with an action map
    in every token, so the call can be repeated on the returned context. *)
Theorem contextWithRepositoryScope_widens ctx refspec push h u :
  validScopes h (getContextScopes ctx) →
  allocatedActions h (getContextScopes ctx) →
  url_Parse ("dummy://" +:+ Locator refspec) = inr u →
  ∃ ctx' h',
    contextWithRepositoryScope url_Parse ctx refspec push h = Ret (inr ctx') h'
    ∧ contains h' (getContextScopes ctx') (getContextScopes ctx) = true
    ∧ (∃ e, readScopes h' (getContextScopes ctx')
              !! ("repository:" +:+ TrimPrefix (Path u) "/") = Some e
            ∧ repositoryActions push ⊆ readActions h' (actions e))
    ∧ validScopes h' (getContextScopes ctx')
    ∧ allocatedActions h' (getContextScopes ctx').
Proof.
  intros Hvalid Halloc Hparse.
  destruct (contextWithRepositoryScope_run ctx refspec push h u Hvalid Halloc Hparse)
    as (l' & h' & Hrun & Hcont & Hparent & Hv & Ha & _).
  exists (WithValue ctx tokenScopesKey (VtokenScopes (Some l'))), h'.
  change (getContextScopes (WithValue ctx tokenScopesKey (VtokenScopes (Some l'))))
    with (Some l').
  split_and!; [done| | |done|done].
  - apply contains_spec. right. split; [done|]. apply covers_content.
    intros k X HX. rewrite Hparent in HX. rewrite Hcont. by apply absorb_mono.
  - assert (∃ Y, content h' (Some l') !! ("repository:" +:+ TrimPrefix (Path u) "/")
                 = Some Y ∧ repositoryActions push ⊆ Y) as (Y & HY & Hsub).
    { rewrite Hcont. unfold absorb. rewrite lookup_insert_eq.
      eexists. split; [done|]. apply union_subseteq_l. }
    rewrite content_lookup in HY.
    destruct (readScopes h' (Some l') !! _) as [e|]; [|done].
    exists e. split; [done|]. by injection HY as <-.
Qed.

(** X14. A request made under a context returned by
    [contextWithRepositoryScope] asks for the repository scope and for every
    scope of the parent context: [getTokenScopes] on the returned context
    returns a set that holds the repository resource with the repository
    actions and covers the set of the parent. *)
Theorem request_includes_repository_scope ctx refspec push params h u :
  validScopes h (getContextScopes ctx) →
  allocatedActions h (getContextScopes ctx) →
  keyedByResource h (getContextScopes ctx) →
  url_Parse ("dummy://" +:+ Locator refspec) = inr u →
  List.find lacksColon (requestScopes params) = None →
  ∃ ctx' h1 l hf,
    contextWithRepositoryScope url_Parse ctx refspec push h = Ret (inr ctx') h1
    ∧ getTokenScopes ctx' params h1 = Ret (inr (Some l)) hf
    ∧ (∃ e, readScopes hf (Some l)
              !! ("repository:" +:+ TrimPrefix (Path u) "/") = Some e
            ∧ repositoryActions push ⊆ readActions hf (actions e))
    ∧ covers hf (Some l) h (getContextScopes ctx).
Proof.
  intros Hvalid Halloc Hkeyed Hparse Hgood.
  destruct (contextWithRepositoryScope_run ctx refspec push h u Hvalid Halloc Hparse)
    as (l' & h1 & Hrun & Hcont & Hparent & Hv & Ha & Hk).
  set (ctx' := WithValue ctx tokenScopesKey (VtokenScopes (Some l'))) in *.
  destruct (getTokenScopes_run ctx' params h1)
    as (l & hf & Hget & _ & _ & _ & _ & _ & Hcov); [done|by apply Hk|done|].
  change (getContextScopes ctx') with (Some l') in Hcov.
  rewrite covers_content in Hcov.
  exists ctx', h1, l, hf. split_and!; [done|done| |].
  - destruct (Hcov ("repository:" +:+ TrimPrefix (Path u) "/")
                (repositoryActions push
                 ∪ default ∅ (content h (getContextScopes ctx)
                               !! ("repository:" +:+ TrimPrefix (Path u) "/"))))
      as (Y & HY & Hsub).
    { rewrite Hcont. unfold absorb. by rewrite lookup_insert_eq. }
    rewrite content_lookup in HY.
    destruct (readScopes hf (Some l) !! _) as [e|]; [|done].
    exists e. split; [done|]. injection HY as <-. set_solver.
  - apply covers_content. intros k X HX.
    destruct (absorb_mono ("repository:" +:+ TrimPrefix (Path u) "/")
                (repositoryActions push) _ k X HX) as (X' & HX' & Hsub').
    rewrite <- Hcont in HX'. destruct (Hcov k X' HX') as (Y & HY & HsubY).
    exists Y. split; [done|]. by etrans.
Qed.

End context_facts.

(** ** The theorems above, on stores that can be run *)

(** The action map [{push}] is added to the set that holds [{pull}] for the
    same resource. *)
Lemma add_covers_token_witness :
  let h := Examples.fooPullAndPush in
  let ts := TokenScope "repository:foo" (Some 2%positive) in
  let h' := finalHeap (add (O:=canonicalRange) (Some 1%positive) ts h) in
  ∃ e, readScopes h' (Some 1%positive) !! resource ts = Some e
       ∧ readActions h (actions ts) ⊆ readActions h' (actions e).
Proof.
  intros h ts h'.
  apply (add_covers_token (O:=canonicalRange) (Some 1%positive) ts h h').
  vm_compute. reflexivity.
Defined.

(** The set 1 holds a token with a nil action map for the resource. *)
Lemma add_panics_iff_witness :
  ∃ h', add (O:=canonicalRange) (Some 1%positive)
          (TokenScope "repository:foo" (Some 1%positive)) Examples.nilActionsAndPull
        = Panic h'.
Proof.
  apply (proj2 (proj1 (add_panics_iff (O:=canonicalRange) (Some 1%positive)
                         (TokenScope "repository:foo" (Some 1%positive))
                         Examples.nilActionsAndPull))).
  right. exists (TokenScope "repository:foo" None). split_and!.
  - vm_compute. reflexivity.
  - reflexivity.
  - apply (bool_decide_unpack _). by vm_compute.
Defined.

Lemma add_merge_keep_keyed_witness :
  keyedByResource
    (finalHeap (merge (O:=canonicalRange) (Some 1%positive) (Some 2%positive)
                  Examples.twoSets))
    (Some 1%positive).
Proof.
  apply (add_merge_keep_keyed (O:=canonicalRange) (Some 1%positive)
           (TokenScope "repository:bar" (Some 2%positive)) (Some 2%positive) []
           Examples.twoSets (Some 1%positive)).
  assert (readScopes Examples.twoSets (Some 1%positive)
          = {[ "repository:foo" := TokenScope "repository:foo" (Some 1%positive) ]})
    as E1 by (vm_compute; reflexivity).
  unfold keyedByResource. rewrite E1. by apply map_Forall_singleton.
Defined.

Lemma add_idempotent_witness :
  let h := Examples.fooPullAndPush in
  let ts := TokenScope "repository:foo" (Some 2%positive) in
  let h1 := finalHeap (add (O:=canonicalRange) (Some 1%positive) ts h) in
  add (O:=canonicalRange) (Some 1%positive) ts h1 = Ret tt h1.
Proof.
  intros h ts h1.
  apply (add_idempotent (O:=canonicalRange) (Some 1%positive) ts h h1).
  vm_compute. reflexivity.
Defined.

Lemma merge_self_witness :
  merge (O:=canonicalRange) (Some 1%positive) (Some 1%positive) Examples.twoSets
  = Ret tt Examples.twoSets.
Proof.
  apply (merge_self (O:=canonicalRange) (Some 1%positive) Examples.twoSets).
  assert (readScopes Examples.twoSets (Some 1%positive)
          = {[ "repository:foo" := TokenScope "repository:foo" (Some 1%positive) ]})
    as E1 by (vm_compute; reflexivity).
  unfold keyedByResource. rewrite E1. by apply map_Forall_singleton.
Defined.


Lemma clone_same_flatten_witness :
  ∃ S' h1,
    clone (O:=canonicalRange) (Some 1%positive) Examples.fooPull = Ret S' h1
    ∧ flatten (O:=canonicalRange) h1 S'
      = flatten (O:=canonicalRange) Examples.fooPull (Some 1%positive).
Proof.
  assert (readScopes Examples.fooPull (Some 1%positive)
          = {[ "repository:foo" := TokenScope "repository:foo" (Some 1%positive) ]})
    as E1 by (vm_compute; reflexivity).
  destruct (clone_same_flatten (O:=canonicalRange) Examples.fooPull (Some 1%positive))
    as (S' & h1 & Hrun & Hflat & _).
  - split.
    + intros l [= <-]. apply (bool_decide_unpack _). by vm_compute.
    + rewrite E1. apply map_Forall_singleton. intros a [= <-].
      apply (bool_decide_unpack _). by vm_compute.
  - exists S', h1. split; assumption.
Defined.

Lemma parseTokenScope_outcome_witness :
  ∃ l, parseTokenScope "repository:org/name:pull,push" emptyHeap
       = Ret (inr (TokenScope "repository:org/name" (Some l)))
             (Heap (<[l := {["pull"; "push"]}]> (amaps emptyHeap)) (smaps emptyHeap)).
Proof.
  destruct (proj2 (parseTokenScope_outcome "repository:org/name:pull,push" emptyHeap)
              eq_refl) as (l & _ & Hrun & _).
  exists l. rewrite Hrun. f_equal.
Defined.

Lemma parse_String_of_parsed_witness :
  let s := "repository:org/name:push,pull" in
  let t := TokenScope "repository:org/name" (Some 1%positive) in
  let h1 := finalHeap (parseTokenScope s emptyHeap) in
  ∃ l h2,
    parseTokenScope (tokenScope_String (O:=canonicalRange) h1 t) h1
      = Ret (inr (TokenScope "repository:org/name" (Some l))) h2
    ∧ readActions h2 (Some l) = readActions h1 (Some 1%positive).
Proof.
  intros s t h1.
  apply (parse_String_of_parsed (O:=canonicalRange) s emptyHeap t h1).
  vm_compute. reflexivity.
Defined.

(** An empty [scope] parameter. *)
Lemma getTokenScopes_error_witness :
  ∃ h', getTokenScopes (O:=canonicalRange)
          (WithValue Background tokenScopesKey (VtokenScopes (Some 1%positive)))
          (Some {[ "scope" := "" ]}) Examples.fooPull
        = Ret (inl (notAValidTokenScope "")) h'.
Proof.
  destruct (getTokenScopes_error (O:=canonicalRange)
              (WithValue Background tokenScopesKey (VtokenScopes (Some 1%positive)))
              (Some {[ "scope" := "" ]}) Examples.fooPull "")
    as (h' & Hrun & _).
  - vm_compute. reflexivity.
  - by exists h'.
Defined.

(** A request for two scopes under a context that holds [repository:foo]. *)
Lemma getTokenScopes_result_witness :
  ∃ l hf,
    getTokenScopes (O:=canonicalRange)
      (WithValue Background tokenScopesKey (VtokenScopes (Some 1%positive)))
      (Some {[ "scope" := "repository:bar:pull repository:foo:push,pull" ]})
      Examples.fooPull
    = Ret (inr (Some l)) hf
    ∧ contains (O:=canonicalRange) hf (Some l) (Some 1%positive) = true.
Proof.
  assert (readScopes Examples.fooPull (Some 1%positive)
          = {[ "repository:foo" := TokenScope "repository:foo" (Some 1%positive) ]})
    as E1 by (vm_compute; reflexivity).
  destruct (getTokenScopes_result (O:=canonicalRange)
              (WithValue Background tokenScopesKey (VtokenScopes (Some 1%positive)))
              (Some {[ "scope" := "repository:bar:pull repository:foo:push,pull" ]})
              Examples.fooPull)
    as (l & hf & Hrun & _ & Hc & _).
  - split.
    + intros l [= <-]. apply (bool_decide_unpack _). by vm_compute.
    + change (getContextScopes _) with (Some 1%positive). rewrite E1.
      apply map_Forall_singleton. intros a [= <-].
      apply (bool_decide_unpack _). by vm_compute.
  - change (getContextScopes _) with (Some 1%positive).
    unfold keyedByResource. rewrite E1. by apply map_Forall_singleton.
  - vm_compute. reflexivity.
  - exists l, hf. split; assumption.
Defined.

(** The context holds [repository:foo]; the locator is
    [registry.example.com/org/name]. *)
Lemma contextWithRepositoryScope_widens_witness :
  ∃ ctx' h',
    contextWithRepositoryScope (O:=canonicalRange) Examples.plainParse
      (WithValue Background tokenScopesKey (VtokenScopes (Some 1%positive)))
      {| Locator := "registry.example.com/org/name"; Object := "v1" |} true
      Examples.fooPull
    = Ret (inr ctx') h'
    ∧ contains (O:=canonicalRange) h' (getContextScopes ctx') (Some 1%positive) = true.
Proof.
  assert (readScopes Examples.fooPull (Some 1%positive)
          = {[ "repository:foo" := TokenScope "repository:foo" (Some 1%positive) ]})
    as E1 by (vm_compute; reflexivity).
  destruct (contextWithRepositoryScope_widens (O:=canonicalRange) Examples.plainParse
              (WithValue Background tokenScopesKey (VtokenScopes (Some 1%positive)))
              {| Locator := "registry.example.com/org/name"; Object := "v1" |} true
              Examples.fooPull
              {| Host := "registry.example.com"; Path := "/org/name" |})
    as (ctx' & h' & Hrun & Hc & _).
  - split.
    + intros l [= <-]. apply (bool_decide_unpack _). by vm_compute.
    + change (getContextScopes _) with (Some 1%positive). rewrite E1.
      apply map_Forall_singleton. intros a [= <-].
      apply (bool_decide_unpack _). by vm_compute.
  - change (getContextScopes _) with (Some 1%positive).
    unfold allocatedActions. rewrite E1. apply map_Forall_singleton.
    eexists. split; [reflexivity|]. apply (bool_decide_unpack _). by vm_compute.
  - reflexivity.
  - exists ctx', h'. split; assumption.
Defined.

Lemma request_includes_repository_scope_witness :
  ∃ ctx' h1 l hf,
    contextWithRepositoryScope (O:=canonicalRange) Examples.plainParse
      (WithValue Background tokenScopesKey (VtokenScopes (Some 1%positive)))
      {| Locator := "registry.example.com/org/name"; Object := "v1" |} false
      Examples.fooPull
    = Ret (inr ctx') h1
    ∧ getTokenScopes (O:=canonicalRange) ctx'
        (Some {[ "scope" := "repository:bar:pull" ]}) h1
      = Ret (inr (Some l)) hf
    ∧ ∃ e, readScopes hf (Some l) !! "repository:org/name" = Some e
           ∧ {["pull"]} ⊆ readActions hf (actions e).
Proof.
  assert (readScopes Examples.fooPull (Some 1%positive)
          = {[ "repository:foo" := TokenScope "repository:foo" (Some 1%positive) ]})
    as E1 by (vm_compute; reflexivity).
  destruct (request_includes_repository_scope (O:=canonicalRange) Examples.plainParse
              (WithValue Background tokenScopesKey (VtokenScopes (Some 1%positive)))
              {| Locator := "registry.example.com/org/name"; Object := "v1" |} false
              (Some {[ "scope" := "repository:bar:pull" ]})
              Examples.fooPull
              {| Host := "registry.example.com"; Path := "/org/name" |})
    as (ctx' & h1 & l & hf & Hrun & Hget & He & _).
  - split.
    + intros l [= <-]. apply (bool_decide_unpack _). by vm_compute.
    + change (getContextScopes _) with (Some 1%positive). rewrite E1.
      apply map_Forall_singleton. intros a [= <-].
      apply (bool_decide_unpack _). by vm_compute.
  - change (getContextScopes _) with (Some 1%positive).
    unfold allocatedActions. rewrite E1. apply map_Forall_singleton.
    eexists. split; [reflexivity|]. apply (bool_decide_unpack _). by vm_compute.
  - change (getContextScopes _) with (Some 1%positive).
    unfold keyedByResource. rewrite E1. by apply map_Forall_singleton.
  - reflexivity.
  - vm_compute. reflexivity.
  - exists ctx', h1, l, hf. split_and!; assumption.
Defined.

End ScopeFacts.


(** * Facts about the pusher *)
Module PushFacts.
Import Push.

Section push_facts.
Context {World : Type} (resolver : Resolver World).
Context {Bundle BundleConfig : Type}.
Variable CreateBundleConfig : Bundle → BundleConfig.
Variable PrepareForPush : BundleConfig → error + PreparedBundleConfig.
Variable ConvertBundleToOCIIndex : Bundle → Named → Descriptor → error + Index.
Variable json_Marshal_Index : Index → error + bytes.
Variable json_Marshal_Wrapper : ociIndexWrapper → error + bytes.
Variable digest_FromBytes : bytes → string.

Local Abbreviation pushPayload := (Push.pushPayload resolver).
Local Abbreviation pushBundleConfig := (Push.pushBundleConfig resolver).
Local Abbreviation reportsAlreadyExists := (Push.reportsAlreadyExists resolver).
Local Abbreviation tried := (Push.tried resolver).
Local Abbreviation convertIndexAndApplyOptions :=
  (Push.convertIndexAndApplyOptions ConvertBundleToOCIIndex).
Local Abbreviation prepareIndex :=
  (Push.prepareIndex ConvertBundleToOCIIndex json_Marshal_Index digest_FromBytes).
Local Abbreviation prepareIndexNonOCI :=
  (Push.prepareIndexNonOCI ConvertBundleToOCIIndex json_Marshal_Wrapper digest_FromBytes).
Local Abbreviation Push :=
  (Push.Push resolver CreateBundleConfig PrepareForPush ConvertBundleToOCIIndex
     json_Marshal_Index json_Marshal_Wrapper digest_FromBytes).

Lemma PreparedBundleConfig_chain_ind (P : PreparedBundleConfig → Prop) :
  (∀ c, (∀ fb, Fallback c = Some fb → P fb) → P c) → ∀ c, P c.
Proof.
  intros step. fix IH 1. intros c. apply step.
  destruct c as [blob bd man md [fb|]]; simpl; intros fb' E.
  - injection E as <-. apply IH.
  - discriminate.
Qed.

Lemma pushBundleConfig_unfold reference c allowFallbacks w :
  pushBundleConfig reference c allowFallbacks w =
  match pushPayload reference (ConfigBlobDescriptor c) (ConfigBlob c) w with
  | (w, Some err) =>
      match Fallback c with
      | Some fb =>
          if allowFallbacks then pushBundleConfig reference fb allowFallbacks w
          else (w, inl err)
      | None => (w, inl err)
      end
  | (w, None) =>
      match pushPayload reference (ManifestDescriptor c) (Manifest c) w with
      | (w, Some err) =>
          match Fallback c with
          | Some fb =>
              if allowFallbacks then pushBundleConfig reference fb allowFallbacks w
              else (w, inl err)
          | None => (w, inl err)
          end
      | (w, None) => (w, inr (ManifestDescriptor c))
      end
  end.
Proof. destruct c; reflexivity. Qed.

(** An error that comes out of [pushPayload] either stems from resolving the
    pusher or does not have "already exists" as its cause. *)
Lemma pushPayload_error reference d payload w w' err :
  pushPayload reference d payload w = (w', Some err) →
  resolver_Pusher resolver reference w = (w', inl err)
  ∨ causeIsAlreadyExists err = false.
Proof.
  unfold pushPayload.
  destruct (resolver_Pusher resolver reference w) as [w1 [e|pusher]].
  { intros [= <- <-]. by left. }
  destruct (pusher_Push resolver pusher d w1) as [w2 [e|writer]].
  { destruct (causeIsAlreadyExists e) eqn:E; intros [= <- <-]. by right. }
  destruct (writer_Write resolver writer payload w2) as [w3 [e|]].
  { destruct (causeIsAlreadyExists e) eqn:E; intros [= <- <-]. by right. }
  destruct (writer_Commit resolver writer (Size d) (Digest d) w3) as [w4 [e|]];
    [|done].
  destruct (causeIsAlreadyExists e) eqn:E; intros [= <- <-]. by right.
Qed.

Lemma pushPayload_already_exists reference d payload w w' :
  reportsAlreadyExists reference d payload w w' →
  pushPayload reference d payload w = (w', None).
Proof.
  unfold pushPayload.
  intros [pusher w1 err HP HS HC
         |pusher writer w1 w2 w3 err HP HS HW HC ->
         |pusher writer w1 w2 w3 w4 err HP HS HW HK HC ->].
  - by rewrite HP, HS, HC.
  - by rewrite HP, HS, HW, HC.
  - by rewrite HP, HS, HW, HK, HC.
Qed.

(** C1. At every push site, a transport that reports "already exists" as the
    cause of the failure (when the writer is requested, at the payload write
    or at commit) makes [pushPayload] return nil. For the bundle config: when
    both the blob push and the manifest push report it, [pushBundleConfig]
    returns the manifest descriptor of the first representation, and the
    world it leaves is the one left by these two pushes: whatever [Fallback]
    holds, it is not tried. The same holds where [Push] pushes the OCI index
    and where it pushes the manifest list. *)
Theorem already_exists_is_success :
  (∀ reference d payload w w',
     reportsAlreadyExists reference d payload w w' →
     pushPayload reference d payload w = (w', None))
  ∧ (∀ reference c allowFallbacks w w1 w2,
     reportsAlreadyExists reference (ConfigBlobDescriptor c) (ConfigBlob c) w w1 →
     reportsAlreadyExists reference (ManifestDescriptor c) (Manifest c) w1 w2 →
     pushBundleConfig reference c allowFallbacks w = (w2, inr (ManifestDescriptor c)))
  ∧ (∀ b ref allowFallbacks options c w w1 confDescriptor d p w2,
     PrepareForPush (CreateBundleConfig b) = inr c →
     pushBundleConfig (Name ref) c allowFallbacks w = (w1, inr confDescriptor) →
     prepareIndex b ref confDescriptor options = inr (d, p) →
     reportsAlreadyExists (FullString ref) d p w1 w2 →
     Push b ref allowFallbacks options w = (w2, inr d))
  ∧ (∀ b ref options c w w1 confDescriptor d p w2 err d' p' w3,
     PrepareForPush (CreateBundleConfig b) = inr c →
     pushBundleConfig (Name ref) c true w = (w1, inr confDescriptor) →
     prepareIndex b ref confDescriptor options = inr (d, p) →
     pushPayload (FullString ref) d p w1 = (w2, Some err) →
     prepareIndexNonOCI b ref confDescriptor options = inr (d', p') →
     reportsAlreadyExists (FullString ref) d' p' w2 w3 →
     Push b ref true options w = (w3, inr d')).
Proof.
  split_and!.
  - apply pushPayload_already_exists.
  - intros reference c allowFallbacks w w1 w2 Hb Hm.
    rewrite pushBundleConfig_unfold.
    by rewrite (pushPayload_already_exists _ _ _ _ _ Hb),
               (pushPayload_already_exists _ _ _ _ _ Hm).
  - intros b ref allowFallbacks options c w w1 cd d p w2 Hprep Hcfg Hix Hex.
    unfold Push. rewrite Hprep, Hcfg, Hix.
    by rewrite (pushPayload_already_exists _ _ _ _ _ Hex).
  - intros b ref options c w w1 cd d p w2 err d' p' w3 Hprep Hcfg Hix Hfail Hix' Hex.
    unfold Push. rewrite Hprep, Hcfg, Hix, Hfail. simpl. rewrite Hix'.
    by rewrite (pushPayload_already_exists _ _ _ _ _ Hex).
Qed.

(** C2. [Push] once the config is pushed and the OCI index is prepared, when
    the index push returns an error (one that "already exists" did not
    absorb). Without fallback the error is returned and the world is the one
    the failed push left: nothing else is attempted. With fallback, the index
    is rebuilt to the same [ix] whose encoding was the first payload, wrapped
    as a manifest list (same manifests and annotations, schema version 2,
    Docker manifest-list media type); when the wrapper encodes to [p2], the
    descriptor is recomputed from [p2] and exactly one more [pushPayload]
    runs, from the world the failed push left: its error is returned, or else
    the manifest-list descriptor. When the wrapper does not encode, the
    encoder's error is returned without a retry. *)
Theorem index_push_fallback b ref allowFallbacks options c w w1 confDescriptor
    d1 p1 w2 err :
  PrepareForPush (CreateBundleConfig b) = inr c →
  pushBundleConfig (Name ref) c allowFallbacks w = (w1, inr confDescriptor) →
  prepareIndex b ref confDescriptor options = inr (d1, p1) →
  pushPayload (FullString ref) d1 p1 w1 = (w2, Some err) →
  (allowFallbacks = false →
     Push b ref allowFallbacks options w = (w2, inl err))
  ∧ (allowFallbacks = true →
     ∃ ix,
       convertIndexAndApplyOptions b ref confDescriptor options = inr ix
       ∧ json_Marshal_Index ix = inr p1
       ∧ Manifests (wrapped (manifestListWrapper ix)) = Manifests ix
       ∧ Annotations (wrapped (manifestListWrapper ix)) = Annotations ix
       ∧ SchemaVersion (wrapped (manifestListWrapper ix)) = 2
       ∧ wrapperMediaType (manifestListWrapper ix) = MediaTypeDockerSchema2ManifestList
       ∧ (∀ p2, json_Marshal_Wrapper (manifestListWrapper ix) = inr p2 →
            let d2 := {| Digest := digest_FromBytes p2;
                         MediaType := MediaTypeDockerSchema2ManifestList;
                         Size := Z.of_nat (length p2) |} in
            prepareIndexNonOCI b ref confDescriptor options = inr (d2, p2)
            ∧ Push b ref allowFallbacks options w =
                match pushPayload (FullString ref) d2 p2 w2 with
                | (w3, Some err2) => (w3, inl err2)
                | (w3, None) => (w3, inr d2)
                end)
       ∧ (∀ e, json_Marshal_Wrapper (manifestListWrapper ix) = inl e →
            Push b ref allowFallbacks options w =
              (w2, inl (Errorf "invalid bundle manifest %q: %s"
                          [ArgString (FullString ref); ArgError e])))).
Proof.
  intros Hprep Hcfg Hix Hfail. split.
  - intros ->. unfold Push. by rewrite Hprep, Hcfg, Hix, Hfail.
  - intros ->. unfold prepareIndex in Hix.
    destruct (convertIndexAndApplyOptions b ref confDescriptor options)
      as [e|ix] eqn:Hconv; [done|].
    destruct (json_Marshal_Index ix) as [e|p] eqn:Hm; [done|].
    injection Hix as <- <-.
    exists ix. split_and!; try done.
    + intros p2 Hp2 d2.
      assert (prepareIndexNonOCI b ref confDescriptor options = inr (d2, p2)) as Hn.
      { unfold prepareIndexNonOCI. by rewrite Hconv, Hp2. }
      split; [done|].
      unfold Push. rewrite Hprep, Hcfg. unfold prepareIndex.
      rewrite Hconv, Hm, Hfail. simpl. rewrite Hn.
      by destruct (pushPayload (FullString ref) d2 p2 w2) as [w3 [e2|]].
    + intros e He. unfold Push. rewrite Hprep, Hcfg. unfold prepareIndex.
      rewrite Hconv, Hm, Hfail. simpl. unfold prepareIndexNonOCI.
      by rewrite Hconv, He.
Qed.


End push_facts.

(** A registry that has everything: the two pushes of the first
    representation, nothing more. *)
Lemma already_exists_is_success_witness :
  pushBundleConfig (loggingResolver Demo.hasAll) (Name Demo.ref) Demo.ociConfig true []
  = (DemoRuns.logTwoPushes, inr (ManifestDescriptor Demo.ociConfig)).
Proof.
  eapply (proj1 (proj2 (already_exists_is_success (loggingResolver Demo.hasAll)
            Demo.createBundleConfig Demo.prepareForPush Demo.convert
            Demo.marshalIndex Demo.marshalWrapper Demo.digestOf))).
  - eapply exists_at_commit; reflexivity.
  - eapply exists_at_commit; reflexivity.
Defined.

(** A registry that refuses OCI indexes: without fallback the push stops
    there, with fallback the manifest list is pushed once. *)
Lemma index_push_fallback_witness :
  DemoRuns.push Demo.noIndex false
    = (DemoRuns.logIndexRefused, inl (ErrLeaf "unsupported manifest media type"))
  ∧ DemoRuns.push Demo.noIndex true
    = (DemoRuns.logIndexRefused ++
         [EvPusher (FullString Demo.ref); EvPush DemoRuns.manifestListDescriptor;
          EvWrite [Byte.x01; Byte.x02; Byte.x2c];
          EvCommit 3 "sha256:manifest-list"; EvClose],
       inr DemoRuns.manifestListDescriptor).
Proof.
  split.
  - eapply (index_push_fallback (loggingResolver Demo.noIndex)
              Demo.createBundleConfig Demo.prepareForPush Demo.convert
              Demo.marshalIndex Demo.marshalWrapper Demo.digestOf
              tt Demo.ref false [] Demo.ociConfig []); reflexivity.
  - destruct (index_push_fallback (loggingResolver Demo.noIndex)
              Demo.createBundleConfig Demo.prepareForPush Demo.convert
              Demo.marshalIndex Demo.marshalWrapper Demo.digestOf
              tt Demo.ref true [] Demo.ociConfig [] DemoRuns.logConfig
              (ManifestDescriptor Demo.ociConfig) DemoRuns.ociIndexDescriptor
              [Byte.x00; Byte.x2c] DemoRuns.logIndexRefused
              (ErrLeaf "unsupported manifest media type")
              eq_refl eq_refl eq_refl eq_refl) as [_ H].
    destruct (H eq_refl) as (ix & Hix & _ & _ & _ & _ & _ & Hretry & _).
    injection Hix as <-.
    exact (proj2 (Hretry _ eq_refl)).
Defined.


(** ** The calls [pushPayload], [pushBundleConfig] and [Push] make *)
Section call_facts.
Context {World : Type} (resolver : Resolver World).
Context {Bundle BundleConfig : Type}.
Variable CreateBundleConfig : Bundle → BundleConfig.
Variable PrepareForPush : BundleConfig → error + PreparedBundleConfig.
Variable ConvertBundleToOCIIndex : Bundle → Named → Descriptor → error + Index.
Variable json_Marshal_Index : Index → error + bytes.
Variable json_Marshal_Wrapper : ociIndexWrapper → error + bytes.
Variable digest_FromBytes : bytes → string.

Local Abbreviation convertIndexAndApplyOptions :=
  (Push.convertIndexAndApplyOptions ConvertBundleToOCIIndex).
Local Abbreviation prepareIndex :=
  (Push.prepareIndex ConvertBundleToOCIIndex json_Marshal_Index digest_FromBytes).
Local Abbreviation prepareIndexNonOCI :=
  (Push.prepareIndexNonOCI ConvertBundleToOCIIndex json_Marshal_Wrapper digest_FromBytes).
Local Abbreviation PushWith r :=
  (Push.Push r CreateBundleConfig PrepareForPush ConvertBundleToOCIIndex
     json_Marshal_Index json_Marshal_Wrapper digest_FromBytes).

Lemma pushes_app t1 t2 : pushes (t1 ++ t2) = (pushes t1 + pushes t2)%nat.
Proof. unfold pushes. by rewrite List.filter_app, length_app. Qed.

(** X15. The calls of one [pushPayload], on any resolver, by what the
    resolver answers. When no pusher is obtained, nothing else is called; when
    no writer is obtained, nothing is written, committed or closed. When a
    writer is obtained, the payload is written to it once and the writer is
    closed, once and last: right after a [Write] that returned an error,
    without a [Commit]; after a [Write] that returned nil, after one [Commit]
    with the size and the digest of the descriptor. The world left is the one
    [Close] of this writer leaves. Recording the calls changes neither the
    result nor the world. *)
Theorem pushPayload_calls reference d payload w log :
  ∃ t,
    pushPayload (traced resolver) reference d payload (w, log)
    = (((pushPayload resolver reference d payload w).1, log ++ t),
       (pushPayload resolver reference d payload w).2)
    ∧ match resolver_Pusher resolver reference w with
      | (_, inl _) => t = [EvPusher reference]
      | (w1, inr pusher) =>
          match pusher_Push resolver pusher d w1 with
          | (_, inl _) => t = [EvPusher reference; EvPush d]
          | (w2, inr writer) =>
              match writer_Write resolver writer payload w2 with
              | (w3, Some _) =>
                  t = [EvPusher reference; EvPush d; EvWrite payload; EvClose]
                  ∧ (pushPayload resolver reference d payload w).1
                    = writer_Close resolver writer w3
              | (w3, None) =>
                  t = [EvPusher reference; EvPush d; EvWrite payload;
                       EvCommit (Size d) (Digest d); EvClose]
                  ∧ (pushPayload resolver reference d payload w).1
                    = writer_Close resolver writer
                        (writer_Commit resolver writer (Size d) (Digest d) w3).1
              end
          end
      end.
Proof.
  unfold pushPayload. simpl.
  destruct (resolver_Pusher resolver reference w) as [w1 [e|pusher]]; simpl.
  { by exists [EvPusher reference]. }
  destruct (pusher_Push resolver pusher d w1) as [w2 [e|writer]]; simpl.
  { exists [EvPusher reference; EvPush d].
    rewrite <- !(assoc_L (++)). simpl.
    by destruct (causeIsAlreadyExists e). }
  destruct (writer_Write resolver writer payload w2) as [w3 [e|]]; simpl.
  { exists [EvPusher reference; EvPush d; EvWrite payload; EvClose].
    rewrite <- !(assoc_L (++)). simpl.
    by destruct (causeIsAlreadyExists e). }
  destruct (writer_Commit resolver writer (Size d) (Digest d) w3) as [w4 [e|]]; simpl;
    exists [EvPusher reference; EvPush d; EvWrite payload;
            EvCommit (Size d) (Digest d); EvClose];
    rewrite <- !(assoc_L (++)); simpl.
  - by destruct (causeIsAlreadyExists e).
  - done.
Qed.

Lemma pushPayload_traced reference d payload w log :
  ∃ t,
    pushPayload (traced resolver) reference d payload (w, log)
    = (((pushPayload resolver reference d payload w).1, log ++ t),
       (pushPayload resolver reference d payload w).2)
    ∧ pushes t = 1%nat.
Proof.
  unfold pushPayload. simpl.
  destruct (resolver_Pusher resolver reference w) as [w1 [e|pusher]]; simpl.
  { by exists [EvPusher reference]. }
  destruct (pusher_Push resolver pusher d w1) as [w2 [e|writer]]; simpl.
  { exists [EvPusher reference; EvPush d].
    rewrite <- !(assoc_L (++)). simpl.
    by destruct (causeIsAlreadyExists e). }
  destruct (writer_Write resolver writer payload w2) as [w3 [e|]]; simpl.
  { exists [EvPusher reference; EvPush d; EvWrite payload; EvClose].
    rewrite <- !(assoc_L (++)). simpl.
    by destruct (causeIsAlreadyExists e). }
  destruct (writer_Commit resolver writer (Size d) (Digest d) w3) as [w4 [e|]]; simpl;
    exists [EvPusher reference; EvPush d; EvWrite payload;
            EvCommit (Size d) (Digest d); EvClose];
    rewrite <- !(assoc_L (++)); simpl.
  - by destruct (causeIsAlreadyExists e).
  - done.
Qed.

Lemma chain_unfold c :
  chain c = c :: match Fallback c with Some fb => chain fb | None => [] end.
Proof. by destruct c. Qed.

Lemma pushBundleConfig_traced reference c allowFallbacks w log :
  ∃ t,
    pushBundleConfig (traced resolver) reference c allowFallbacks (w, log)
    = (((pushBundleConfig resolver reference c allowFallbacks w).1, log ++ t),
       (pushBundleConfig resolver reference c allowFallbacks w).2)
    ∧ (pushes t ≤ 2 * (if allowFallbacks then length (chain c) else 1))%nat.
Proof.
  revert w log. induction c as [c IH] using PreparedBundleConfig_chain_ind.
  intros w log. rewrite !pushBundleConfig_unfold, (chain_unfold c).
  assert (∀ wf t0 e, (pushes t0 ≤ 2)%nat →
    ∃ t,
      match Fallback c with
      | Some fb =>
          if allowFallbacks
          then pushBundleConfig (traced resolver) reference fb allowFallbacks
                 (wf, log ++ t0)
          else ((wf, log ++ t0), inl e)
      | None => ((wf, log ++ t0), inl e)
      end
      = ((match Fallback c with
          | Some fb =>
              if allowFallbacks
              then pushBundleConfig resolver reference fb allowFallbacks wf
              else (wf, inl e)
          | None => (wf, inl e)
          end).1, log ++ t,
         (match Fallback c with
          | Some fb =>
              if allowFallbacks
              then pushBundleConfig resolver reference fb allowFallbacks wf
              else (wf, inl e)
          | None => (wf, inl e)
          end).2)
      ∧ (pushes t
         ≤ 2 * (if allowFallbacks
                then length (c :: match Fallback c with
                                  | Some fb => chain fb
                                  | None => []
                                  end)
                else 1))%nat) as Hfb.
  { intros wf t0 e Ht0. destruct (Fallback c) as [fb|] eqn:Hf.
    - destruct allowFallbacks.
      + destruct (IH fb eq_refl wf (log ++ t0)) as (t & -> & Ht).
        exists (t0 ++ t). rewrite (assoc_L (++)). split; [done|].
        rewrite pushes_app. simpl in *. lia.
      + exists t0. split; [done|]. lia.
    - exists t0. split; [done|]. destruct allowFallbacks; simpl; lia. }
  destruct (pushPayload_traced reference (ConfigBlobDescriptor c) (ConfigBlob c) w log)
    as (t1 & -> & Ht1).
  destruct (pushPayload resolver reference (ConfigBlobDescriptor c) (ConfigBlob c) w)
    as [w1 [e|]]; simpl.
  { apply Hfb. lia. }
  destruct (pushPayload_traced reference (ManifestDescriptor c) (Manifest c) w1
              (log ++ t1)) as (t2 & -> & Ht2).
  destruct (pushPayload resolver reference (ManifestDescriptor c) (Manifest c) w1)
    as [w2 [e|]]; simpl.
  { rewrite <- (assoc_L (++)). apply Hfb. rewrite pushes_app. lia. }
  exists (t1 ++ t2). rewrite (assoc_L (++)). split; [done|].
  rewrite pushes_app. destruct allowFallbacks; simpl; lia.
Qed.

(** X16. [Push] makes at most two payload pushes for each representation of
    the bundle config that it may try (only the first one when fallbacks are
    not allowed), then one for the index and, when fallbacks are allowed, one
    more for the manifest list. Recording the calls changes neither the
    result nor the world. *)
Theorem Push_calls_bounded b ref allowFallbacks options c w log :
  PrepareForPush (CreateBundleConfig b) = inr c →
  ∃ t,
    PushWith (traced resolver) b ref allowFallbacks options (w, log)
    = (((PushWith resolver b ref allowFallbacks options w).1, log ++ t),
       (PushWith resolver b ref allowFallbacks options w).2)
    ∧ (pushes t ≤ if allowFallbacks then 2 * length (chain c) + 2 else 3)%nat.
Proof.
  intros Hprep. unfold Push.Push. rewrite Hprep.
  destruct (pushBundleConfig_traced (Name ref) c allowFallbacks w log)
    as (t0 & -> & Ht0).
  destruct (pushBundleConfig resolver (Name ref) c allowFallbacks w)
    as [w1 [e|confDescriptor]]; simpl.
  { exists t0. split; [done|]. destruct allowFallbacks; lia. }
  destruct (prepareIndex b ref confDescriptor options) as [e|[d1 p1]].
  { exists t0. split; [done|]. destruct allowFallbacks; lia. }
  destruct (pushPayload_traced (FullString ref) d1 p1 w1 (log ++ t0))
    as (t1 & -> & Ht1).
  destruct (pushPayload resolver (FullString ref) d1 p1 w1) as [w2 [e|]]; simpl.
  2:{ exists (t0 ++ t1). rewrite (assoc_L (++)). split; [done|].
      rewrite pushes_app. destruct allowFallbacks; lia. }
  destruct allowFallbacks; simpl.
  2:{ exists (t0 ++ t1). rewrite (assoc_L (++)). split; [done|].
      rewrite pushes_app. lia. }
  destruct (prepareIndexNonOCI b ref confDescriptor options) as [e'|[d2 p2]].
  { exists (t0 ++ t1). rewrite (assoc_L (++)). split; [done|].
    rewrite pushes_app. lia. }
  destruct (pushPayload_traced (FullString ref) d2 p2 w2 ((log ++ t0) ++ t1))
    as (t2 & -> & Ht2).
  exists (t0 ++ t1 ++ t2). rewrite !(assoc_L (++)). split.
  - by destruct (pushPayload resolver (FullString ref) d2 p2 w2) as [w3 [e2|]].
  - rewrite <- !(assoc_L (++)), !pushes_app. lia.
Qed.

Lemma last_chain_Some c : is_Some (last (chain c)).
Proof. rewrite chain_unfold, last_cons. destruct (last _); eauto. Qed.

Lemma last_chain c fb :
  Fallback c = Some fb → last (chain c) = last (chain fb).
Proof.
  intros Hf. rewrite (chain_unfold c), Hf, last_cons.
  by destruct (last_chain_Some fb) as [y ->].
Qed.

(** X17. When [pushBundleConfig] returns an error, it is the error of a
    payload push of the representation tried last (the end of the fallback
    chain when fallbacks are allowed, the first representation otherwise),
    and the world is the one this push left: the errors of the
    representations tried before are dropped. *)
Theorem pushBundleConfig_error reference c allowFallbacks w w' err :
  pushBundleConfig resolver reference c allowFallbacks w = (w', inl err) →
  let r := lastTried c allowFallbacks in
  ∃ w0,
    pushPayload resolver reference (ConfigBlobDescriptor r) (ConfigBlob r) w0
    = (w', Some err)
    ∨ ∃ w1,
        pushPayload resolver reference (ConfigBlobDescriptor r) (ConfigBlob r) w0
        = (w1, None)
        ∧ pushPayload resolver reference (ManifestDescriptor r) (Manifest r) w1
          = (w', Some err).
Proof.
  revert w. induction c as [c IH] using PreparedBundleConfig_chain_ind.
  intros w. rewrite pushBundleConfig_unfold. unfold lastTried.
  destruct (Fallback c) as [fb|] eqn:Hf.
  - destruct allowFallbacks.
    + rewrite (last_chain c fb Hf).
      assert (default c (last (chain fb)) = default fb (last (chain fb))) as ->.
      { destruct (last_chain_Some fb) as [y ->]. done. }
      specialize (IH fb eq_refl). unfold lastTried in IH.
      destruct (pushPayload resolver reference (ConfigBlobDescriptor c) (ConfigBlob c) w)
        as [w1 [e|]]; [by apply IH|].
      destruct (pushPayload resolver reference (ManifestDescriptor c) (Manifest c) w1)
        as [w2 [e|]]; [by apply IH|done].
    + destruct (pushPayload resolver reference (ConfigBlobDescriptor c) (ConfigBlob c) w)
        as [w1 [e|]] eqn:Hb.
      * intros [= <- <-]. exists w. by left.
      * destruct (pushPayload resolver reference (ManifestDescriptor c) (Manifest c) w1)
          as [w2 [e|]] eqn:Hm; [|done].
        intros [= <- <-]. exists w. right. by exists w1.
  - assert ((if allowFallbacks then default c (last (chain c)) else c) = c) as ->.
    { destruct allowFallbacks; [|done]. by rewrite (chain_unfold c), Hf. }
    destruct (pushPayload resolver reference (ConfigBlobDescriptor c) (ConfigBlob c) w)
      as [w1 [e|]] eqn:Hb.
    + intros [= <- <-]. exists w. by left.
    + destruct (pushPayload resolver reference (ManifestDescriptor c) (Manifest c) w1)
        as [w2 [e|]] eqn:Hm; [|done].
      intros [= <- <-]. exists w. right. by exists w1.
Qed.

Lemma pushBundleConfig_pushed reference c allowFallbacks w w' d :
  pushBundleConfig resolver reference c allowFallbacks w = (w', inr d) →
  ∃ r, r ∈ chain c ∧ (allowFallbacks = false → r = c) ∧ d = ManifestDescriptor r.
Proof.
  revert w. induction c as [c IH] using PreparedBundleConfig_chain_ind.
  intros w. rewrite pushBundleConfig_unfold, (chain_unfold c).
  assert (∀ wf e,
    match Fallback c with
    | Some fb =>
        if allowFallbacks then pushBundleConfig resolver reference fb allowFallbacks wf
        else (wf, inl e)
    | None => (wf, inl e)
    end = (w', inr d) →
    ∃ r, r ∈ c :: match Fallback c with Some fb => chain fb | None => [] end
         ∧ (allowFallbacks = false → r = c) ∧ d = ManifestDescriptor r) as Hfb.
  { intros wf e. destruct (Fallback c) as [fb|]; [|done].
    destruct allowFallbacks; [|done]. intros H.
    destruct (IH fb eq_refl _ H) as (r & Hin & _ & ->).
    exists r. split_and!; [by right|done|done]. }
  destruct (pushPayload resolver reference (ConfigBlobDescriptor c) (ConfigBlob c) w)
    as [w1 [e|]]; [by apply Hfb|].
  destruct (pushPayload resolver reference (ManifestDescriptor c) (Manifest c) w1)
    as [w2 [e|]]; [by apply Hfb|].
  intros [= <- <-]. exists c. split_and!; [by left|done|done].
Qed.

(** X18. When [Push] returns a descriptor, it describes a payload that the
    last payload push accepted: the encoding of the index converted from the
    manifest descriptor of a representation of the bundle config (the first
    one when fallbacks are not allowed) with the options applied. The
    descriptor has the digest and the length of this payload; its media type
    is the OCI index type, or, only when fallbacks are allowed, the Docker
    manifest-list type with the payload encoding the manifest-list wrapper. *)
Theorem Push_returns_pushed_index b ref allowFallbacks options w w' d :
  PushWith resolver b ref allowFallbacks options w = (w', inr d) →
  ∃ c r ix p w0,
    PrepareForPush (CreateBundleConfig b) = inr c
    ∧ r ∈ chain c
    ∧ (allowFallbacks = false → r = c)
    ∧ convertIndexAndApplyOptions b ref (ManifestDescriptor r) options = inr ix
    ∧ ((json_Marshal_Index ix = inr p ∧ MediaType d = MediaTypeImageIndex)
       ∨ (allowFallbacks = true
          ∧ json_Marshal_Wrapper (manifestListWrapper ix) = inr p
          ∧ MediaType d = MediaTypeDockerSchema2ManifestList))
    ∧ Digest d = digest_FromBytes p
    ∧ Size d = Z.of_nat (length p)
    ∧ pushPayload resolver (FullString ref) d p w0 = (w', None).
Proof.
  unfold Push.Push.
  destruct (PrepareForPush (CreateBundleConfig b)) as [e|c] eqn:Hprep; [done|].
  destruct (pushBundleConfig resolver (Name ref) c allowFallbacks w)
    as [w1 [e|confDescriptor]] eqn:Hcfg; [done|].
  destruct (pushBundleConfig_pushed _ _ _ _ _ _ Hcfg) as (r & Hin & Hfirst & ->).
  unfold Push.prepareIndex, Push.prepareIndexNonOCI.
  destruct (convertIndexAndApplyOptions b ref (ManifestDescriptor r) options)
    as [e|ix] eqn:Hconv; [done|].
  destruct (json_Marshal_Index ix) as [e|p1] eqn:Hm1; [done|].
  match goal with
  | |- context [pushPayload resolver (FullString ref) ?dd p1 w1] => set (d1 := dd)
  end.
  destruct (pushPayload resolver (FullString ref) d1 p1 w1) as [w2 [e|]] eqn:Hp1.
  2:{ intros [= <- <-]. exists c, r, ix, p1, w1. split_and!; try done. by left. }
  destruct allowFallbacks; simpl; [|done].
  destruct (json_Marshal_Wrapper (manifestListWrapper ix)) as [e'|p2] eqn:Hm2; [done|].
  match goal with
  | |- context [pushPayload resolver (FullString ref) ?dd p2 w2] => set (d2 := dd)
  end.
  destruct (pushPayload resolver (FullString ref) d2 p2 w2) as [w3 [e2|]] eqn:Hp2;
    [done|].
  intros [= <- <-]. exists c, r, ix, p2, w2. split_and!; try done. by right.
Qed.

Lemma applyOptions_succeed ref options ix :
  succeed options ix = true →
  applyOptions ref options ix = inr (applied options ix).
Proof.
  revert ix. induction options as [|opts rest IH]; intros ix; [done|].
  simpl. destruct (opts ix) as [ix' [err|]]; [done|]. apply IH.
Qed.

Lemma applyOptions_first_error ref before opts after ix err :
  succeed before ix = true →
  (opts (applied before ix)).2 = Some err →
  applyOptions ref (before ++ opts :: after) ix
  = inl (Errorf "failed to prepare bundle manifest %q: %s"
           [ArgString (FullString ref); ArgError err]).
Proof.
  revert ix. induction before as [|o rest IH]; intros ix; simpl.
  - intros _ Herr. destruct (opts ix) as [ix' [e|]]; simpl in *; by simplify_eq.
  - destruct (o ix) as [ix' [e|]]; [done|]. apply IH.
Qed.

(** X19. [convertIndexAndApplyOptions] runs the options on the converted
    index in order, each on the index the one before left. When the
    conversion returns an error, this error is returned. When every option
    returns nil, the result is the index after all of them. When an option
    returns an error after those before it returned nil, the result is the
    error "failed to prepare bundle manifest" with the reference and the error
    of this option, whatever options come after it. *)
Theorem options_applied_in_order b ref confDescriptor options :
  (∀ e, ConvertBundleToOCIIndex b ref confDescriptor = inl e →
        convertIndexAndApplyOptions b ref confDescriptor options = inl e)
  ∧ (∀ ix, ConvertBundleToOCIIndex b ref confDescriptor = inr ix →
           succeed options ix = true →
           convertIndexAndApplyOptions b ref confDescriptor options
           = inr (applied options ix))
  ∧ (∀ ix before opts after err,
       ConvertBundleToOCIIndex b ref confDescriptor = inr ix →
       options = before ++ opts :: after →
       succeed before ix = true →
       (opts (applied before ix)).2 = Some err →
       convertIndexAndApplyOptions b ref confDescriptor options
       = inl (Errorf "failed to prepare bundle manifest %q: %s"
                [ArgString (FullString ref); ArgError err])).
Proof.
  unfold Push.convertIndexAndApplyOptions. split_and!.
  - by intros e ->.
  - intros ix -> Hok. by apply applyOptions_succeed.
  - intros ix before opts after err -> -> Hok Herr.
    by apply applyOptions_first_error.
Qed.

End call_facts.

(** A registry that refuses OCI media types, recorded: the config falls back
    to the Docker representation and the index to the manifest list. *)
Lemma Push_calls_bounded_witness :
  ∃ t,
    Push.Push (traced (loggingResolver Demo.noOCI)) Demo.createBundleConfig
      Demo.prepareForPush Demo.convert Demo.marshalIndex Demo.marshalWrapper
      Demo.digestOf tt Demo.ref true [] ([], [])
    = (((DemoRuns.push Demo.noOCI true).1, [] ++ t), (DemoRuns.push Demo.noOCI true).2)
    ∧ (pushes t ≤ 6)%nat.
Proof.
  exact (Push_calls_bounded (loggingResolver Demo.noOCI) Demo.createBundleConfig
           Demo.prepareForPush Demo.convert Demo.marshalIndex Demo.marshalWrapper
           Demo.digestOf tt Demo.ref true [] Demo.ociConfig [] [] eq_refl).
Defined.

(** A registry that refuses everything: the error is that of the blob push of
    the Docker representation, the last of the chain. *)
Lemma pushBundleConfig_error_witness :
  let r := loggingResolver (λ _, Some (AtPush, ErrLeaf "denied")) in
  let out := pushBundleConfig r (Name Demo.ref) Demo.ociConfig true [] in
  ∃ w0,
    pushPayload r (Name Demo.ref) (ConfigBlobDescriptor Demo.dockerConfig)
      (ConfigBlob Demo.dockerConfig) w0
    = (out.1, Some (ErrLeaf "denied"))
    ∨ ∃ w1,
        pushPayload r (Name Demo.ref) (ConfigBlobDescriptor Demo.dockerConfig)
          (ConfigBlob Demo.dockerConfig) w0
        = (w1, None)
        ∧ pushPayload r (Name Demo.ref) (ManifestDescriptor Demo.dockerConfig)
            (Manifest Demo.dockerConfig) w1
          = (out.1, Some (ErrLeaf "denied")).
Proof.
  intros r out.
  apply (pushBundleConfig_error r (Name Demo.ref) Demo.ociConfig true [] out.1
           (ErrLeaf "denied")).
  reflexivity.
Defined.

(** A registry that has everything: the descriptor returned is that of the OCI
    index. *)
Lemma Push_returns_pushed_index_witness :
  ∃ c r ix p w0,
    Demo.prepareForPush (Demo.createBundleConfig tt) = inr c
    ∧ r ∈ chain c
    ∧ Demo.marshalIndex ix = inr p
    ∧ Digest DemoRuns.ociIndexDescriptor = Demo.digestOf p
    ∧ pushPayload (loggingResolver Demo.hasAll) (FullString Demo.ref)
        DemoRuns.ociIndexDescriptor p w0
      = ((DemoRuns.push Demo.hasAll true).1, None).
Proof.
  destruct (Push_returns_pushed_index (loggingResolver Demo.hasAll)
              Demo.createBundleConfig Demo.prepareForPush Demo.convert
              Demo.marshalIndex Demo.marshalWrapper Demo.digestOf
              tt Demo.ref true [] [] (DemoRuns.push Demo.hasAll true).1
              DemoRuns.ociIndexDescriptor eq_refl)
    as (c & r & ix & p & w0 & Hc & Hr & _ & _ & [[Hm _]|(_ & _ & Hmt)] & Hd & _ & Hp).
  - by exists c, r, ix, p, w0.
  - discriminate Hmt.
Defined.

(** An option that sets an annotation; the same followed by an option that
    refuses the index, and one more that is not run. *)
Lemma options_applied_in_order_witness :
  let d := ManifestDescriptor Demo.ociConfig in
  let ix := {| SchemaVersion := 2; Manifests := [d]; Annotations := ∅ |} in
  convertIndexAndApplyOptions Demo.convert tt Demo.ref d [Demo.annotate]
  = inr {| SchemaVersion := 2; Manifests := [d];
           Annotations := <["org.example.title" := "demo"]> ∅ |}
  ∧ convertIndexAndApplyOptions Demo.convert tt Demo.ref d
      [Demo.annotate; Demo.refuse; Demo.annotate]
    = inl (Errorf "failed to prepare bundle manifest %q: %s"
             [ArgString (FullString Demo.ref);
              ArgError (ErrLeaf "no annotations allowed")]).
Proof.
  intros d ix. split.
  - apply (proj1 (proj2 (options_applied_in_order Demo.convert tt Demo.ref d
                           [Demo.annotate])) ix); reflexivity.
  - apply (proj2 (proj2 (options_applied_in_order Demo.convert tt Demo.ref d
                           [Demo.annotate; Demo.refuse; Demo.annotate]))
             ix [Demo.annotate] Demo.refuse [Demo.annotate]); reflexivity.
Defined.

End PushFacts.

